(** * Descriptor-anchored source accessors (libutil/unix/unix-source-accessor)

    A shallow embedding of [UnixSourceAccessorBase], [UnixFileSourceAccessor],
    [UnixDirectorySourceAccessor] and [makeFSSourceAccessor].  The operating
    system is an interface of system calls ([Posix]); the accessors are written
    over it in a small monad that threads the accessor's mutable members,
    carries C++ exceptions, and records every system call and callback. *)

From Stdlib Require Import ZArith String Ascii List Bool Lia.
From stdpp Require Import base strings gmap list.

Local Open Scope string_scope.
Local Open Scope list_scope.
Local Open Scope Z_scope.

(** ** Integer types *)

Definition to_uint64 (z : Z) : Z := z mod 2 ^ 64.

Definition to_off_t (z : Z) : Z :=
  let u := z mod 2 ^ 64 in if u <? 2 ^ 63 then u else u - 2 ^ 64.

(** ** errno, open flags, file modes, directory-entry types *)

Inductive Errno :=
| ENOENT | EINTR | EIO | EBADF | EACCES | ENOTDIR | EISDIR | EINVAL | ELOOP | ENAMETOOLONG.

Definition Errno_eqb (a b : Errno) : bool :=
  match a, b with
  | ENOENT, ENOENT | EINTR, EINTR | EIO, EIO | EBADF, EBADF | EACCES, EACCES
  | ENOTDIR, ENOTDIR | EISDIR, EISDIR | EINVAL, EINVAL | ELOOP, ELOOP
  | ENAMETOOLONG, ENAMETOOLONG => true
  | _, _ => false
  end.

Module Fcntl.
Definition O_RDONLY : Z := 0.
Definition O_DIRECTORY : Z := 0x10000.
Definition O_NOFOLLOW : Z := 0x20000.
Definition O_CLOEXEC : Z := 0x80000.
Definition AT_SYMLINK_NOFOLLOW : Z := 0x100.
Definition has (flags flag : Z) : bool := negb (Z.land flags flag =? 0).
End Fcntl.

Module StatMode.
Definition S_IFMT : Z := 0xF000.
Definition S_IFIFO : Z := 0x1000.
Definition S_IFCHR : Z := 0x2000.
Definition S_IFDIR : Z := 0x4000.
Definition S_IFBLK : Z := 0x6000.
Definition S_IFREG : Z := 0x8000.
Definition S_IFLNK : Z := 0xA000.
Definition S_IFSOCK : Z := 0xC000.
Definition S_IXUSR : Z := 0x40.
Definition S_ISDIR (m : Z) : bool := Z.land m S_IFMT =? S_IFDIR.
Definition S_ISREG (m : Z) : bool := Z.land m S_IFMT =? S_IFREG.
Definition S_ISLNK (m : Z) : bool := Z.land m S_IFMT =? S_IFLNK.
Definition S_ISCHR (m : Z) : bool := Z.land m S_IFMT =? S_IFCHR.
Definition S_ISBLK (m : Z) : bool := Z.land m S_IFMT =? S_IFBLK.
Definition S_ISFIFO (m : Z) : bool := Z.land m S_IFMT =? S_IFIFO.
Definition S_ISSOCK (m : Z) : bool := Z.land m S_IFMT =? S_IFSOCK.
End StatMode.

Module Dirent.
Definition DT_UNKNOWN : Z := 0.
Definition DT_FIFO : Z := 1.
Definition DT_CHR : Z := 2.
Definition DT_DIR : Z := 4.
Definition DT_BLK : Z := 6.
Definition DT_REG : Z := 8.
Definition DT_LNK : Z := 10.
Definition DT_SOCK : Z := 12.
Record t := mk { d_name : string; d_type : Z }.
End Dirent.

(** [struct stat], restricted to the members the accessors read. *)
Record posix_stat := mkStat { st_mode : Z; st_size : Z; st_mtime : Z }.

(** ** Canonical paths *)

Module CanonPath.

(** Modelled from the spec: the canonical-path value type (canon-path.hh is not
    among the sources).  A path is its sequence of normalized segments under a
    virtual root; [parent] and [baseName] are absent for the root, and
    concatenation is structural. *)
Definition t : Type := list string.

Definition root : t := [].

Definition isRoot (p : t) : bool :=
  match p with [] => true | _ :: _ => false end.

Definition parent (p : t) : option t :=
  match p with [] => None | _ :: _ => Some (removelast p) end.

Definition baseName (p : t) : option string :=
  match p with [] => None | _ :: _ => Some (List.last p "") end.

Definition push (p : t) (c : string) : t := p ++ [c].

Definition concat (p q : t) : t := p ++ q.

Definition rel (p : t) : string := String.concat "/" p.

Definition abs (p : t) : string := "/" +:+ rel p.

End CanonPath.

(** ** The accessor interface's value types *)

Inductive Type_ := tRegular | tSymlink | tDirectory | tChar | tBlock | tSocket | tFifo | tUnknown.

Record Stat := mkAccessorStat {
  type : Type_;
  fileSize : option Z;      (* uint64_t *)
  isExecutable : bool
}.

(** Modelled from the spec: the conversion of a [struct stat] into the metadata
    record (posixStatToAccessorStat is not among the sources): the kind comes
    from the file-type bits, the size is present only for regular files, and
    the executable flag is the owner-execute bit of a regular file. *)
Definition posixStatToAccessorStat (st : posix_stat) : Stat :=
  let m := st_mode st in
  {| type :=
       if StatMode.S_ISREG m then tRegular
       else if StatMode.S_ISDIR m then tDirectory
       else if StatMode.S_ISLNK m then tSymlink
       else if StatMode.S_ISCHR m then tChar
       else if StatMode.S_ISBLK m then tBlock
       else if StatMode.S_ISFIFO m then tFifo
       else if StatMode.S_ISSOCK m then tSocket
       else tUnknown;
     fileSize := if StatMode.S_ISREG m then Some (to_uint64 (st_size st)) else None;
     isExecutable := StatMode.S_ISREG m && Fcntl.has m StatMode.S_IXUSR |}.

(** ** Exceptions *)

Inductive Error :=
| NotADirectory (msg : string)
| NotASymlink (msg : string)
| NotARegularFile (msg : string)
| FileNotFound (msg : string)
| SymlinkNotAllowed (path : CanonPath.t) (msg : option string)
    (* [msg = None]: the one-argument constructor, whose text is not in these sources *)
| SysError (errNo : option Errno) (msg : string)
    (* [errNo = None]: constructed when no call has just failed, so that the
       number it carries is whatever errno was left at, possibly by an
       earlier call (after a retried [pread], a stale EINTR) *)
| Interrupted
| BadOptionalAccess
| AssertionFailure.

(** Every exception but [SymlinkNotAllowed]. *)
Definition not_symlink_error (e : Error) : Prop :=
  match e with SymlinkNotAllowed _ _ => False | _ => True end.

(** ** The operating system *)

Class Posix := {
  Descriptor : Type;
  INVALID_DESCRIPTOR : Descriptor;
  fd_valid : Descriptor -> bool;          (* [fd != INVALID_DESCRIPTOR] *)
  os_open : string -> Z -> Errno + Descriptor;
  os_openat : Descriptor -> string -> Z -> Errno + Descriptor;
  os_fstat : Descriptor -> Errno + posix_stat;
  os_fstatat : Descriptor -> string -> Z -> Errno + posix_stat;
  os_readlinkat : Descriptor -> string -> Errno + string;
  os_fdopendir : Descriptor -> Errno + Descriptor;
  (* the entries [readdir] hands out until it returns null, and the errno it leaves *)
  os_readdir : Descriptor -> list Dirent.t * option Errno;
  (* [os_pread n fd count offset]: the [n]-th positioned read of one [readFile] call *)
  os_pread : nat -> Descriptor -> Z -> Z -> Errno + list Byte.byte;
  (* [os_interrupted n]: whether the [n]-th [checkInterrupt] of a call finds a pending interrupt *)
  os_interrupted : nat -> bool;
  invalid_descriptor : fd_valid INVALID_DESCRIPTOR = false
}.

(** ** The monad the accessors run in *)

(** A call returns, throws, or (only where the model bounds a loop) runs out of fuel. *)
Inductive Outcome (A : Type) :=
| Ok (a : A)
| Throw (e : Error)
| OutOfFuel.

Arguments Ok {A} a.
Arguments Throw {A} e.
Arguments OutOfFuel {A}.

Section Monad.
Context `{Posix}.

Inductive Event :=
| EvOpen (path : string) (flags : Z)
| EvOpenat (dirFd : Descriptor) (name : string) (flags : Z)
| EvFstat (fd : Descriptor)
| EvFstatat (dirFd : Descriptor) (name : string) (flags : Z)
| EvReadlinkat (dirFd : Descriptor) (name : string)
| EvFdopendir (fd : Descriptor)
| EvReaddir (dir : Descriptor)
| EvPread (fd : Descriptor) (count offset : Z)
| EvSizeCallback (size : Z)
| EvSink (data : list Byte.byte).

Record Run (S A : Type) := mkRun {
  outcome : Outcome A;
  final : S;
  trace : list Event
}.

Definition M (S A : Type) : Type := S -> Run S A.

Arguments mkRun {S A}.
Arguments outcome {S A}.
Arguments final {S A}.
Arguments trace {S A}.

Definition ret {S A} (a : A) : M S A := fun s => mkRun (Ok a) s [].

Definition throw {S A} (e : Error) : M S A := fun s => mkRun (Throw e) s [].

Definition outOfFuel {S A} : M S A := fun s => mkRun OutOfFuel s [].

Definition bind {S A B} (m : M S A) (k : A -> M S B) : M S B :=
  fun s =>
    let r := m s in
    match outcome r with
    | Ok a => let r' := k a (final r) in mkRun (outcome r') (final r') (trace r ++ trace r')
    | Throw e => mkRun (Throw e) (final r) (trace r)
    | OutOfFuel => mkRun OutOfFuel (final r) (trace r)
    end.

(** [try { m } catch (...) { h }]: the handler sees every exception and rethrows
    the ones its catch clause does not name. *)
Definition try_catch {S A} (m : M S A) (h : Error -> M S A) : M S A :=
  fun s =>
    let r := m s in
    match outcome r with
    | Throw e => let r' := h e (final r) in mkRun (outcome r') (final r') (trace r ++ trace r')
    | _ => r
    end.

Definition get {S} : M S S := fun s => mkRun (Ok s) s [].

Definition modify {S} (f : S -> S) : M S unit := fun s => mkRun (Ok tt) (f s) [].

Definition emit {S} (ev : Event) : M S unit := fun s => mkRun (Ok tt) s [ev].

(** A method call on an object local to the caller: the object's final state is
    handed back when the call returns and is lost when it throws. *)
Definition call_on {S T A} (obj : T) (m : M T A) : M S (A * T) :=
  fun s =>
    let r := m obj in
    match outcome r with
    | Ok a => mkRun (Ok (a, final r)) s (trace r)
    | Throw e => mkRun (Throw e) s (trace r)
    | OutOfFuel => mkRun OutOfFuel s (trace r)
    end.

(** *** System calls, each recorded in the trace *)

Definition sys_open {S} (path : string) (flags : Z) : M S (Errno + Descriptor) :=
  fun s => mkRun (Ok (os_open path flags)) s [EvOpen path flags].

Definition sys_openat {S} (dirFd : Descriptor) (name : string) (flags : Z)
  : M S (Errno + Descriptor) :=
  fun s => mkRun (Ok (os_openat dirFd name flags)) s [EvOpenat dirFd name flags].

Definition sys_fstat {S} (fd : Descriptor) : M S (Errno + posix_stat) :=
  fun s => mkRun (Ok (os_fstat fd)) s [EvFstat fd].

Definition sys_fstatat {S} (dirFd : Descriptor) (name : string) (flags : Z)
  : M S (Errno + posix_stat) :=
  fun s => mkRun (Ok (os_fstatat dirFd name flags)) s [EvFstatat dirFd name flags].

Definition sys_readlinkat {S} (dirFd : Descriptor) (name : string) : M S (Errno + string) :=
  fun s => mkRun (Ok (os_readlinkat dirFd name)) s [EvReadlinkat dirFd name].

Definition sys_fdopendir {S} (fd : Descriptor) : M S (Errno + Descriptor) :=
  fun s => mkRun (Ok (os_fdopendir fd)) s [EvFdopendir fd].

(** [pread] stores at most [count] bytes. *)
Definition sys_pread {S} (n : nat) (fd : Descriptor) (count offset : Z)
  : M S (Errno + list Byte.byte) :=
  fun s =>
    mkRun (Ok match os_pread n fd count offset with
              | inl e => inl e
              | inr data => inr (firstn (Z.to_nat count) data)
              end)
          s [EvPread fd count offset].

(** [checkInterrupt()] (signals.hh) throws when the user has interrupted the process. *)
Definition checkInterrupt {S} (n : nat) : M S unit :=
  if os_interrupted n then throw Interrupted else ret tt.

End Monad.

Arguments mkRun {_ S A}.
Arguments outcome {_ S A}.
Arguments final {_ S A}.
Arguments trace {_ S A}.

Declare Scope accessor_scope.
Delimit Scope accessor_scope with acc.
Notation "x <- m ;; k" := (bind m (fun x => k))
  (at level 100, m at next level, right associativity) : accessor_scope.
Notation "m ;;; k" := (bind m (fun _ => k))
  (at level 100, right associativity) : accessor_scope.
Local Open Scope accessor_scope.

(** Modelled from the spec: the accessor interface's default rendering of a path
    (source-accessor.cc is not among the sources): the display prefix followed
    by the path. *)
Definition SourceAccessor_showPath (displayPrefix : string) (path : CanonPath.t) : string :=
  displayPrefix +:+ CanonPath.abs path.

(** ** UnixSourceAccessorBase *)

Module UnixSourceAccessorBase.

Record t := mk {
  trackLastModified : bool;
  mtime : Z                      (* std::time_t, initialised to 0 *)
}.

Definition init (trackLastModified : bool) : t :=
  {| trackLastModified := trackLastModified; mtime := 0 |}.

Definition updateMtime (self : t) (newMtime : Z) : t :=
  if trackLastModified self
  then {| trackLastModified := trackLastModified self; mtime := Z.max (mtime self) newMtime |}
  else self.

Definition getLastModified (self : t) : option Z :=
  if trackLastModified self then Some (mtime self) else None.

End UnixSourceAccessorBase.

Module Base := UnixSourceAccessorBase.

(** ** UnixFileSourceAccessor *)

Module UnixFileSourceAccessor.
Section WithPosix.
Context `{Posix}.

(** [statFlag] and [cachedStat] together: the flag is set exactly when the
    cached record is present. *)
Record t := mk {
  base : Base.t;
  fd : Descriptor;
  rootPath : CanonPath.t;
  displayPrefix : string;
  cachedStat : option posix_stat
}.

Definition set_base (b : Base.t) (self : t) : t :=
  {| base := b; fd := fd self; rootPath := rootPath self;
     displayPrefix := displayPrefix self; cachedStat := cachedStat self |}.

Definition set_cachedStat (st : posix_stat) (self : t) : t :=
  {| base := base self; fd := fd self; rootPath := rootPath self;
     displayPrefix := displayPrefix self; cachedStat := Some st |}.

Definition updateMtime (newMtime : Z) : M t unit :=
  modify (fun self => set_base (Base.updateMtime (base self) newMtime) self).

Definition getLastModified (self : t) : option Z := Base.getLastModified (base self).

(** The constructor; [st] is the optional prefetched status record. *)
Definition new (fd_ : Descriptor) (rootPath_ : CanonPath.t) (trackLastModified : bool)
    (st : option posix_stat) : t :=
  let self := {| base := Base.init trackLastModified; fd := fd_; rootPath := rootPath_;
                 displayPrefix := CanonPath.abs rootPath_; cachedStat := None |} in
  match st with
  | Some st => set_base (Base.updateMtime (base self) (st_mtime st)) (set_cachedStat st self)
  | None => self
  end.

Definition showPath (self : t) (path : CanonPath.t) : string :=
  if CanonPath.isRoot path then displayPrefix self
  else SourceAccessor_showPath (displayPrefix self) path.

Definition readDirectory {A} (path : CanonPath.t) : M t A :=
  self <- get ;;
  throw (NotADirectory ("'" +:+ showPath self path +:+ "' is not a directory")).

Definition readLink (path : CanonPath.t) : M t string :=
  self <- get ;;
  throw (NotASymlink ("file '" +:+ showPath self path +:+ "' is not a symlink")).

Definition pathExists (path : CanonPath.t) : bool := CanonPath.isRoot path.

Definition getPhysicalPath (self : t) (path : CanonPath.t) : option string :=
  if CanonPath.isRoot path then Some (CanonPath.abs (rootPath self)) else None.

Definition maybeLstat (path : CanonPath.t) : M t (option Stat) :=
  if negb (CanonPath.isRoot path) then ret None
  else
    self <- get ;;
    match cachedStat self with
    | Some st => ret (Some (posixStatToAccessorStat st))
    | None =>
        r <- sys_fstat (fd self) ;;
        match r with
        | inl e => throw (SysError (Some e) ("statting file '" +:+ displayPrefix self +:+ "'"))
        | inr st =>
            modify (set_cachedStat st) ;;;
            updateMtime (st_mtime st) ;;;
            ret (Some (posixStatToAccessorStat st))
        end
    end.

Definition bufSize : Z := 64 * 1024.

(** The [while (left)] loop of [readFile]; [n] counts the iterations made so far. *)
Fixpoint readLoop (fuel : nat) (n : nat) (path : CanonPath.t) (left offset : Z) : M t unit :=
  if left =? 0 then ret tt
  else
    match fuel with
    | O => outOfFuel
    | S fuel' =>
        checkInterrupt n ;;;
        self <- get ;;
        r <- sys_pread n (fd self) (Z.min (to_uint64 left) bufSize) offset ;;
        match r with
        | inl e =>
            if Errno_eqb e EINTR then readLoop fuel' (S n) path left offset
            else throw (SysError (Some e) ("reading from file '" +:+ showPath self path +:+ "'"))
        | inr data =>
            let rd := Z.of_nat (length data) in
            if rd =? 0
            then throw (SysError None ("unexpected end-of-file reading '" +:+ showPath self path +:+ "'"))
            else if negb (rd <=? left) then throw AssertionFailure
            else emit (EvSink data) ;;; readLoop fuel' (S n) path (left - rd) (offset + rd)
        end
    end.

Definition readFile (fuel : nat) (path : CanonPath.t) : M t unit :=
  if negb (CanonPath.isRoot path)
  then self <- get ;;
       throw (FileNotFound ("path '" +:+ showPath self path +:+ "' does not exist"))
  else
    o <- maybeLstat path ;;
    match o with
    | None => throw BadOptionalAccess
    | Some st =>
        match fileSize st with
        | None => throw BadOptionalAccess
        | Some size =>
            let left := to_off_t size in
            emit (EvSizeCallback (to_uint64 left)) ;;;
            readLoop fuel 0 path left 0
        end
    end.

End WithPosix.
End UnixFileSourceAccessor.

(** ** Safe resolution beneath a directory descriptor *)

Section Resolution.
Context `{Posix}.

Definition is_symlink_stat (r : Errno + posix_stat) : bool :=
  match r with
  | inr st => StatMode.S_ISLNK (st_mode st)
  | inl _ => false
  end.

(** Modelled from the spec: the flags of an intermediate step of the descent:
    the target must be a directory, a symlink is not followed, and the
    descriptor is not inherited across process replacement. *)
Definition intermediateFlags : Z :=
  Z.lor Fcntl.O_DIRECTORY (Z.lor Fcntl.O_NOFOLLOW Fcntl.O_CLOEXEC).

(** Modelled from the spec: the descent of the safe-resolution algorithm
    (openFileEnsureBeneathNoSymlinks lives in file-descriptor.cc, which is not
    among the sources).  Every component before the last is opened relative to
    the descriptor reached so far with flags that require a directory, refuse
    to follow a symlink and are close-on-exec.  A step that fails on an entry
    that is a symlink throws [SymlinkNotAllowed] with the sub-path reached;
    any other failed step gives back the invalid descriptor and the errno
    ([inl]).  The last component is opened by name with the caller's flags,
    never following a symlink; its failure is given back with its errno. *)
Fixpoint descend {S} (dirFd : Descriptor) (seen : CanonPath.t) (components : list string)
    (name : string) (flags : Z) : M S (Errno + Descriptor) :=
  match components with
  | [] => sys_openat dirFd name (Z.lor flags Fcntl.O_NOFOLLOW)
  | c :: rest =>
      r <- sys_openat dirFd c intermediateFlags ;;
      match r with
      | inr fd' => descend fd' (CanonPath.push seen c) rest name flags
      | inl e =>
          st <- sys_fstatat dirFd c Fcntl.AT_SYMLINK_NOFOLLOW ;;
          if is_symlink_stat st
          then throw (SymlinkNotAllowed (CanonPath.push seen c) None)
          else ret (inl e)
      end
  end.

(** Modelled from the spec: see [descend]. *)
Definition openFileEnsureBeneathNoSymlinks {S} (dirFd : Descriptor) (path : CanonPath.t)
    (flags : Z) : M S (Errno + Descriptor) :=
  match path with
  | [] => throw AssertionFailure
  | _ :: _ => descend dirFd CanonPath.root (removelast path) (List.last path "") flags
  end.

(** Modelled from the spec: reading a link target by name relative to a
    descriptor (readLinkAt is not among the sources); a failure of the
    underlying read is a [SysError] carrying its errno. *)
Definition readLinkAt {S} (dirFd : Descriptor) (path : CanonPath.t) : M S string :=
  r <- sys_readlinkat dirFd (CanonPath.rel path) ;;
  match r with
  | inl e => throw (SysError (Some e) ("reading symbolic link '" +:+ CanonPath.rel path +:+ "'"))
  | inr target => ret target
  end.

End Resolution.

(** ** UnixDirectorySourceAccessor *)

Definition emplace (name : string) (type : option Type_)
    (entries : gmap string (option Type_)) : gmap string (option Type_) :=
  match entries !! name with
  | Some _ => entries
  | None => <[name := type]> entries
  end.

Definition direntType (d_type : Z) : option Type_ :=
  if d_type =? Dirent.DT_REG then Some tRegular
  else if d_type =? Dirent.DT_DIR then Some tDirectory
  else if d_type =? Dirent.DT_LNK then Some tSymlink
  else if d_type =? Dirent.DT_CHR then Some tChar
  else if d_type =? Dirent.DT_BLK then Some tBlock
  else if d_type =? Dirent.DT_FIFO then Some tFifo
  else if d_type =? Dirent.DT_SOCK then Some tSocket
  else None.

Module UnixDirectorySourceAccessor.
Section WithPosix.
Context `{Posix}.

Record t := mk {
  base : Base.t;
  fd : Descriptor;
  rootPath : CanonPath.t;
  displayPrefix : string
}.

Definition set_base (b : Base.t) (self : t) : t :=
  {| base := b; fd := fd self; rootPath := rootPath self; displayPrefix := displayPrefix self |}.

Definition set_displayPrefix (d : string) (self : t) : t :=
  {| base := base self; fd := fd self; rootPath := rootPath self; displayPrefix := d |}.

Definition updateMtime (newMtime : Z) : M t unit :=
  modify (fun self => set_base (Base.updateMtime (base self) newMtime) self).

Definition getLastModified (self : t) : option Z := Base.getLastModified (base self).

Definition new (fd_ : Descriptor) (rootPath_ : CanonPath.t) (trackLastModified : bool) : t :=
  {| base := Base.init trackLastModified; fd := fd_; rootPath := rootPath_;
     displayPrefix := CanonPath.abs rootPath_ |}.

Definition showPath (self : t) (path : CanonPath.t) : string :=
  SourceAccessor_showPath (displayPrefix self) path.

(** [O_DIRECTORY | O_RDONLY | O_NOFOLLOW | O_CLOEXEC], as [openParent] and
    [readDirectory] pass them. *)
Definition directoryFlags : Z :=
  Z.lor Fcntl.O_DIRECTORY (Z.lor Fcntl.O_RDONLY (Z.lor Fcntl.O_NOFOLLOW Fcntl.O_CLOEXEC)).

(** [O_RDONLY | O_NOFOLLOW | O_CLOEXEC], as [readFile] passes them. *)
Definition fileFlags : Z :=
  Z.lor Fcntl.O_RDONLY (Z.lor Fcntl.O_NOFOLLOW Fcntl.O_CLOEXEC).

Definition openParent (path : CanonPath.t) : M t Descriptor :=
  if CanonPath.isRoot path then throw AssertionFailure
  else
    match CanonPath.parent path with
    | None => throw BadOptionalAccess
    | Some parent =>
        self <- get ;;
        if CanonPath.isRoot parent then ret (fd self)
        else
          r <- openFileEnsureBeneathNoSymlinks (fd self) parent directoryFlags ;;
          match r with
          | inl e =>
              if Errno_eqb e ELOOP || Errno_eqb e ENOTDIR
              then throw (SymlinkNotAllowed parent None)
              else ret INVALID_DESCRIPTOR
          | inr parentFd => ret parentFd
          end
    end.

(** The handler every public operation ends with:
    [catch (SymlinkNotAllowed & e) { throw SymlinkNotAllowed(e.path, "path '%s' is a symlink", showPath(e.path)); }]
    Any other exception passes through it. *)
Definition rethrown (self : t) (e : Error) : Error :=
  match e with
  | SymlinkNotAllowed epath _ =>
      SymlinkNotAllowed epath (Some ("path '" +:+ showPath self epath +:+ "' is a symlink"))
  | _ => e
  end.

Definition rethrowSymlinkNotAllowed {A} (e : Error) : M t A :=
  self <- get ;;
  throw (rethrown self e).

Definition getPhysicalPath (self : t) (path : CanonPath.t) : option string :=
  if CanonPath.isRoot path then Some (CanonPath.abs (rootPath self))
  else Some (CanonPath.abs (CanonPath.concat (rootPath self) path)).

Definition maybeLstat (path : CanonPath.t) : M t (option Stat) :=
  try_catch
    (self <- get ;;
     if CanonPath.isRoot path then
       r <- sys_fstat (fd self) ;;
       match r with
       | inl _ => ret None
       | inr st => updateMtime (st_mtime st) ;;; ret (Some (posixStatToAccessorStat st))
       end
     else
       parentFd <- openParent path ;;
       if negb (fd_valid parentFd) then ret None
       else
         match CanonPath.baseName path with
         | None => throw BadOptionalAccess
         | Some name =>
             r <- sys_fstatat parentFd name Fcntl.AT_SYMLINK_NOFOLLOW ;;
             match r with
             | inl _ => ret None
             | inr st => updateMtime (st_mtime st) ;;; ret (Some (posixStatToAccessorStat st))
             end
         end)
    rethrowSymlinkNotAllowed.

Definition readFile (fuel : nat) (path : CanonPath.t) : M t unit :=
  try_catch
    (self <- get ;;
     if CanonPath.isRoot path
     then throw (NotARegularFile ("'" +:+ showPath self path +:+ "' is not a regular file"))
     else
       r <- openFileEnsureBeneathNoSymlinks (fd self) path fileFlags ;;
       match r with
       | inl e =>
           if Errno_eqb e ELOOP
           then throw (NotARegularFile
                         ("'" +:+ showPath self path +:+ "' is a symlink, not a regular file"))
           else if Errno_eqb e ENOENT || Errno_eqb e ENOTDIR
           then throw (FileNotFound ("file '" +:+ showPath self path +:+ "' does not exist"))
           else throw (SysError (Some e) ("opening '" +:+ showPath self path +:+ "'"))
       | inr fileFd =>
           let fileAccessor :=
             UnixFileSourceAccessor.new fileFd (CanonPath.concat (rootPath self) path)
               (Base.trackLastModified (base self)) None in
           done <- call_on fileAccessor (UnixFileSourceAccessor.readFile fuel CanonPath.root) ;;
           match UnixFileSourceAccessor.getLastModified (snd done) with
           | Some fileMtime =>
               modify (fun self =>
                 set_base {| Base.trackLastModified := Base.trackLastModified (base self);
                             Base.mtime := Z.max (Base.mtime (base self)) fileMtime |} self)
           | None => ret tt
           end
       end)
    rethrowSymlinkNotAllowed.

(** The [readdir] loop over the entries the handle yields; [n] counts them. *)
Fixpoint readEntries (dir : Descriptor) (n : nat) (dirents : list Dirent.t)
    (entries : gmap string (option Type_)) : M t (gmap string (option Type_)) :=
  emit (EvReaddir dir) ;;;
  match dirents with
  | [] => ret entries
  | dirent :: rest =>
      checkInterrupt n ;;;
      let name := Dirent.d_name dirent in
      if String.eqb name "." || String.eqb name ".."
      then readEntries dir (S n) rest entries
      else readEntries dir (S n) rest (emplace name (direntType (Dirent.d_type dirent)) entries)
  end.

Definition readDirectory (path : CanonPath.t) : M t (gmap string (option Type_)) :=
  try_catch
    (self <- get ;;
     r <- (if CanonPath.isRoot path
           then sys_openat (fd self) "."
                  (Z.lor Fcntl.O_DIRECTORY (Z.lor Fcntl.O_RDONLY Fcntl.O_CLOEXEC))
           else openFileEnsureBeneathNoSymlinks (fd self) path directoryFlags) ;;
     match r with
     | inl e =>
         if Errno_eqb e ENOTDIR
         then throw (NotADirectory ("'" +:+ showPath self path +:+ "' is not a directory"))
         else throw (SysError (Some e) ("opening directory '" +:+ showPath self path +:+ "'"))
     | inr dirFdOwning =>
         d <- sys_fdopendir dirFdOwning ;;
         match d with
         | inl e => throw (SysError (Some e) ("opening directory '" +:+ showPath self path +:+ "'"))
         | inr dir =>
             entries <- readEntries dir 0 (fst (os_readdir dir)) ∅ ;;
             match snd (os_readdir dir) with
             | Some e => throw (SysError (Some e) ("reading directory " +:+ CanonPath.abs path))
             | None => ret entries
             end
         end
     end)
    rethrowSymlinkNotAllowed.

Definition readLink (path : CanonPath.t) : M t string :=
  try_catch
    (self <- get ;;
     if CanonPath.isRoot path
     then throw (NotASymlink ("file '" +:+ showPath self path +:+ "' is not a symlink"))
     else
       parentFd <- openParent path ;;
       if negb (fd_valid parentFd)
       then throw (FileNotFound ("file '" +:+ showPath self path +:+ "' does not exist"))
       else
         match CanonPath.baseName path with
         | None => throw BadOptionalAccess
         | Some name =>
             try_catch (readLinkAt parentFd [name])
               (fun e =>
                  match e with
                  | SysError (Some EINVAL) _ =>
                      throw (NotASymlink ("file '" +:+ showPath self path +:+ "' is not a symlink"))
                  | _ => throw e
                  end)
         end)
    rethrowSymlinkNotAllowed.

End WithPosix.
End UnixDirectorySourceAccessor.

(** ** The in-memory fallback accessor *)

Module MemorySourceAccessor.

(** Modelled from the spec: the in-memory fallback accessor
    (memory-source-accessor.hh is not among the sources), which is left empty
    or populated with a single symlink entry at its root.  The status of a path
    is absent unless the path is the populated root; reading a link succeeds
    only there. *)
Inductive File := Symlink (target : string).

Record t := mk { root : option File; displayPrefix : string }.

Definition empty : t := {| root := None; displayPrefix := "" |}.

Definition setPathDisplay (prefix : string) (self : t) : t :=
  {| root := root self; displayPrefix := prefix |}.

Definition createSymlink (path : CanonPath.t) (target : string) (self : t) : t :=
  if CanonPath.isRoot path
  then {| root := Some (Symlink target); displayPrefix := displayPrefix self |}
  else self.

Definition maybeLstat (self : t) (path : CanonPath.t) : option Stat :=
  if CanonPath.isRoot path then
    match root self with
    | Some (Symlink _) => Some {| type := tSymlink; fileSize := None; isExecutable := false |}
    | None => None
    end
  else None.

Definition readLink (self : t) (path : CanonPath.t) : Outcome string :=
  if CanonPath.isRoot path then
    match root self with
    | Some (Symlink target) => Ok target
    | None =>
        Throw (FileNotFound
                 ("path '" +:+ SourceAccessor_showPath (displayPrefix self) path +:+ "' does not exist"))
    end
  else
    Throw (FileNotFound
             ("path '" +:+ SourceAccessor_showPath (displayPrefix self) path +:+ "' does not exist")).

End MemorySourceAccessor.

(** The local class of [makeFSSourceAccessor]. *)
Module SymlinkSourceAccessor.

Record t := mk {
  memory : MemorySourceAccessor.t;
  trackLastModified : bool;
  mtime : Z
}.

Definition new (target : string) (rootPath : CanonPath.t) (trackLastModified : bool) (mtime : Z) : t :=
  {| memory :=
       MemorySourceAccessor.setPathDisplay (CanonPath.abs rootPath)
         (MemorySourceAccessor.createSymlink CanonPath.root target MemorySourceAccessor.empty);
     trackLastModified := trackLastModified;
     mtime := mtime |}.

Definition getLastModified (self : t) : option Z :=
  if trackLastModified self then Some (mtime self) else None.

Definition showPath (self : t) (path : CanonPath.t) : string :=
  if CanonPath.isRoot path then MemorySourceAccessor.displayPrefix (memory self)
  else SourceAccessor_showPath (MemorySourceAccessor.displayPrefix (memory self)) path.

Definition maybeLstat (self : t) (path : CanonPath.t) : option Stat :=
  MemorySourceAccessor.maybeLstat (memory self) path.

Definition readLink (self : t) (path : CanonPath.t) : Outcome string :=
  MemorySourceAccessor.readLink (memory self) path.

End SymlinkSourceAccessor.

(** ** The root-selection entry point *)

Section EntryPoint.
Context `{Posix}.

(** The accessor variants a [ref<SourceAccessor>] from the entry point points to. *)
Inductive SourceAccessor :=
| DirectoryAccessor (a : UnixDirectorySourceAccessor.t)
| FileAccessor (a : UnixFileSourceAccessor.t)
| MemoryAccessor (a : MemorySourceAccessor.t)
| SymlinkAccessor (a : SymlinkSourceAccessor.t).

(** Modelled from the spec: the always-empty fallback accessor
    (makeEmptySourceAccessor is not among the sources). *)
Definition makeEmptySourceAccessor : SourceAccessor :=
  MemoryAccessor MemorySourceAccessor.empty.

(** The function-local [static auto rootFS]: absent until first use. *)
Definition Process : Type := option UnixDirectorySourceAccessor.t.

Definition fd_of (r : Errno + Descriptor) : Descriptor :=
  match r with
  | inr fd => fd
  | inl _ => INVALID_DESCRIPTOR
  end.

Definition getFSSourceAccessor : M Process SourceAccessor :=
  rootFS <- get ;;
  match rootFS with
  | Some a =>
      modify (fun _ => Some (UnixDirectorySourceAccessor.set_displayPrefix "" a)) ;;;
      ret (DirectoryAccessor (UnixDirectorySourceAccessor.set_displayPrefix "" a))
  | None =>
      r <- sys_open "/" (Z.lor Fcntl.O_RDONLY (Z.lor Fcntl.O_DIRECTORY Fcntl.O_CLOEXEC)) ;;
      let a := UnixDirectorySourceAccessor.set_displayPrefix ""
                 (UnixDirectorySourceAccessor.new (fd_of r) CanonPath.root false) in
      modify (fun _ => Some a) ;;;
      ret (DirectoryAccessor a)
  end.

(** [root = None] is the empty path; [Some p] is an absolute path in canonical form. *)
Definition makeFSSourceAccessor (root : option CanonPath.t) (trackLastModified : bool)
  : M Process SourceAccessor :=
  match root with
  | None => getFSSourceAccessor
  | Some rootPath =>
      if CanonPath.isRoot rootPath then getFSSourceAccessor
      else
        r <- sys_open (CanonPath.abs rootPath)
               (Z.lor Fcntl.O_RDONLY (Z.lor Fcntl.O_CLOEXEC Fcntl.O_NOFOLLOW)) ;;
        match r with
        | inl e =>
            let makeDummySourceAccessor :=
              MemoryAccessor
                (MemorySourceAccessor.setPathDisplay (CanonPath.abs rootPath)
                   MemorySourceAccessor.empty) in
            if Errno_eqb e ELOOP then
              match CanonPath.parent rootPath, CanonPath.baseName rootPath with
              | Some parent, Some name =>
                  p <- sys_open (CanonPath.abs parent)
                         (Z.lor Fcntl.O_RDONLY (Z.lor Fcntl.O_DIRECTORY Fcntl.O_CLOEXEC)) ;;
                  match p with
                  | inl _ => ret makeDummySourceAccessor
                  | inr parentFd =>
                      st <- sys_fstatat parentFd name Fcntl.AT_SYMLINK_NOFOLLOW ;;
                      match st with
                      | inl _ => ret makeDummySourceAccessor
                      | inr st =>
                          target <- readLinkAt parentFd [name] ;;
                          ret (SymlinkAccessor
                                 (SymlinkSourceAccessor.new target rootPath trackLastModified
                                    (st_mtime st)))
                      end
                  end
              | _, _ => throw BadOptionalAccess
              end
            else ret makeDummySourceAccessor
        | inr fd =>
            st <- sys_fstat fd ;;
            match st with
            | inl e => throw (SysError (Some e) ("statting '" +:+ CanonPath.abs rootPath +:+ "'"))
            | inr st =>
                if StatMode.S_ISDIR (st_mode st)
                then ret (DirectoryAccessor
                            (UnixDirectorySourceAccessor.new fd rootPath trackLastModified))
                else if StatMode.S_ISREG (st_mode st)
                then ret (FileAccessor
                            (UnixFileSourceAccessor.new fd rootPath trackLastModified (Some st)))
                else ret makeEmptySourceAccessor
            end
        end
  end.

End EntryPoint.

(** ** A filesystem to run the accessors on

    A static directory tree.  A descriptor is the symlink-free location (the
    component sequence from the real root) of the entry it was opened on; the
    system calls below follow POSIX on that tree.  Nothing in the tree is
    hidden from the caller: failures come from the shape of the tree only. *)

Module TreeFS.

Inductive Platform := Linux | Darwin.

Inductive SpecialKind := CharDevice | BlockDevice | Fifo | Socket.

#[local] Unset Elimination Schemes.
Inductive node :=
| Reg (executable : bool) (mtime : Z) (data : list Byte.byte)
| Dir (mtime : Z) (entries : list (string * node))
| Lnk (mtime : Z) (target : string)
| Special (kind : SpecialKind) (mtime : Z).
#[local] Set Elimination Schemes.

Definition is_dot (name : string) : bool :=
  String.eqb name "" || String.eqb name "." || String.eqb name "..".

(** The entry of that name in a directory; "." and ".." are never stored. *)
Fixpoint child (entries : list (string * node)) (name : string) : option node :=
  match entries with
  | [] => None
  | (n, x) :: rest =>
      if is_dot n then child rest name
      else if String.eqb n name then Some x else child rest name
  end.

Fixpoint node_at (n : node) (loc : list string) : option node :=
  match loc with
  | [] => Some n
  | c :: rest =>
      match n with
      | Dir _ entries =>
          match child entries c with
          | Some n' => node_at n' rest
          | None => None
          end
      | _ => None
      end
  end.

Definition node_mtime (n : node) : Z :=
  match n with
  | Reg _ m _ | Dir m _ | Lnk m _ | Special _ m => m
  end.

Definition node_stat (n : node) : posix_stat :=
  match n with
  | Reg x m data =>
      {| st_mode := Z.lor StatMode.S_IFREG (if x then 0x1ED else 0x1A4);
         st_size := Z.of_nat (length data); st_mtime := m |}
  | Dir m _ => {| st_mode := Z.lor StatMode.S_IFDIR 0x1ED; st_size := 4096; st_mtime := m |}
  | Lnk m target =>
      {| st_mode := Z.lor StatMode.S_IFLNK 0x1FF;
         st_size := Z.of_nat (String.length target); st_mtime := m |}
  | Special k m =>
      {| st_mode :=
           Z.lor match k with
                 | CharDevice => StatMode.S_IFCHR
                 | BlockDevice => StatMode.S_IFBLK
                 | Fifo => StatMode.S_IFIFO
                 | Socket => StatMode.S_IFSOCK
                 end 0x1A4;
         st_size := 0; st_mtime := m |}
  end.

Definition node_d_type (n : node) : Z :=
  match n with
  | Reg _ _ _ => Dirent.DT_REG
  | Dir _ _ => Dirent.DT_DIR
  | Lnk _ _ => Dirent.DT_LNK
  | Special CharDevice _ => Dirent.DT_CHR
  | Special BlockDevice _ => Dirent.DT_BLK
  | Special Fifo _ => Dirent.DT_FIFO
  | Special Socket _ => Dirent.DT_SOCK
  end.

(** The components of a path string, split at the slashes. *)
Fixpoint split_slash (word : string) (s : string) : list string :=
  match s with
  | EmptyString => [word]
  | String c rest =>
      if Ascii.eqb c "/"%char then word :: split_slash "" rest
      else split_slash (word +:+ String c EmptyString) rest
  end.

Definition is_absolute (s : string) : bool :=
  match s with
  | String c _ => Ascii.eqb c "/"%char
  | EmptyString => false
  end.

Section World.
Variable platform : Platform.
Variable world : node.

(** A descriptor open on a directory of the tree. *)
Definition is_directory (fd : option (list string)) : Prop :=
  exists loc m entries, fd = Some loc /\ node_at world loc = Some (Dir m entries).

(** What [O_NOFOLLOW] reports for a trailing symlink. *)
Definition nofollow_errno (flags : Z) : Errno :=
  if Fcntl.has flags Fcntl.O_DIRECTORY
  then match platform with Linux => ENOTDIR | Darwin => ELOOP end
  else ELOOP.

(** Opening the entry [n] found at [loc], once the name is resolved. *)
Definition open_entry (loc : list string) (n : node) (flags : Z) : Errno + option (list string) :=
  match n with
  | Dir _ _ => inr (Some loc)
  | Lnk _ _ => inl (nofollow_errno flags)
  | _ => if Fcntl.has flags Fcntl.O_DIRECTORY then inl ENOTDIR else inr (Some loc)
  end.

(** Path resolution from the directory at [cur].  [steps] bounds the length of
    the walk and [links] the number of symlinks followed. *)
Fixpoint namei (steps links : nat) (cur : list string) (components : list string) (flags : Z)
  : Errno + option (list string) :=
  match steps with
  | O => inl ENAMETOOLONG
  | S steps' =>
      match node_at world cur with
      | Some (Dir _ entries) =>
          match components with
          | [] => inr (Some cur)
          | c :: rest =>
              match child entries c with
              | Some (Lnk m target) =>
                  if match rest with [] => Fcntl.has flags Fcntl.O_NOFOLLOW | _ => false end
                  then inl (nofollow_errno flags)
                  else
                    match links with
                    | O => inl ELOOP
                    | S links' =>
                        namei steps' links' (if is_absolute target then [] else cur)
                          (split_slash "" target ++ rest) flags
                    end
              | Some (Dir _ _) => namei steps' links (cur ++ [c]) rest flags
              | Some n =>
                  match rest with
                  | [] => open_entry (cur ++ [c]) n flags
                  | _ => inl ENOTDIR
                  end
              | None =>
                  if String.eqb c "" || String.eqb c "." then namei steps' links cur rest flags
                  else if String.eqb c ".." then namei steps' links (removelast cur) rest flags
                  else inl ENOENT
              end
          end
      | Some _ => inl ENOTDIR
      | None => inl ENOENT
      end
  end.

Definition tree_open (path : string) (flags : Z) : Errno + option (list string) :=
  namei 4096 40 [] (split_slash "" path) flags.

(** [openat] with a single component as its name, which is all the accessors pass. *)
Definition tree_openat (dirFd : option (list string)) (name : string) (flags : Z)
  : Errno + option (list string) :=
  match dirFd with
  | None => inl EBADF
  | Some loc =>
      match node_at world loc with
      | Some (Dir _ entries) =>
          match child entries name with
          | Some (Lnk m target) =>
              if Fcntl.has flags Fcntl.O_NOFOLLOW then inl (nofollow_errno flags)
              else namei 4096 40 loc [name] flags
          | Some n => open_entry (loc ++ [name]) n flags
          | None =>
              if String.eqb name "." then inr (Some loc)
              else if String.eqb name ".." then inr (Some (removelast loc))
              else inl ENOENT
          end
      | Some _ => inl ENOTDIR
      | None => inl EBADF
      end
  end.

Definition tree_fstat (fd : option (list string)) : Errno + posix_stat :=
  match fd with
  | None => inl EBADF
  | Some loc =>
      match node_at world loc with
      | Some n => inr (node_stat n)
      | None => inl EBADF
      end
  end.

Definition tree_fstatat (dirFd : option (list string)) (name : string) (flags : Z)
  : Errno + posix_stat :=
  match dirFd with
  | None => inl EBADF
  | Some loc =>
      match node_at world loc with
      | Some (Dir m entries) =>
          match child entries name with
          | Some (Lnk lm target) =>
              if Fcntl.has flags Fcntl.AT_SYMLINK_NOFOLLOW then inr (node_stat (Lnk lm target))
              else
                match namei 4096 40 loc [name] Fcntl.O_RDONLY with
                | inr fd => tree_fstat fd
                | inl e => inl e
                end
          | Some n => inr (node_stat n)
          | None =>
              if String.eqb name "." then inr (node_stat (Dir m entries))
              else if String.eqb name ".." then tree_fstat (Some (removelast loc))
              else inl ENOENT
          end
      | Some _ => inl ENOTDIR
      | None => inl EBADF
      end
  end.

Definition tree_readlinkat (dirFd : option (list string)) (name : string) : Errno + string :=
  match dirFd with
  | None => inl EBADF
  | Some loc =>
      match node_at world loc with
      | Some (Dir _ entries) =>
          match child entries name with
          | Some (Lnk _ target) => inr target
          | Some _ => inl EINVAL
          | None => if String.eqb name "." || String.eqb name ".." then inl EINVAL else inl ENOENT
          end
      | Some _ => inl ENOTDIR
      | None => inl EBADF
      end
  end.

Definition tree_fdopendir (fd : option (list string)) : Errno + option (list string) :=
  match fd with
  | None => inl EBADF
  | Some loc =>
      match node_at world loc with
      | Some (Dir _ _) => inr (Some loc)
      | Some _ => inl ENOTDIR
      | None => inl EBADF
      end
  end.

Definition stored (entries : list (string * node)) : list (string * node) :=
  filter (fun e => negb (is_dot (fst e))) entries.

Definition tree_readdir (dir : option (list string)) : list Dirent.t * option Errno :=
  match dir with
  | None => ([], Some EBADF)
  | Some loc =>
      match node_at world loc with
      | Some (Dir _ entries) =>
          (Dirent.mk "." Dirent.DT_DIR :: Dirent.mk ".." Dirent.DT_DIR ::
             map (fun e => Dirent.mk (fst e) (node_d_type (snd e))) (stored entries),
           None)
      | _ => ([], Some EBADF)
      end
  end.

Definition tree_pread (n : nat) (fd : option (list string)) (count offset : Z)
  : Errno + list Byte.byte :=
  match fd with
  | None => inl EBADF
  | Some loc =>
      match node_at world loc with
      | Some (Reg _ _ data) => inr (firstn (Z.to_nat count) (skipn (Z.to_nat offset) data))
      | Some (Dir _ _) => inl EISDIR
      | Some _ => inl EINVAL
      | None => inl EBADF
      end
  end.

#[local] Instance posix : Posix := {|
  Descriptor := option (list string);
  INVALID_DESCRIPTOR := None;
  fd_valid := fun fd => match fd with Some _ => true | None => false end;
  os_open := tree_open;
  os_openat := tree_openat;
  os_fstat := tree_fstat;
  os_fstatat := tree_fstatat;
  os_readlinkat := tree_readlinkat;
  os_fdopendir := tree_fdopendir;
  os_readdir := tree_readdir;
  os_pread := tree_pread;
  os_interrupted := fun _ => false;
  invalid_descriptor := eq_refl
|}.

End World.
End TreeFS.

(** ** The same system with chosen calls made to fail

    A status query the kernel refuses, a path the caller may not open, a file
    cut short after it was measured: each is laid over any [Posix]. *)

Module Faults.

Record t := mk {
  fstat_errno : option Errno;            (* every [fstat] fails with it *)
  fstatat_errno : option Errno;          (* every [fstatat] fails with it *)
  open_errno : string -> option Errno;   (* [open] of that path name fails with it *)
  truncated_to : option Z                (* no byte at or beyond that offset can be read *)
}.

Definition over (P : Posix) (f : t) : Posix := {|
  Descriptor := @Descriptor P;
  INVALID_DESCRIPTOR := @INVALID_DESCRIPTOR P;
  fd_valid := @fd_valid P;
  os_open := fun path flags =>
    match open_errno f path with
    | Some e => inl e
    | None => @os_open P path flags
    end;
  os_openat := @os_openat P;
  os_fstat := fun fd =>
    match fstat_errno f with
    | Some e => inl e
    | None => @os_fstat P fd
    end;
  os_fstatat := fun dirFd name flags =>
    match fstatat_errno f with
    | Some e => inl e
    | None => @os_fstatat P dirFd name flags
    end;
  os_readlinkat := @os_readlinkat P;
  os_fdopendir := @os_fdopendir P;
  os_readdir := @os_readdir P;
  os_pread := fun n fd count offset =>
    match truncated_to f, @os_pread P n fd count offset with
    | Some len, inr data => inr (firstn (Z.to_nat (len - offset)) data)
    | _, r => r
    end;
  os_interrupted := @os_interrupted P;
  invalid_descriptor := @invalid_descriptor P
|}.

End Faults.

(** ** The same system with its first positioned reads interrupted *)

Module Interrupts.

(** The positioned reads numbered below [n] fail with EINTR. *)
Definition over (P : Posix) (n : nat) : Posix := {|
  Descriptor := @Descriptor P;
  INVALID_DESCRIPTOR := @INVALID_DESCRIPTOR P;
  fd_valid := @fd_valid P;
  os_open := @os_open P;
  os_openat := @os_openat P;
  os_fstat := @os_fstat P;
  os_fstatat := @os_fstatat P;
  os_readlinkat := @os_readlinkat P;
  os_fdopendir := @os_fdopendir P;
  os_readdir := @os_readdir P;
  os_pread := fun k fd count offset =>
    if (k <? n)%nat then inl EINTR else @os_pread P k fd count offset;
  os_interrupted := @os_interrupted P;
  invalid_descriptor := @invalid_descriptor P
|}.

End Interrupts.

(** ** Reading a trace *)

Section Traces.
Context `{Posix}.

Definition sunk_of (ev : Event) : list Byte.byte :=
  match ev with EvSink data => data | _ => [] end.

(** The bytes handed to the sink, in order. *)
Definition sunk (tr : list Event) : list Byte.byte := List.concat (map sunk_of tr).

Definition announced_of (ev : Event) : list Z :=
  match ev with EvSizeCallback n => [n] | _ => [] end.

(** The sizes passed to the size callback, in order. *)
Definition announced (tr : list Event) : list Z := List.concat (map announced_of tr).

Definition is_status_query (ev : Event) : bool :=
  match ev with EvFstat _ | EvFstatat _ _ _ => true | _ => false end.

(** How many status queries a trace holds. *)
Definition status_queries (tr : list Event) : nat :=
  length (List.filter is_status_query tr).

(** A call by name that does not follow a symlink at that name. *)
Definition nofollow_call (ev : Event) : bool :=
  match ev with
  | EvOpenat _ _ flags => Fcntl.has flags Fcntl.O_NOFOLLOW
  | EvFstatat _ _ flags => Fcntl.has flags Fcntl.AT_SYMLINK_NOFOLLOW
  | _ => false
  end.

(** The modification time a status query of the trace was answered with. *)
Definition stamp_of (ev : Event) : list Z :=
  match ev with
  | EvFstat fd =>
      match os_fstat fd with inr st => [st_mtime st] | inl _ => [] end
  | EvFstatat dirFd name flags =>
      match os_fstatat dirFd name flags with inr st => [st_mtime st] | inl _ => [] end
  | _ => []
  end.

(** The modification times the status queries of a trace observed, in order. *)
Definition stamps (tr : list Event) : list Z := List.concat (map stamp_of tr).

(** Whether a call resolves no name at all, or resolves one without following
    a symlink found at it.  [open] by path name follows the symlinks on its way. *)
Definition follows_no_symlink (ev : Event) : bool :=
  match ev with
  | EvOpen _ _ => false
  | EvOpenat _ _ flags => Fcntl.has flags Fcntl.O_NOFOLLOW
  | EvFstatat _ _ flags => Fcntl.has flags Fcntl.AT_SYMLINK_NOFOLLOW
  | _ => true
  end.

(** Whether the positioned reads of a trace are laid end to end from [offset]:
    each asks for at least one byte and at most [limit] bytes, at the offset
    the bytes handed to the sink so far have reached. *)
Fixpoint reads_positioned (limit offset : Z) (tr : list Event) : bool :=
  match tr with
  | [] => true
  | EvPread _ count off :: rest =>
      (off =? offset) && (0 <? count) && (count <=? limit) && reads_positioned limit offset rest
  | EvSink data :: rest => reads_positioned limit (offset + Z.of_nat (length data)) rest
  | _ :: rest => reads_positioned limit offset rest
  end.

(** A run with events put before its trace. *)
Definition prepend {S A} (tr : list Event) (r : Run S A) : Run S A :=
  mkRun (outcome r) (final r) (tr ++ trace r).

End Traces.

(** ** Calls made on one instance, one after the other *)

Module FileSession.
Section WithPosix.
Context `{Posix}.

Inductive Op :=
| MaybeLstat (path : CanonPath.t)
| ReadFile (fuel : nat) (path : CanonPath.t)
| ReadDirectory (path : CanonPath.t)
| ReadLink (path : CanonPath.t).

Definition perform (op : Op) : M UnixFileSourceAccessor.t unit :=
  match op with
  | MaybeLstat path => UnixFileSourceAccessor.maybeLstat path ;;; ret tt
  | ReadFile fuel path => UnixFileSourceAccessor.readFile fuel path
  | ReadDirectory path => UnixFileSourceAccessor.readDirectory path
  | ReadLink path => UnixFileSourceAccessor.readLink path ;;; ret tt
  end.

(** The instance and the trace after the calls; a call that throws is caught
    by its caller and the next call is made on the instance as it was left. *)
Fixpoint history (ops : list Op) (a : UnixFileSourceAccessor.t)
  : UnixFileSourceAccessor.t * list Event :=
  match ops with
  | [] => (a, [])
  | op :: rest =>
      let r := perform op a in
      let h := history rest (final r) in
      (fst h, trace r ++ snd h)
  end.

End WithPosix.
End FileSession.

Module DirSession.
Section WithPosix.
Context `{Posix}.

Inductive Op :=
| MaybeLstat (path : CanonPath.t)
| ReadFile (fuel : nat) (path : CanonPath.t)
| ReadDirectory (path : CanonPath.t)
| ReadLink (path : CanonPath.t).

(** A call, returning whether it delivered an entry's status or content. *)
Definition perform (op : Op) : M UnixDirectorySourceAccessor.t bool :=
  match op with
  | MaybeLstat path =>
      o <- UnixDirectorySourceAccessor.maybeLstat path ;;
      ret (match o with Some _ => true | None => false end)
  | ReadFile fuel path => UnixDirectorySourceAccessor.readFile fuel path ;;; ret true
  | ReadDirectory path => UnixDirectorySourceAccessor.readDirectory path ;;; ret false
  | ReadLink path => UnixDirectorySourceAccessor.readLink path ;;; ret false
  end.

(** The modification times of the entries a call accessed: those its status
    queries observed, when it delivered the entry. *)
Definition accessed (r : Run UnixDirectorySourceAccessor.t bool) : list Z :=
  match outcome r with
  | Ok true => stamps (trace r)
  | _ => []
  end.

(** The instance after the calls, and the modification times of the entries
    they accessed; a call that throws is caught by its caller and the next
    call is made on the instance as it was left. *)
Fixpoint history (ops : list Op) (a : UnixDirectorySourceAccessor.t)
  : UnixDirectorySourceAccessor.t * list Z :=
  match ops with
  | [] => (a, [])
  | op :: rest =>
      let r := perform op a in
      let h := history rest (final r) in
      (fst h, accessed r ++ snd h)
  end.

End WithPosix.
End DirSession.

(** ** The directory of the end-to-end scenario

    [/a] holds the file [b] (the four bytes "data"), the symlink [c -> /etc],
    and a subdirectory [d] with an executable [e] and a file [old] last
    modified a day before the epoch; [/etc/passwd] is a file outside [/a]. *)

Module Scenario.
Import TreeFS.

Definition data : list Byte.byte := [Byte.x64; Byte.x61; Byte.x74; Byte.x61].

Definition world : node :=
  Dir 1 [("a", Dir 5 [("b", Reg false 7 data);
                      ("c", Lnk 9 "/etc");
                      ("d", Dir 3 [("e", Reg true 11 []); ("old", Reg false (-86400) [])])]);
         ("etc", Dir 2 [("passwd", Reg false 4 [Byte.x72])])].

Definition linux : Posix := TreeFS.posix Linux world.

Definition no_faults : Faults.t :=
  {| Faults.fstat_errno := None; Faults.fstatat_errno := None;
     Faults.open_errno := fun _ => None; Faults.truncated_to := None |}.

(** [fstat] fails with an I/O error. *)
Definition failing_fstat : Posix :=
  Faults.over linux
    {| Faults.fstat_errno := Some EIO; Faults.fstatat_errno := None;
       Faults.open_errno := fun _ => None; Faults.truncated_to := None |}.

(** The caller may not search the directory it holds open: [fstatat] is refused. *)
Definition unsearchable : Posix :=
  Faults.over linux
    {| Faults.fstat_errno := None; Faults.fstatat_errno := Some EACCES;
       Faults.open_errno := fun _ => None; Faults.truncated_to := None |}.

(** The caller may not read the directory [/a]. *)
Definition unreadable_a : Posix :=
  Faults.over linux
    {| Faults.fstat_errno := None; Faults.fstatat_errno := None;
       Faults.open_errno := fun path => if String.eqb path "/a" then Some EACCES else None;
       Faults.truncated_to := None |}.


(** The first two positioned reads of a call are interrupted. *)
Definition interrupted : Posix := Interrupts.over linux 2.

(** The directory accessor anchored at [/a]. *)
Definition dirAccessor (P : Posix) (fd : @Descriptor P) (trackLastModified : bool)
  : @UnixDirectorySourceAccessor.t P :=
  @UnixDirectorySourceAccessor.new P fd ["a"] trackLastModified.

(** The file accessor on [/a/b], without a prefetched record. *)
Definition fileAccessor (P : Posix) (fd : @Descriptor P) (trackLastModified : bool)
  : @UnixFileSourceAccessor.t P :=
  @UnixFileSourceAccessor.new P fd ["a"; "b"] trackLastModified None.

End Scenario.

(** * Facts *)

Section TraceFacts.
Context `{Posix}.

Lemma sunk_app tr1 tr2 : sunk (tr1 ++ tr2) = sunk tr1 ++ sunk tr2.
Proof. unfold sunk. now rewrite map_app, concat_app. Qed.

Lemma announced_app tr1 tr2 : announced (tr1 ++ tr2) = announced tr1 ++ announced tr2.
Proof. unfold announced. now rewrite map_app, concat_app. Qed.

Lemma status_queries_app tr1 tr2 :
  status_queries (tr1 ++ tr2) = (status_queries tr1 + status_queries tr2)%nat.
Proof. unfold status_queries. now rewrite List.filter_app, length_app. Qed.

Lemma bind_get {St A} (k : St -> M St A) (s : St) : bind get k s = k s s.
Proof. unfold bind, get. cbn [outcome final trace app]. now destruct (k s s). Qed.

Lemma bind_eq {St A B} (m : M St A) (k : A -> M St B) (s : St) :
  bind m k s =
    match outcome (m s) with
    | Ok x => prepend (trace (m s)) (k x (final (m s)))
    | Throw e => mkRun (Throw e) (final (m s)) (trace (m s))
    | OutOfFuel => mkRun OutOfFuel (final (m s)) (trace (m s))
    end.
Proof. reflexivity. Qed.

End TraceFacts.

Lemma to_off_t_range z : - 2 ^ 63 <= to_off_t z < 2 ^ 63.
Proof.
  unfold to_off_t. cbv zeta.
  pose proof (Z.mod_pos_bound z (2 ^ 64) ltac:(lia)) as Hb.
  destruct (Z.ltb_spec (z mod 2 ^ 64) (2 ^ 63)); lia.
Qed.

Lemma to_uint64_nonneg z : 0 <= z < 2 ^ 63 -> to_uint64 z = z.
Proof. intros Hz. unfold to_uint64. apply Z.mod_small. lia. Qed.


(** ** The single-file accessor *)

Module FileFacts.
Import UnixFileSourceAccessor.
Section WithPosix.
Context `{Posix}.

Lemma maybeLstat_nonroot_eq (a : t) c p :
  maybeLstat (c :: p) a = mkRun (Ok None) a [].
Proof. reflexivity. Qed.

Lemma maybeLstat_cached (a : t) st :
  cachedStat a = Some st ->
  maybeLstat [] a = mkRun (Ok (Some (posixStatToAccessorStat st))) a [].
Proof.
  intros Hc. unfold maybeLstat, bind, get, ret. simpl. rewrite Hc. reflexivity.
Qed.

Lemma maybeLstat_fresh (a : t) st :
  cachedStat a = None -> os_fstat (fd a) = inr st ->
  maybeLstat [] a =
    mkRun (Ok (Some (posixStatToAccessorStat st)))
      (set_base (Base.updateMtime (base a) (st_mtime st)) (set_cachedStat st a))
      [EvFstat (fd a)].
Proof.
  intros Hc Hs. unfold maybeLstat, bind, get, ret, sys_fstat, modify, updateMtime. simpl.
  rewrite Hc. simpl. rewrite Hs. reflexivity.
Qed.

Lemma maybeLstat_failed (a : t) e :
  cachedStat a = None -> os_fstat (fd a) = inl e ->
  maybeLstat [] a =
    mkRun (Throw (SysError (Some e) ("statting file '" +:+ displayPrefix a +:+ "'"))) a
      [EvFstat (fd a)].
Proof.
  intros Hc Hs. unfold maybeLstat, bind, get, throw, sys_fstat. simpl.
  rewrite Hc. simpl. rewrite Hs. reflexivity.
Qed.

(** One turn of the read loop. *)
Lemma readLoop_step fuel n path left offset (a : t) :
  readLoop (S fuel) n path left offset a =
    if left =? 0 then mkRun (Ok tt) a []
    else if os_interrupted n then mkRun (Throw Interrupted) a []
    else
      let count := Z.min (to_uint64 left) bufSize in
      match os_pread n (fd a) count offset with
      | inl e =>
          if Errno_eqb e EINTR
          then prepend [EvPread (fd a) count offset] (readLoop fuel (S n) path left offset a)
          else mkRun (Throw (SysError (Some e) ("reading from file '" +:+ showPath a path +:+ "'")))
                 a [EvPread (fd a) count offset]
      | inr data =>
          let got := firstn (Z.to_nat count) data in
          let rd := Z.of_nat (length got) in
          if rd =? 0
          then mkRun (Throw (SysError None
                               ("unexpected end-of-file reading '" +:+ showPath a path +:+ "'")))
                 a [EvPread (fd a) count offset]
          else if negb (rd <=? left)
          then mkRun (Throw AssertionFailure) a [EvPread (fd a) count offset]
          else prepend [EvPread (fd a) count offset; EvSink got]
                 (readLoop fuel (S n) path (left - rd) (offset + rd) a)
      end.
Proof.
  simpl. destruct (left =? 0); [reflexivity|].
  unfold bind, checkInterrupt, get, sys_pread, emit, throw, ret, prepend. simpl.
  destruct (os_interrupted n); simpl; [reflexivity|].
  destruct (os_pread n (fd a) _ offset) as [e|data]; simpl.
  - destruct (Errno_eqb e EINTR); reflexivity.
  - destruct (Z.of_nat (length (firstn _ data)) =? 0); simpl; [reflexivity|].
    destruct (Z.of_nat (length (firstn _ data)) <=? left); reflexivity.
Qed.

(** The read loop leaves the accessor as it found it. *)
Lemma readLoop_final fuel : forall n path left offset (a : t),
  final (readLoop fuel n path left offset a) = a.
Proof.
  induction fuel as [|fuel IH]; intros n path left offset a.
  - simpl. destruct (left =? 0); reflexivity.
  - rewrite readLoop_step. cbv zeta.
    repeat match goal with
           | |- context [if ?b then _ else _] => destruct b
           | |- context [match ?x with inl _ => _ | inr _ => _ end] => destruct x
           end; simpl; auto.
Qed.

(** What the loop delivers: it announces nothing, sinks at most [left] bytes,
    and returns only when it has sunk exactly [left]. *)
Lemma readLoop_delivers fuel : forall n path left offset (a : t),
  let r := readLoop fuel n path left offset a in
  announced (trace r) = []
  /\ Z.of_nat (length (sunk (trace r))) <= Z.max 0 left
  /\ (outcome r = Ok tt -> Z.of_nat (length (sunk (trace r))) = left).
Proof.
  induction fuel as [|fuel IH]; intros n path left offset a r; subst r.
  - simpl. destruct (Z.eqb_spec left 0); simpl; repeat split; try lia; discriminate.
  - rewrite readLoop_step. cbv zeta.
    destruct (Z.eqb_spec left 0); [simpl; repeat split; try lia; discriminate|].
    destruct (os_interrupted n); [simpl; repeat split; try lia; discriminate|].
    destruct (os_pread n (fd a) _ offset) as [e|data].
    + destruct (Errno_eqb e EINTR); [|simpl; repeat split; try lia; discriminate].
      specialize (IH (S n) path left offset a). simpl in IH |- *. exact IH.
    + set (got := firstn _ data).
      destruct (Z.eqb_spec (Z.of_nat (length got)) 0);
        [simpl; repeat split; try lia; discriminate|].
      destruct (Z.leb_spec (Z.of_nat (length got)) left); simpl negb; cbv iota;
        [|simpl; repeat split; try lia; discriminate].
      specialize (IH (S n) path (left - Z.of_nat (length got)) (offset + Z.of_nat (length got)) a).
      destruct IH as (IH1 & IH2 & IH3).
      unfold prepend. cbn [trace outcome].
      change ([EvPread (fd a) (Z.min (to_uint64 left) bufSize) offset; EvSink got] ++ ?t)
        with (EvPread (fd a) (Z.min (to_uint64 left) bufSize) offset :: EvSink got :: t).
      unfold sunk, announced in *. cbn [map List.concat sunk_of announced_of app].
      rewrite length_app. repeat split; [exact IH1 | lia | intros Hok; specialize (IH3 Hok); lia].
Qed.


Lemma maybeLstat_root_cases (a : t) :
  (exists st, maybeLstat [] a = mkRun (Ok (Some (posixStatToAccessorStat st))) a []
              /\ cachedStat a = Some st)
  \/ (exists st, maybeLstat [] a =
                  mkRun (Ok (Some (posixStatToAccessorStat st)))
                    (set_base (Base.updateMtime (base a) (st_mtime st)) (set_cachedStat st a))
                    [EvFstat (fd a)]
                /\ cachedStat a = None /\ os_fstat (fd a) = inr st)
  \/ (exists e, maybeLstat [] a =
                  mkRun (Throw (SysError (Some e) ("statting file '" +:+ displayPrefix a +:+ "'")))
                    a [EvFstat (fd a)]
                /\ cachedStat a = None /\ os_fstat (fd a) = inl e).
Proof.
  destruct (cachedStat a) as [st|] eqn:Hc.
  - left. exists st. split; [now apply maybeLstat_cached | reflexivity].
  - destruct (os_fstat (fd a)) as [e|st] eqn:Hs.
    + right; right. exists e. split; [now apply maybeLstat_failed | auto].
    + right; left. exists st. split; [now apply maybeLstat_fresh | auto].
Qed.

(** A root read is the status query followed by the rest of the call. *)
Lemma readFile_root_eq fuel (a : t) :
  exists k : option Stat -> M t unit,
    readFile fuel [] a = bind (maybeLstat []) k a
    /\ forall st a',
         k (Some (posixStatToAccessorStat st)) a' =
           match fileSize (posixStatToAccessorStat st) with
           | Some size =>
               prepend [EvSizeCallback (to_uint64 (to_off_t size))]
                 (readLoop fuel 0 [] (to_off_t size) 0 a')
           | None => mkRun (Throw BadOptionalAccess) a' []
           end.
Proof.
  eexists. split; [reflexivity|]. intros st a'. cbv beta iota.
  destruct (fileSize (posixStatToAccessorStat st)); reflexivity.
Qed.




Lemma readLoop_queries_none fuel : forall n path left offset (a : t),
  List.filter is_status_query (trace (readLoop fuel n path left offset a)) = [].
Proof.
  induction fuel as [|fuel IH]; intros n path left offset a.
  - simpl. destruct (left =? 0); reflexivity.
  - rewrite readLoop_step. cbv zeta.
    repeat match goal with
           | |- context [if ?b then _ else _] => destruct b
           | |- context [match ?x with inl _ => _ | inr _ => _ end] => destruct x
           end; try reflexivity; unfold prepend; cbn [trace];
      rewrite List.filter_app, IH; reflexivity.
Qed.

Lemma readLoop_no_status_query fuel n path left offset (a : t) :
  status_queries (trace (readLoop fuel n path left offset a)) = 0%nat.
Proof. unfold status_queries. now rewrite readLoop_queries_none. Qed.

Lemma readLoop_throws fuel : forall n path left offset (a : t) e,
  outcome (readLoop fuel n path left offset a) = Throw e -> not_symlink_error e.
Proof.
  induction fuel as [|fuel IH]; intros n path left offset a e.
  - simpl. destruct (left =? 0); discriminate.
  - rewrite readLoop_step. cbv zeta.
    repeat match goal with
           | |- context [if ?b then _ else _] => destruct b
           | |- context [match ?x with inl _ => _ | inr _ => _ end] => destruct x
           end; unfold prepend; cbn [outcome]; try discriminate; try apply IH;
      intros [= <-]; exact I.
Qed.

(** A read through the single-file accessor throws no [SymlinkNotAllowed]. *)
Lemma file_readFile_throws fuel path (a : t) e :
  outcome (readFile fuel path a) = Throw e -> not_symlink_error e.
Proof.
  destruct path as [|c p].
  - destruct (readFile_root_eq fuel a) as (k & -> & Hk). unfold bind.
    destruct (maybeLstat_root_cases a) as [(st & -> & _) | [(st & -> & _) | (e' & -> & _)]];
      cbn [outcome final trace].
    + rewrite Hk. destruct (fileSize (posixStatToAccessorStat st)).
      * unfold prepend. cbn [outcome]. apply readLoop_throws.
      * intros [= <-]. exact I.
    + rewrite Hk. destruct (fileSize (posixStatToAccessorStat st)).
      * unfold prepend. cbn [outcome]. apply readLoop_throws.
      * intros [= <-]. exact I.
    + intros [= <-]. exact I.
  - intros [= <-]. exact I.
Qed.

(** A read that returns, through an accessor made without a prefetched record:
    the one status query it made succeeded, and its time is what the accessor
    has seen. *)
Lemma file_readFile_fresh fuel fd_ rootPath_ track :
  let f := readFile fuel [] (new fd_ rootPath_ track None) in
  (status_queries (trace f) <= 1)%nat
  /\ (outcome f = Ok tt ->
      exists st, os_fstat fd_ = inr st
                 /\ List.filter is_status_query (trace f) = [EvFstat fd_]
                 /\ getLastModified (final f) =
                      if track then Some (Z.max 0 (st_mtime st)) else None).
Proof.
  intros f. subst f. set (a := new fd_ rootPath_ track None).
  destruct (readFile_root_eq fuel a) as (k & -> & Hk). unfold bind.
  destruct (maybeLstat_root_cases a) as [(st & E & Hc) | [(st & E & Hc & Hs) | (e' & E & Hc & Hs)]].
  - discriminate Hc.
  - rewrite E. cbn [outcome final trace]. rewrite Hk.
    destruct (fileSize (posixStatToAccessorStat st)).
    + unfold prepend. cbn [outcome final trace]. rewrite readLoop_final.
      unfold status_queries. cbn [app List.filter is_status_query].
      rewrite readLoop_queries_none. split; [cbn; lia|].
      intros _. exists st. split; [exact Hs|]. split; [reflexivity|].
      unfold a, new, getLastModified, Base.getLastModified, Base.updateMtime, Base.init.
      cbn. destruct track; reflexivity.
    + cbn [outcome final trace]. split; [cbn; lia | discriminate].
  - rewrite E. cbn [outcome final trace]. split; [cbn; lia | discriminate].
Qed.

End WithPosix.
End FileFacts.

(** ** Calls in sequence on the single-file accessor *)

Module FileSessionFacts.
Import UnixFileSourceAccessor FileFacts FileSession.
Section WithPosix.
Context `{Posix}.

(** What one call does to the cached record and how many status queries it makes. *)
Lemma perform_effect (op : Op) (a : t) :
  let r := perform op a in
  fd (final r) = fd a
  /\ match cachedStat a with
     | Some st => cachedStat (final r) = Some st /\ status_queries (trace r) = 0%nat
     | None =>
         (cachedStat (final r) = None /\
          (status_queries (trace r) = 0%nat \/
           status_queries (trace r) = 1%nat /\ exists e, os_fstat (fd a) = inl e))
         \/ (exists st, os_fstat (fd a) = inr st /\ cachedStat (final r) = Some st
                        /\ status_queries (trace r) = 1%nat)
     end.
Proof.
  assert (Hstat : forall a : t,
    let r := maybeLstat [] a in
    fd (final r) = fd a
    /\ match cachedStat a with
       | Some st => cachedStat (final r) = Some st /\ status_queries (trace r) = 0%nat
       | None =>
           (cachedStat (final r) = None /\
            (status_queries (trace r) = 0%nat \/
             status_queries (trace r) = 1%nat /\ exists e, os_fstat (fd a) = inl e))
           \/ (exists st, os_fstat (fd a) = inr st /\ cachedStat (final r) = Some st
                          /\ status_queries (trace r) = 1%nat)
       end).
  { intros a0.
    destruct (maybeLstat_root_cases a0) as [(st & E & Hc) | [(st & E & Hc & Hs) | (e & E & Hc & Hs)]];
      cbv zeta; rewrite E, Hc; cbn [final trace]; split; try reflexivity.
    - auto.
    - right. exists st. auto.
    - left. split; [exact Hc|]. right. split; [reflexivity|]. now exists e. }
  intros r. subst r. destruct op as [path | fuel path | path | path].
  - (* maybeLstat *)
    destruct path as [|c p].
    + specialize (Hstat a). cbv zeta in Hstat.
      unfold perform, bind, ret.
      destruct (outcome (maybeLstat [] a)); cbn [final trace outcome];
        rewrite ?app_nil_r; exact Hstat.
    + unfold perform, bind, ret. rewrite maybeLstat_nonroot_eq. cbn [final trace outcome].
      split; [reflexivity|]. destruct (cachedStat a) eqn:Hc; auto.
  - (* readFile *)
    destruct path as [|c p].
    + specialize (Hstat a). cbv zeta in Hstat.
      unfold perform. destruct (readFile_root_eq fuel a) as (k & -> & Hk).
      assert (Hrest : forall st a',
                final (k (Some (posixStatToAccessorStat st)) a') = a'
                /\ status_queries (trace (k (Some (posixStatToAccessorStat st)) a')) = 0%nat).
      { intros st a'. rewrite Hk. destruct (fileSize (posixStatToAccessorStat st)).
        - unfold prepend. cbn [final trace]. rewrite readLoop_final, status_queries_app.
          rewrite readLoop_no_status_query. auto.
        - auto. }
      unfold bind.
      destruct (maybeLstat_root_cases a) as [(st & E & _) | [(st & E & _) | (e & E & _)]];
        rewrite E in *; cbn [final trace outcome] in *; try exact Hstat;
        destruct (Hrest st (final (maybeLstat [] a))) as (R1 & R2);
        rewrite E in R1, R2; cbn [final] in R1, R2;
        rewrite status_queries_app, R1, R2, Nat.add_0_r; exact Hstat.
    + unfold perform, readFile. simpl. split; [reflexivity|].
      destruct (cachedStat a) eqn:Hc; auto.
  - unfold perform, readDirectory, bind, get, throw. simpl. split; [reflexivity|].
    destruct (cachedStat a) eqn:Hc; auto.
  - unfold perform, readLink, bind, get, throw. simpl. split; [reflexivity|].
    destruct (cachedStat a) eqn:Hc; auto.
Qed.

Lemma history_cached (ops : list Op) : forall (a : t) st,
  cachedStat a = Some st ->
  cachedStat (fst (history ops a)) = Some st
  /\ status_queries (snd (history ops a)) = 0%nat.
Proof.
  induction ops as [|op ops IH]; intros a st Hc; cbn [history fst snd]; [auto|].
  pose proof (perform_effect op a) as (_ & Hp). cbv zeta in Hp. rewrite Hc in Hp.
  destruct Hp as (Hc' & Hq). destruct (IH _ _ Hc') as (IH1 & IH2).
  rewrite status_queries_app, Hq, IH2. auto.
Qed.

Lemma history_query_once (ops : list Op) : forall (a : t) st,
  os_fstat (fd a) = inr st ->
  (status_queries (snd (history ops a)) <= 1)%nat.
Proof.
  induction ops as [|op ops IH]; intros a st Hs; cbn [history fst snd]; [cbn; lia|].
  pose proof (perform_effect op a) as (Hfd & Hp). cbv zeta in Hp.
  rewrite status_queries_app.
  destruct (cachedStat a) as [st0|] eqn:Hc.
  - destruct Hp as (Hc' & Hq). destruct (history_cached ops _ _ Hc') as (_ & Hq').
    rewrite Hq, Hq'. lia.
  - destruct Hp as [(Hc' & [Hq | (Hq & e & He)]) | (st1 & Hs1 & Hc' & Hq)].
    + rewrite Hq. apply (IH _ st). now rewrite Hfd.
    + congruence.
    + destruct (history_cached ops _ _ Hc') as (_ & Hq'). rewrite Hq, Hq'. lia.
Qed.

End WithPosix.
End FileSessionFacts.

(** ** Safe resolution, on any system *)

Lemma has_lor_same flags flag : flag <> 0 -> Fcntl.has (Z.lor flags flag) flag = true.
Proof.
  intros Hne. unfold Fcntl.has.
  assert (E : Z.land (Z.lor flags flag) flag = flag).
  { apply Z.bits_inj'. intros n Hn. rewrite Z.land_spec, Z.lor_spec.
    destruct (Z.testbit flags n), (Z.testbit flag n); reflexivity. }
  rewrite E. destruct (Z.eqb_spec flag 0); [contradiction | reflexivity].
Qed.


Section ResolutionFacts.
Context `{Posix}.

(** One step of the descent. *)
Lemma descend_cons {St} dirFd seen c rest name flags (s : St) :
  descend dirFd seen (c :: rest) name flags s =
    match os_openat dirFd c intermediateFlags with
    | inr fd' =>
        prepend [EvOpenat dirFd c intermediateFlags]
          (descend fd' (CanonPath.push seen c) rest name flags s)
    | inl e =>
        if is_symlink_stat (os_fstatat dirFd c Fcntl.AT_SYMLINK_NOFOLLOW)
        then mkRun (Throw (SymlinkNotAllowed (CanonPath.push seen c) None)) s
               [EvOpenat dirFd c intermediateFlags;
                EvFstatat dirFd c Fcntl.AT_SYMLINK_NOFOLLOW]
        else mkRun (Ok (inl e)) s
               [EvOpenat dirFd c intermediateFlags;
                EvFstatat dirFd c Fcntl.AT_SYMLINK_NOFOLLOW]
    end.
Proof.
  cbn [descend]. unfold bind, sys_openat, sys_fstatat, throw, ret, prepend, intermediateFlags.
  cbn [outcome final trace].
  destruct (os_openat dirFd c _) as [e|fd']; [|reflexivity].
  cbn [outcome final trace].
  destruct (is_symlink_stat _); reflexivity.
Qed.

Lemma descend_nil {St} dirFd seen name flags (s : St) :
  descend dirFd seen [] name flags s =
    mkRun (Ok (os_openat dirFd name (Z.lor flags Fcntl.O_NOFOLLOW))) s
      [EvOpenat dirFd name (Z.lor flags Fcntl.O_NOFOLLOW)].
Proof. reflexivity. Qed.

(** The descent leaves the state alone, never runs out of fuel, throws nothing
    but [SymlinkNotAllowed] on a prefix of the components, and queries no
    status on the way to a descriptor. *)
Lemma descend_effect {St} components : forall dirFd seen name flags (s : St),
  let r := descend dirFd seen components name flags s in
  final r = s
  /\ match outcome r with
     | Ok (inr _) => status_queries (trace r) = 0%nat
     | Ok (inl _) => True
     | Throw e =>
         exists k, (k < length components)%nat
                   /\ e = SymlinkNotAllowed (seen ++ firstn (S k) components) None
     | OutOfFuel => False
     end.
Proof.
  induction components as [|c rest IH]; intros dirFd seen name flags s r; subst r.
  - rewrite descend_nil. cbn [final outcome trace]. split; [reflexivity|].
    destruct (os_openat dirFd name _); [exact I | reflexivity].
  - rewrite descend_cons.
    destruct (os_openat dirFd c intermediateFlags) as [e|fd'].
    + destruct (is_symlink_stat _); cbn [final outcome trace]; split; auto.
      exists 0%nat. split; [cbn; lia | reflexivity].
    + unfold prepend. cbn [final outcome trace].
      specialize (IH fd' (CanonPath.push seen c) name flags s). cbv zeta in IH.
      destruct IH as (IH1 & IH2). split; [exact IH1|].
      destruct (outcome (descend fd' (CanonPath.push seen c) rest name flags s)) as [[e|fd'']|e|].
      * exact I.
      * rewrite status_queries_app, IH2. reflexivity.
      * destruct IH2 as (k & Hk & ->). exists (S k). split; [cbn; lia|].
        unfold CanonPath.push. rewrite <- app_assoc. reflexivity.
      * exact IH2.
Qed.

(** Every call the descent makes is by name and follows no symlink. *)
Lemma descend_nofollow {St} components : forall dirFd seen name flags (s : St),
  forallb nofollow_call (trace (descend dirFd seen components name flags s)) = true.
Proof.
  induction components as [|c rest IH]; intros dirFd seen name flags s.
  - rewrite descend_nil. cbn [trace forallb nofollow_call].
    rewrite has_lor_same by discriminate. reflexivity.
  - rewrite descend_cons. destruct (os_openat dirFd c intermediateFlags) as [e|fd'].
    + destruct (is_symlink_stat _); reflexivity.
    + unfold prepend. cbn [trace app forallb nofollow_call]. rewrite IH. reflexivity.
Qed.

Lemma resolve_snoc {St} (parent : CanonPath.t) name dirFd flags (s : St) :
  openFileEnsureBeneathNoSymlinks dirFd (parent ++ [name]) flags s =
    descend dirFd CanonPath.root parent name flags s.
Proof.
  unfold openFileEnsureBeneathNoSymlinks.
  destruct (parent ++ [name]) eqn:E; [destruct parent; discriminate|].
  rewrite <- E, removelast_last, last_last. reflexivity.
Qed.

Lemma resolve_nofollow {St} (path : CanonPath.t) dirFd flags (s : St) :
  forallb nofollow_call (trace (openFileEnsureBeneathNoSymlinks dirFd path flags s)) = true.
Proof.
  destruct path as [|c p]; [reflexivity|]. apply descend_nofollow.
Qed.

(** The same for the whole resolution of a non-root path. *)
Lemma resolve_effect {St} (path : CanonPath.t) dirFd flags (s : St) :
  path <> [] ->
  let r := openFileEnsureBeneathNoSymlinks dirFd path flags s in
  final r = s
  /\ match outcome r with
     | Ok (inr _) => status_queries (trace r) = 0%nat
     | Ok (inl _) => True
     | Throw e =>
         exists q rest, rest <> [] /\ q <> [] /\ path = q ++ rest /\ e = SymlinkNotAllowed q None
     | OutOfFuel => False
     end.
Proof.
  intros Hne r. subst r. destruct path as [|c p]; [contradiction|].
  unfold openFileEnsureBeneathNoSymlinks.
  pose proof (descend_effect (removelast (c :: p)) dirFd CanonPath.root
                (List.last (c :: p) "") flags s) as (Hf & Ho).
  cbv zeta in Ho. split; [exact Hf|].
  destruct (outcome _) as [[e|fd]|e|]; auto.
  destruct Ho as (k & Hk & ->).
  exists (firstn (S k) (removelast (c :: p))),
         (skipn (S k) (removelast (c :: p)) ++ [List.last (c :: p) ""]).
  split; [|split; [|split]].
  - intros Heq. apply app_eq_nil in Heq. destruct Heq as [_ Heq]. discriminate.
  - destruct (removelast (c :: p)); [cbn in Hk; lia | discriminate].
  - rewrite app_assoc, firstn_skipn. apply app_removelast_last. discriminate.
  - reflexivity.
Qed.

End ResolutionFacts.

(** ** Canonical paths taken apart at their last component *)

Lemma CanonPath_isRoot_snoc (parent : CanonPath.t) name :
  CanonPath.isRoot (parent ++ [name]) = false.
Proof. destruct parent; reflexivity. Qed.

Lemma CanonPath_parent_snoc (parent : CanonPath.t) name :
  CanonPath.parent (parent ++ [name]) = Some parent.
Proof.
  unfold CanonPath.parent. destruct (parent ++ [name]) eqn:E.
  - destruct parent; discriminate.
  - rewrite <- E. now rewrite removelast_last.
Qed.

Lemma CanonPath_baseName_snoc (parent : CanonPath.t) name :
  CanonPath.baseName (parent ++ [name]) = Some name.
Proof.
  unfold CanonPath.baseName. destruct (parent ++ [name]) eqn:E.
  - destruct parent; discriminate.
  - rewrite <- E. now rewrite last_last.
Qed.

Lemma CanonPath_snoc_inv (path : CanonPath.t) :
  path <> [] -> exists parent name, path = parent ++ [name].
Proof.
  intros Hne. exists (removelast path), (List.last path ""). now apply app_removelast_last.
Qed.

(** ** The directory accessor, on any system *)

Module DirFacts.
Import UnixDirectorySourceAccessor.
Section WithPosix.
Context `{Posix}.

Lemma openParent_root_parent name (a : t) :
  openParent [name] a = mkRun (Ok (fd a)) a [].
Proof. reflexivity. Qed.

(** [openParent] of a path whose parent is not the root, from the resolution of the parent. *)
Lemma openParent_eq c parent name (a : t) :
  let h := openFileEnsureBeneathNoSymlinks (fd a) (c :: parent) directoryFlags a in
  openParent ((c :: parent) ++ [name]) a =
    match outcome h with
    | Ok (inr parentFd) => mkRun (Ok parentFd) a (trace h)
    | Ok (inl e) =>
        if Errno_eqb e ELOOP || Errno_eqb e ENOTDIR
        then mkRun (Throw (SymlinkNotAllowed (c :: parent) None)) a (trace h)
        else mkRun (Ok INVALID_DESCRIPTOR) a (trace h)
    | Throw e => mkRun (Throw e) a (trace h)
    | OutOfFuel => mkRun OutOfFuel a (trace h)
    end.
Proof.
  intros h. unfold openParent.
  rewrite CanonPath_isRoot_snoc, CanonPath_parent_snoc.
  change (CanonPath.isRoot (c :: parent)) with false. cbv iota.
  pose proof (resolve_effect (c :: parent) (fd a) directoryFlags a ltac:(discriminate)) as (Hf & _).
  fold h in Hf. unfold bind, get, ret, throw. cbn [outcome final trace app].
  fold h.
  destruct (outcome h) as [[e|parentFd]|e|]; cbn [outcome final trace]; rewrite ?Hf.
  - destruct (Errno_eqb e ELOOP || Errno_eqb e ENOTDIR); cbn [outcome final trace];
      rewrite ?Hf, ?app_nil_r; reflexivity.
  - rewrite app_nil_r. reflexivity.
  - reflexivity.
  - reflexivity.
Qed.

(** A guarded body: what the handler makes of its outcome. *)
Lemma guarded_eq {A} (m : M t A) (a : t) :
  try_catch m rethrowSymlinkNotAllowed a =
    match outcome (m a) with
    | Throw e => mkRun (Throw (rethrown (final (m a)) e)) (final (m a)) (trace (m a))
    | _ => m a
    end.
Proof.
  unfold try_catch, rethrowSymlinkNotAllowed, bind, get, throw.
  destruct (outcome (m a)); cbn [outcome final trace]; rewrite ?app_nil_r; reflexivity.
Qed.

(** [openParent] leaves the accessor alone and throws nothing but
    [SymlinkNotAllowed] on a proper prefix of the path. *)
Lemma openParent_result parent name (a : t) :
  let p := openParent (parent ++ [name]) a in
  final p = a
  /\ match outcome p with
     | Ok _ => True
     | Throw e =>
         exists q rest, q <> [] /\ rest <> [] /\ parent ++ [name] = q ++ rest
                        /\ e = SymlinkNotAllowed q None
     | OutOfFuel => False
     end.
Proof.
  intros p. subst p. destruct parent as [|c parent].
  - cbn [app]. rewrite (openParent_root_parent name a). cbn [final outcome]. auto.
  - pose proof (openParent_eq c parent name a) as E. cbv zeta in E. rewrite E. clear E.
    pose proof (resolve_effect (c :: parent) (fd a) directoryFlags a ltac:(discriminate))
      as (Hf & Ho). cbv zeta in Ho.
    destruct (outcome (openFileEnsureBeneathNoSymlinks _ _ _ _)) as [[e|parentFd]|e|];
      cbn [final outcome]; auto.
    + destruct (Errno_eqb e ELOOP || Errno_eqb e ENOTDIR); cbn [final outcome]; auto.
      split; [reflexivity|]. exists (c :: parent), [name].
      repeat split; try discriminate.
    + split; [reflexivity|]. destruct Ho as (q & rest & Hr & Hq & Hp & ->).
      exists q, (rest ++ [name]). repeat split; auto.
      * intros Hn. apply app_eq_nil in Hn. destruct Hn; discriminate.
      * rewrite Hp, <- app_assoc. reflexivity.
Qed.

Lemma openParent_nofollow parent name (a : t) :
  forallb nofollow_call (trace (openParent (parent ++ [name]) a)) = true.
Proof.
  destruct parent as [|c parent]; [reflexivity|].
  pose proof (openParent_eq c parent name a) as E. cbv zeta in E. rewrite E. clear E.
  pose proof (resolve_nofollow (c :: parent) (fd a) directoryFlags a) as Hn.
  destruct (outcome (openFileEnsureBeneathNoSymlinks _ _ _ _)) as [[e|parentFd]|e|];
    cbn [trace]; try exact Hn.
  destruct (Errno_eqb e ELOOP || Errno_eqb e ENOTDIR); exact Hn.
Qed.

(** [maybeLstat] of a non-root path, from what [openParent] gives. *)
Lemma maybeLstat_child parent name (a : t) :
  let p := openParent (parent ++ [name]) a in
  maybeLstat (parent ++ [name]) a =
    match outcome p with
    | Ok parentFd =>
        if fd_valid parentFd then
          match os_fstatat parentFd name Fcntl.AT_SYMLINK_NOFOLLOW with
          | inr st =>
              mkRun (Ok (Some (posixStatToAccessorStat st)))
                (set_base (Base.updateMtime (base a) (st_mtime st)) a)
                (trace p ++ [EvFstatat parentFd name Fcntl.AT_SYMLINK_NOFOLLOW])
          | inl _ =>
              mkRun (Ok None) a (trace p ++ [EvFstatat parentFd name Fcntl.AT_SYMLINK_NOFOLLOW])
          end
        else mkRun (Ok None) a (trace p)
    | Throw e => mkRun (Throw (rethrown a e)) a (trace p)
    | OutOfFuel => mkRun OutOfFuel a (trace p)
    end.
Proof.
  intros p. pose proof (openParent_result parent name a) as (Hf & _). fold p in Hf.
  unfold maybeLstat, try_catch, bind, get, ret, sys_fstatat, updateMtime, modify.
  rewrite CanonPath_isRoot_snoc, CanonPath_baseName_snoc.
  cbn [outcome final trace app]. fold p.
  destruct (outcome p) as [parentFd|e|]; cbn [outcome final trace]; rewrite ?Hf.
  - destruct (fd_valid parentFd); cbn [negb outcome final trace].
    + destruct (os_fstatat parentFd name Fcntl.AT_SYMLINK_NOFOLLOW);
        cbn [outcome final trace app]; rewrite ?Hf; reflexivity.
    + rewrite app_nil_r. reflexivity.
  - unfold rethrowSymlinkNotAllowed, bind, get, throw.
    cbn [outcome final trace]. rewrite ?app_nil_r. reflexivity.
  - reflexivity.
Qed.

(** [maybeLstat] of the root. *)
Lemma maybeLstat_root (a : t) :
  maybeLstat [] a =
    match os_fstat (fd a) with
    | inr st =>
        mkRun (Ok (Some (posixStatToAccessorStat st)))
          (set_base (Base.updateMtime (base a) (st_mtime st)) a) [EvFstat (fd a)]
    | inl _ => mkRun (Ok None) a [EvFstat (fd a)]
    end.
Proof.
  unfold maybeLstat, try_catch, bind, get, sys_fstat, updateMtime, modify, ret.
  cbn [outcome final trace app CanonPath.isRoot].
  destruct (os_fstat (fd a)); reflexivity.
Qed.

(** [readLink] of a non-root path, from what [openParent] gives. *)
Lemma readLink_child parent name (a : t) :
  let p := openParent (parent ++ [name]) a in
  readLink (parent ++ [name]) a =
    match outcome p with
    | Ok parentFd =>
        if fd_valid parentFd then
          match os_readlinkat parentFd name with
          | inr target => mkRun (Ok target) a (trace p ++ [EvReadlinkat parentFd name])
          | inl e =>
              mkRun (Throw
                       (if Errno_eqb e EINVAL
                        then NotASymlink ("file '" +:+ showPath a (parent ++ [name]) +:+
                                          "' is not a symlink")
                        else SysError (Some e) ("reading symbolic link '" +:+ name +:+ "'")))
                a (trace p ++ [EvReadlinkat parentFd name])
          end
        else
          mkRun (Throw (FileNotFound ("file '" +:+ showPath a (parent ++ [name]) +:+
                                      "' does not exist")))
            a (trace p)
    | Throw e => mkRun (Throw (rethrown a e)) a (trace p)
    | OutOfFuel => mkRun OutOfFuel a (trace p)
    end.
Proof.
  intros p. pose proof (openParent_result parent name a) as (Hf & _). fold p in Hf.
  unfold readLink. rewrite guarded_eq.
  unfold try_catch, bind, get, ret, throw, readLinkAt, sys_readlinkat.
  rewrite CanonPath_isRoot_snoc, CanonPath_baseName_snoc.
  cbn [outcome final trace app]. fold p.
  change (CanonPath.rel [name]) with name.
  destruct (outcome p) as [parentFd|e|]; cbn [outcome final trace]; rewrite ?Hf.
  - destruct (fd_valid parentFd); cbn [negb outcome final trace].
    + destruct (os_readlinkat parentFd name) as [e|target]; cbn [outcome final trace app].
      * destruct e; cbn [outcome final trace app Errno_eqb rethrown]; rewrite ?Hf, ?app_nil_r;
          reflexivity.
      * rewrite ?Hf, ?app_nil_r. reflexivity.
    + rewrite ?app_nil_r. reflexivity.
  - reflexivity.
  - reflexivity.
Qed.

Lemma rethrown_other (a : t) e : not_symlink_error e -> rethrown a e = e.
Proof. destruct e; simpl; intros Hn; try reflexivity. contradiction. Qed.

(** [readFile] of a non-root path, from the resolution of the path and the
    read of the single-file accessor made on the descriptor. *)
Lemma readFile_child fuel c path (a : t) :
  let h := openFileEnsureBeneathNoSymlinks (fd a) (c :: path) fileFlags a in
  readFile fuel (c :: path) a =
    match outcome h with
    | Ok (inr fileFd) =>
        let f := UnixFileSourceAccessor.readFile fuel CanonPath.root
                   (UnixFileSourceAccessor.new fileFd (CanonPath.concat (rootPath a) (c :: path))
                      (Base.trackLastModified (base a)) None) in
        match outcome f with
        | Ok _ =>
            mkRun (Ok tt)
              match UnixFileSourceAccessor.getLastModified (final f) with
              | Some fileMtime =>
                  set_base {| Base.trackLastModified := Base.trackLastModified (base a);
                              Base.mtime := Z.max (Base.mtime (base a)) fileMtime |} a
              | None => a
              end
              (trace h ++ trace f)
        | Throw e => mkRun (Throw e) a (trace h ++ trace f)
        | OutOfFuel => mkRun OutOfFuel a (trace h ++ trace f)
        end
    | Ok (inl e) =>
        mkRun (Throw
                 (if Errno_eqb e ELOOP
                  then NotARegularFile ("'" +:+ showPath a (c :: path) +:+
                                        "' is a symlink, not a regular file")
                  else if Errno_eqb e ENOENT || Errno_eqb e ENOTDIR
                  then FileNotFound ("file '" +:+ showPath a (c :: path) +:+ "' does not exist")
                  else SysError (Some e) ("opening '" +:+ showPath a (c :: path) +:+ "'")))
          a (trace h)
    | Throw e => mkRun (Throw (rethrown a e)) a (trace h)
    | OutOfFuel => mkRun OutOfFuel a (trace h)
    end.
Proof.
  intros h.
  pose proof (resolve_effect (c :: path) (fd a) fileFlags a ltac:(discriminate)) as (Hf & _).
  fold h in Hf.
  unfold readFile. rewrite guarded_eq.
  unfold bind, get, ret, throw, call_on, modify.
  cbn [outcome final trace app CanonPath.isRoot]. fold h.
  destruct (outcome h) as [[e|fileFd]|e|]; cbn [outcome final trace]; rewrite ?Hf.
  - destruct (Errno_eqb e ELOOP); [|destruct (Errno_eqb e ENOENT || Errno_eqb e ENOTDIR)];
      cbn [outcome final trace rethrown]; rewrite ?Hf, ?app_nil_r; reflexivity.
  - set (f := UnixFileSourceAccessor.readFile fuel CanonPath.root _).
    pose proof (FileFacts.file_readFile_throws fuel CanonPath.root _ : forall e,
                  outcome f = Throw e -> not_symlink_error e) as Hthrow.
    destruct (outcome f) as [[]|e|]; cbn [outcome final trace snd]; rewrite ?Hf.
    + destruct (UnixFileSourceAccessor.getLastModified (final f));
        cbn [outcome final trace]; rewrite ?app_nil_r; reflexivity.
    + rewrite (rethrown_other a e (Hthrow e eq_refl)). reflexivity.
    + reflexivity.
  - reflexivity.
  - reflexivity.
Qed.

Lemma readFile_root fuel (a : t) :
  readFile fuel [] a =
    mkRun (Throw (NotARegularFile ("'" +:+ showPath a [] +:+ "' is not a regular file"))) a [].
Proof. reflexivity. Qed.

End WithPosix.
End DirFacts.

(** ** Listing a directory, on any system *)

Lemma lookup_emplace name ty (entries : gmap string (option Type_)) k :
  emplace name ty entries !! k =
    match entries !! k with
    | Some v => Some v
    | None => if String.eqb name k then Some ty else None
    end.
Proof.
  unfold emplace. destruct (String.eqb_spec name k) as [->|Hne].
  - destruct (entries !! k) eqn:E; [exact E|]. apply lookup_insert_eq.
  - destruct (entries !! name) eqn:E.
    + destruct (entries !! k); reflexivity.
    + rewrite lookup_insert_ne by exact Hne. destruct (entries !! k); reflexivity.
Qed.

Module ListingFacts.
Import UnixDirectorySourceAccessor DirFacts.
Section WithPosix.
Context `{Posix}.

Lemma readEntries_nil dir n entries (a : t) :
  readEntries dir n [] entries a = mkRun (Ok entries) a [EvReaddir dir].
Proof. reflexivity. Qed.

(** One turn of the [readdir] loop. *)
Lemma readEntries_cons dir n d rest entries (a : t) :
  readEntries dir n (d :: rest) entries a =
    if os_interrupted n then mkRun (Throw Interrupted) a [EvReaddir dir]
    else
      prepend [EvReaddir dir]
        (readEntries dir (S n) rest
           (if String.eqb (Dirent.d_name d) "." || String.eqb (Dirent.d_name d) ".."
            then entries
            else emplace (Dirent.d_name d) (direntType (Dirent.d_type d)) entries) a).
Proof.
  cbn [readEntries]. unfold bind, emit, checkInterrupt, prepend.
  destruct (os_interrupted n); cbn [outcome final trace throw ret app]; [reflexivity|].
  destruct (String.eqb (Dirent.d_name d) "." || String.eqb (Dirent.d_name d) "..");
    reflexivity.
Qed.

(** What the [readdir] loop returns: what it was given, and for every other
    name but "." and ".." the kind in the first record of that name. *)
Lemma readEntries_result dir dirents : forall n entries (a : t),
  let r := readEntries dir n dirents entries a in
  final r = a
  /\ List.filter is_status_query (trace r) = []
  /\ match outcome r with
     | Ok result =>
         forall name,
           result !! name =
             match entries !! name with
             | Some ty => Some ty
             | None =>
                 if String.eqb name "." || String.eqb name ".." then None
                 else option_map (fun d => direntType (Dirent.d_type d))
                        (List.find (fun d => String.eqb (Dirent.d_name d) name) dirents)
             end
     | Throw e => e = Interrupted
     | OutOfFuel => False
     end.
Proof.
  induction dirents as [|d rest IH]; intros n entries a r; subst r.
  - rewrite readEntries_nil. cbn. repeat split. intros name.
    destruct (entries !! name); [reflexivity|].
    destruct (String.eqb name "." || String.eqb name ".."); reflexivity.
  - rewrite readEntries_cons. destruct (os_interrupted n); [cbn; auto|].
    unfold prepend. cbn [outcome final trace app List.filter is_status_query].
    destruct (String.eqb (Dirent.d_name d) "." || String.eqb (Dirent.d_name d) "..") eqn:Edot.
    + specialize (IH (S n) entries a). cbv zeta in IH. destruct IH as (I1 & I2 & I3).
      split; [exact I1|]. split; [exact I2|].
      destruct (outcome (readEntries dir (S n) rest entries a)); auto.
      intros name. rewrite I3. destruct (entries !! name); [reflexivity|].
      destruct (String.eqb name "." || String.eqb name "..") eqn:En; [reflexivity|].
      cbn [List.find]. destruct (String.eqb_spec (Dirent.d_name d) name) as [E|E]; [|reflexivity].
      rewrite E in Edot. congruence.
    + specialize (IH (S n) (emplace (Dirent.d_name d) (direntType (Dirent.d_type d)) entries) a).
      cbv zeta in IH. destruct IH as (I1 & I2 & I3).
      split; [exact I1|]. split; [exact I2|].
      destruct (outcome (readEntries dir (S n) rest _ a)); auto.
      intros name. rewrite I3, lookup_emplace. destruct (entries !! name); [reflexivity|].
      cbn [List.find].
      destruct (String.eqb_spec (Dirent.d_name d) name) as [E|E]; [|reflexivity].
      rewrite <- E, Edot. reflexivity.
Qed.

(** The descriptor a listing opens: the anchor's own "." for the root, the
    safe resolution of the path otherwise. *)
Local Abbreviation opened path a :=
  ((if CanonPath.isRoot path
    then sys_openat (fd a) "." (Z.lor Fcntl.O_DIRECTORY (Z.lor Fcntl.O_RDONLY Fcntl.O_CLOEXEC))
    else openFileEnsureBeneathNoSymlinks (fd a) path directoryFlags) a).

Lemma opened_effect path (a : t) :
  final (opened path a) = a
  /\ match outcome (opened path a) with
     | Ok (inr _) => status_queries (trace (opened path a)) = 0%nat
     | Ok (inl _) => True
     | Throw e =>
         exists q rest, rest <> [] /\ q <> [] /\ path = q ++ rest /\ e = SymlinkNotAllowed q None
     | OutOfFuel => False
     end.
Proof.
  destruct path as [|c p]; cbn [CanonPath.isRoot].
  - cbn. split; [reflexivity|]. destruct (os_openat _ _ _); auto.
  - apply (resolve_effect (c :: p)). discriminate.
Qed.

Lemma readDirectory_eq path (a : t) :
  let o := opened path a in
  readDirectory path a =
    match outcome o with
    | Ok (inr dirFd) =>
        match os_fdopendir dirFd with
        | inr dir =>
            let l := readEntries dir 0 (fst (os_readdir dir)) ∅ a in
            match outcome l with
            | Ok entries =>
                match snd (os_readdir dir) with
                | Some e =>
                    mkRun (Throw (SysError (Some e) ("reading directory " +:+ CanonPath.abs path)))
                      a (trace o ++ EvFdopendir dirFd :: trace l)
                | None => mkRun (Ok entries) a (trace o ++ EvFdopendir dirFd :: trace l)
                end
            | Throw e => mkRun (Throw e) a (trace o ++ EvFdopendir dirFd :: trace l)
            | OutOfFuel => mkRun OutOfFuel a (trace o ++ EvFdopendir dirFd :: trace l)
            end
        | inl e =>
            mkRun (Throw (SysError (Some e) ("opening directory '" +:+ showPath a path +:+ "'")))
              a (trace o ++ [EvFdopendir dirFd])
        end
    | Ok (inl e) =>
        mkRun (Throw (if Errno_eqb e ENOTDIR
                      then NotADirectory ("'" +:+ showPath a path +:+ "' is not a directory")
                      else SysError (Some e) ("opening directory '" +:+ showPath a path +:+ "'")))
          a (trace o)
    | Throw e => mkRun (Throw (rethrown a e)) a (trace o)
    | OutOfFuel => mkRun OutOfFuel a (trace o)
    end.
Proof.
  intros o. pose proof (opened_effect path a) as (Hf & _). fold o in Hf.
  unfold readDirectory. rewrite guarded_eq, bind_get. cbv beta. rewrite bind_eq. fold o.
  destruct (outcome o) as [[e|dirFd]|e|]; unfold prepend; cbn [outcome final trace]; rewrite ?Hf.
  - unfold throw. destruct (Errno_eqb e ENOTDIR); cbn [outcome final trace rethrown];
      rewrite ?Hf, ?app_nil_r; reflexivity.
  - rewrite bind_eq. unfold sys_fdopendir, prepend. cbn [outcome final trace].
    destruct (os_fdopendir dirFd) as [e|dir]; cbn [outcome final trace].
    + unfold throw. cbn [outcome final trace rethrown]. reflexivity.
    + rewrite bind_eq.
      pose proof (readEntries_result dir (fst (os_readdir dir)) 0 ∅ a) as (L1 & L2 & L3).
      cbv zeta in L3.
      destruct (outcome (readEntries dir 0 (fst (os_readdir dir)) ∅ a)) as [entries|e|];
        unfold prepend; cbn [outcome final trace]; rewrite ?L1.
      * destruct (snd (os_readdir dir)); unfold throw, ret; cbn [outcome final trace rethrown];
          rewrite ?L1, ?app_nil_r; reflexivity.
      * subst e. cbn [rethrown app]. reflexivity.
      * contradiction.
  - reflexivity.
  - reflexivity.
Qed.

End WithPosix.
End ListingFacts.

(** ** Where a [SymlinkNotAllowed] of a public operation comes from *)

Module RethrowFacts.
Import UnixDirectorySourceAccessor DirFacts ListingFacts.
Section WithPosix.
Context `{Posix}.

(** The rethrown form of what the resolution throws. *)
Lemma rethrown_prefix (a : t) (path : CanonPath.t) e q msg :
  (exists q' rest, q' <> [] /\ rest <> [] /\ path = q' ++ rest /\ e = SymlinkNotAllowed q' None) ->
  rethrown a e = SymlinkNotAllowed q msg ->
  msg = Some ("path '" +:+ showPath a q +:+ "' is a symlink")
  /\ q <> [] /\ exists rest, rest <> [] /\ path = q ++ rest.
Proof.
  intros (q' & rest & Hq & Hr & Hp & ->). cbn [rethrown]. intros [= <- <-].
  split; [reflexivity|]. split; [exact Hq|]. now exists rest.
Qed.

Lemma maybeLstat_symlink_error path (a : t) q msg :
  outcome (maybeLstat path a) = Throw (SymlinkNotAllowed q msg) ->
  msg = Some ("path '" +:+ showPath a q +:+ "' is a symlink")
  /\ q <> [] /\ exists rest, rest <> [] /\ path = q ++ rest.
Proof.
  destruct path as [|c p].
  - rewrite maybeLstat_root. destruct (os_fstat (fd a)); discriminate.
  - destruct (CanonPath_snoc_inv (c :: p) ltac:(discriminate)) as (parent & name & ->).
    pose proof (maybeLstat_child parent name a) as E. cbv zeta in E. rewrite E. clear E.
    pose proof (openParent_result parent name a) as (_ & Ho). cbv zeta in Ho.
    destruct (outcome (openParent (parent ++ [name]) a)) as [parentFd|e|]; [| |contradiction].
    + destruct (fd_valid parentFd); [|discriminate].
      destruct (os_fstatat parentFd name _); discriminate.
    + cbn [outcome]. intros [= Hr]. destruct Ho as (q' & rest & Hq).
      eapply rethrown_prefix; [|exact Hr]. exists q', rest. exact Hq.
Qed.

Lemma readLink_symlink_error path (a : t) q msg :
  outcome (readLink path a) = Throw (SymlinkNotAllowed q msg) ->
  msg = Some ("path '" +:+ showPath a q +:+ "' is a symlink")
  /\ q <> [] /\ exists rest, rest <> [] /\ path = q ++ rest.
Proof.
  destruct path as [|c p].
  - discriminate.
  - destruct (CanonPath_snoc_inv (c :: p) ltac:(discriminate)) as (parent & name & ->).
    pose proof (readLink_child parent name a) as E. cbv zeta in E. rewrite E. clear E.
    pose proof (openParent_result parent name a) as (_ & Ho). cbv zeta in Ho.
    destruct (outcome (openParent (parent ++ [name]) a)) as [parentFd|e|]; [| |contradiction].
    + destruct (fd_valid parentFd); [|discriminate].
      destruct (os_readlinkat parentFd name) as [e|target]; [|discriminate].
      destruct (Errno_eqb e EINVAL); discriminate.
    + cbn [outcome]. intros [= Hr]. destruct Ho as (q' & rest & Hq).
      eapply rethrown_prefix; [|exact Hr]. exists q', rest. exact Hq.
Qed.

Lemma readFile_symlink_error fuel path (a : t) q msg :
  outcome (readFile fuel path a) = Throw (SymlinkNotAllowed q msg) ->
  msg = Some ("path '" +:+ showPath a q +:+ "' is a symlink")
  /\ q <> [] /\ exists rest, rest <> [] /\ path = q ++ rest.
Proof.
  destruct path as [|c p].
  - discriminate.
  - pose proof (readFile_child fuel c p a) as E. cbv zeta in E. rewrite E. clear E.
    pose proof (resolve_effect (c :: p) (fd a) fileFlags a ltac:(discriminate)) as (_ & Ho).
    cbv zeta in Ho.
    destruct (outcome (openFileEnsureBeneathNoSymlinks _ _ _ _)) as [[e|fileFd]|e|];
      [| | |contradiction].
    + destruct (Errno_eqb e ELOOP); [discriminate|].
      destruct (Errno_eqb e ENOENT || Errno_eqb e ENOTDIR); discriminate.
    + match goal with
      | |- context [outcome (UnixFileSourceAccessor.readFile ?f ?p ?x)] =>
          pose proof (FileFacts.file_readFile_throws f p x) as Hthrow;
          destruct (outcome (UnixFileSourceAccessor.readFile f p x)) as [[]|e|]
      end; try discriminate.
      cbn [outcome]. intros [= ->]. exact (False_ind _ (Hthrow _ eq_refl)).
    + cbn [outcome]. intros [= Hr]. destruct Ho as (q' & rest & Hrest & Hq & Hp & He).
      eapply rethrown_prefix; [|exact Hr]. exists q', rest. auto.
Qed.

Lemma readDirectory_symlink_error path (a : t) q msg :
  outcome (readDirectory path a) = Throw (SymlinkNotAllowed q msg) ->
  msg = Some ("path '" +:+ showPath a q +:+ "' is a symlink")
  /\ q <> [] /\ exists rest, rest <> [] /\ path = q ++ rest.
Proof.
  pose proof (readDirectory_eq path a) as E. cbv zeta in E. rewrite E. clear E.
  pose proof (opened_effect path a) as (_ & Ho).
  destruct (outcome _) as [[e|dirFd]|e|] in Ho |- *; [| | |contradiction].
  - destruct (Errno_eqb e ENOTDIR); discriminate.
  - destruct (os_fdopendir dirFd) as [e|dir]; [discriminate|]. cbv zeta.
    pose proof (readEntries_result dir (fst (os_readdir dir)) 0 ∅ a) as (_ & _ & L3).
    cbv zeta in L3.
    destruct (outcome (readEntries dir 0 (fst (os_readdir dir)) ∅ a)) as [entries|e|].
    + destruct (snd (os_readdir dir)); discriminate.
    + subst e. discriminate.
    + discriminate.
  - cbn [outcome]. intros [= Hr]. destruct Ho as (q' & rest & Hrest & Hq & Hp & He).
    eapply rethrown_prefix; [|exact Hr]. exists q', rest. auto.
Qed.

End WithPosix.
End RethrowFacts.

(** ** Modification times over calls in sequence *)

Section StampFacts.
Context `{Posix}.

Lemma stamps_app tr1 tr2 : stamps (tr1 ++ tr2) = stamps tr1 ++ stamps tr2.
Proof. unfold stamps. now rewrite map_app, concat_app. Qed.

Lemma stamps_queries tr : stamps tr = stamps (List.filter is_status_query tr).
Proof.
  induction tr as [|ev tr IH]; [reflexivity|].
  cbn [List.filter]. destruct ev; cbn [is_status_query]; unfold stamps in *;
    cbn [map List.concat stamp_of app]; rewrite IH; reflexivity.
Qed.

Lemma stamps_no_query tr : status_queries tr = 0%nat -> stamps tr = [].
Proof.
  intros Hq. rewrite stamps_queries. unfold status_queries in Hq.
  destruct (List.filter is_status_query tr); [reflexivity | discriminate].
Qed.

End StampFacts.

Module DirSessionFacts.
Import UnixDirectorySourceAccessor DirFacts ListingFacts DirSession.
Section WithPosix.
Context `{Posix}.

(** A valid descriptor from [openParent] was reached without a status query. *)
Lemma openParent_valid parent name (a : t) parentFd :
  outcome (openParent (parent ++ [name]) a) = Ok parentFd ->
  fd_valid parentFd = true ->
  status_queries (trace (openParent (parent ++ [name]) a)) = 0%nat.
Proof.
  destruct parent as [|c parent].
  - cbn [app]. rewrite openParent_root_parent. reflexivity.
  - pose proof (openParent_eq c parent name a) as E. cbv zeta in E. rewrite E. clear E.
    pose proof (resolve_effect (c :: parent) (fd a) directoryFlags a ltac:(discriminate))
      as (_ & Ho). cbv zeta in Ho.
    destruct (outcome (openFileEnsureBeneathNoSymlinks _ _ _ _)) as [[e|fd']|e|];
      cbn [outcome trace]; try discriminate.
    + destruct (Errno_eqb e ELOOP || Errno_eqb e ENOTDIR); cbn [outcome trace]; [discriminate|].
      intros [= <-]. rewrite invalid_descriptor. discriminate.
    + intros _ _. exact Ho.
Qed.

(** What a call does to the tracked time. *)
Lemma perform_mtime (op : Op) (a : t) :
  let r := perform op a in
  Base.trackLastModified (base (final r)) = Base.trackLastModified (base a)
  /\ fd (final r) = fd a /\ rootPath (final r) = rootPath a
  /\ Base.mtime (base a) <= Base.mtime (base (final r))
  /\ (Base.trackLastModified (base a) = false -> Base.mtime (base (final r)) = Base.mtime (base a))
  /\ (Base.trackLastModified (base a) = true -> 0 <= Base.mtime (base a) ->
      Base.mtime (base (final r)) = fold_left Z.max (accessed r) (Base.mtime (base a))).
Proof.
  assert (Hsame :
            Base.trackLastModified (base a) = Base.trackLastModified (base a)
            /\ fd a = fd a /\ rootPath a = rootPath a
            /\ Base.mtime (base a) <= Base.mtime (base a)
            /\ (Base.trackLastModified (base a) = false ->
                Base.mtime (base a) = Base.mtime (base a))
            /\ (Base.trackLastModified (base a) = true -> 0 <= Base.mtime (base a) ->
                Base.mtime (base a) = fold_left Z.max [] (Base.mtime (base a)))).
  { cbn. repeat split; auto; lia. }
  assert (Hupd : forall m,
            let a' := set_base (Base.updateMtime (base a) m) a in
            Base.trackLastModified (base a') = Base.trackLastModified (base a)
            /\ fd a' = fd a /\ rootPath a' = rootPath a
            /\ Base.mtime (base a) <= Base.mtime (base a')
            /\ (Base.trackLastModified (base a) = false ->
                Base.mtime (base a') = Base.mtime (base a))
            /\ (Base.trackLastModified (base a) = true -> 0 <= Base.mtime (base a) ->
                Base.mtime (base a') = fold_left Z.max [m] (Base.mtime (base a)))).
  { intros m a'. subst a'. cbn [final set_base base fd rootPath].
    unfold Base.updateMtime. destruct (Base.trackLastModified (base a)) eqn:Ht;
      cbn [Base.trackLastModified Base.mtime fold_left]; repeat split; auto; try lia;
      try discriminate. }
  intros r. subst r. destruct op as [path | fuel path | path | path]; unfold perform.
  - (* maybeLstat *)
    rewrite bind_eq.
    destruct path as [|c p].
    + rewrite maybeLstat_root. destruct (os_fstat (fd a)) as [e|st] eqn:Hs;
        unfold prepend, ret, accessed; cbn [outcome final trace app].
      * exact Hsame.
      * unfold stamps. cbn [map List.concat stamp_of app]. rewrite Hs. exact (Hupd (st_mtime st)).
    + destruct (CanonPath_snoc_inv (c :: p) ltac:(discriminate)) as (parent & name & ->).
      pose proof (maybeLstat_child parent name a) as E. cbv zeta in E. rewrite E. clear E.
      pose proof (openParent_valid parent name a) as Hv.
      destruct (outcome (openParent (parent ++ [name]) a)) as [parentFd|e|];
        [| exact Hsame | exact Hsame].
      destruct (fd_valid parentFd) eqn:Hvalid;
        [|unfold prepend, ret, accessed; cbn [outcome final trace];
          exact Hsame].
      specialize (Hv parentFd eq_refl Hvalid).
      destruct (os_fstatat parentFd name Fcntl.AT_SYMLINK_NOFOLLOW) as [e|st] eqn:Hs;
        unfold prepend, ret, accessed; cbn [outcome final trace].
      * exact Hsame.
      * rewrite app_nil_r, stamps_app, (stamps_no_query _ Hv). unfold stamps.
        cbn [map List.concat stamp_of app]. rewrite Hs. exact (Hupd (st_mtime st)).
  - (* readFile *)
    rewrite bind_eq.
    destruct path as [|c p]; [rewrite readFile_root; exact Hsame|].
    pose proof (readFile_child fuel c p a) as E. cbv zeta in E. rewrite E. clear E.
    pose proof (resolve_effect (c :: p) (fd a) fileFlags a ltac:(discriminate)) as (_ & Ho).
    cbv zeta in Ho.
    destruct (outcome (openFileEnsureBeneathNoSymlinks _ _ _ _)) as [[e|fileFd]|e|];
      try (exact Hsame).
    match goal with
    | |- context [outcome (UnixFileSourceAccessor.readFile ?f ?rp (UnixFileSourceAccessor.new ?x ?y ?z None))] =>
        pose proof (FileFacts.file_readFile_fresh f x y z) as (_ & Hfresh);
        cbv zeta in Hfresh;
        change rp with (@nil string) in *;
        destruct (outcome (UnixFileSourceAccessor.readFile f [] (UnixFileSourceAccessor.new x y z None)))
          as [[]|e|]
    end; try (exact Hsame).
    destruct (Hfresh eq_refl) as (st & Hs & Hq & Hlm).
    unfold prepend, ret, accessed. cbn [outcome final trace].
    rewrite app_nil_r, stamps_app, (stamps_no_query _ Ho), stamps_queries, Hq.
    unfold stamps. cbn [map List.concat stamp_of app]. rewrite Hs, Hlm.
    destruct (Base.trackLastModified (base a)) eqn:Ht; cbn; repeat split; auto; try lia;
      try discriminate.
  - (* readDirectory *)
    rewrite bind_eq.
    pose proof (readDirectory_eq path a) as E. cbv zeta in E. rewrite E. clear E.
    repeat match goal with
           | |- context [match ?x with _ => _ end] =>
               match x with
               | context [match _ with _ => _ end] => fail 1
               | _ => destruct x
               end
           end; unfold prepend, ret, accessed; cbn [outcome final trace];
      exact Hsame.
  - (* readLink *)
    rewrite bind_eq.
    destruct path as [|c p]; [exact Hsame|].
    destruct (CanonPath_snoc_inv (c :: p) ltac:(discriminate)) as (parent & name & ->).
    pose proof (readLink_child parent name a) as E. cbv zeta in E. rewrite E. clear E.
    repeat match goal with
           | |- context [match ?x with _ => _ end] =>
               match x with
               | context [match _ with _ => _ end] => fail 1
               | _ => destruct x
               end
           end; unfold prepend, ret, accessed; cbn [outcome final trace];
      exact Hsame.
Qed.

Lemma history_mtime (ops : list Op) : forall a : t,
  Base.trackLastModified (base (fst (history ops a))) = Base.trackLastModified (base a)
  /\ (Base.trackLastModified (base a) = true -> 0 <= Base.mtime (base a) ->
      Base.mtime (base (fst (history ops a))) =
        fold_left Z.max (snd (history ops a)) (Base.mtime (base a))).
Proof.
  induction ops as [|op ops IH]; intros a; cbn [history fst snd]; [cbn; auto|].
  pose proof (perform_mtime op a) as (Ht & _ & _ & Hle & _ & Hfold). cbv zeta in Hfold.
  destruct (IH (final (perform op a))) as (IHt & IHm). split; [congruence|].
  intros Htrack Hpos. rewrite fold_left_app, <- Hfold by assumption.
  apply IHm; [congruence | lia].
Qed.

End WithPosix.
End DirSessionFacts.

Module FileMtimeFacts.
Import UnixFileSourceAccessor FileFacts FileSession.
Section WithPosix.
Context `{Posix}.

(** No call on the single-file accessor lowers its tracked time or changes
    whether it tracks. *)
Lemma file_perform_mtime (op : Op) (a : t) :
  Base.trackLastModified (base (final (perform op a))) = Base.trackLastModified (base a)
  /\ Base.mtime (base a) <= Base.mtime (base (final (perform op a))).
Proof.
  assert (Hstat : Base.trackLastModified (base (final (maybeLstat [] a)))
                    = Base.trackLastModified (base a)
                  /\ Base.mtime (base a) <= Base.mtime (base (final (maybeLstat [] a)))).
  { destruct (maybeLstat_root_cases a) as [(st & -> & _) | [(st & -> & _) | (e & -> & _)]];
      cbn [final set_base base set_cachedStat]; try (split; [reflexivity | lia]).
    unfold Base.updateMtime. destruct (Base.trackLastModified (base a)) eqn:Ht;
      cbn [Base.trackLastModified Base.mtime]; split; auto; lia. }
  destruct op as [path | fuel path | path | path]; unfold perform.
  - rewrite bind_eq. destruct path as [|c p].
    + destruct (outcome (maybeLstat [] a)); unfold prepend, ret; cbn [final]; exact Hstat.
    + rewrite maybeLstat_nonroot_eq. cbn. split; [reflexivity | lia].
  - destruct path as [|c p]; [|cbn; split; [reflexivity | lia]].
    destruct (readFile_root_eq fuel a) as (k & -> & Hk). rewrite bind_eq.
    destruct (maybeLstat_root_cases a) as [(st & E & _) | [(st & E & _) | (e & E & _)]];
      rewrite E in Hstat |- *; cbn [outcome final trace] in *; try exact Hstat;
      unfold prepend; cbn [final]; rewrite Hk;
      (destruct (fileSize (posixStatToAccessorStat st));
       [unfold prepend; cbn [final]; rewrite readLoop_final|cbn [final]]); exact Hstat.
  - cbn. split; [reflexivity | lia].
  - cbn. split; [reflexivity | lia].
Qed.

End WithPosix.
End FileMtimeFacts.

(** ** Safe resolution on a directory tree *)

Module TreeFacts.
Import TreeFS.

Lemma node_at_app l1 : forall l2 w,
  node_at w (l1 ++ l2) =
    match node_at w l1 with
    | Some n' => node_at n' l2
    | None => None
    end.
Proof.
  induction l1 as [|c l1 IH]; intros l2 w; [reflexivity|].
  cbn [app node_at]. destruct w; try reflexivity.
  destruct (child entries c); [apply IH | reflexivity].
Qed.

(** An entry below a location hangs in a directory at that location. *)
Lemma node_at_snoc w loc c n :
  node_at w (loc ++ [c]) = Some n ->
  exists m entries, node_at w loc = Some (Dir m entries) /\ child entries c = Some n.
Proof.
  rewrite node_at_app. destruct (node_at w loc) as [d|]; [|discriminate].
  cbn [node_at]. destruct d; try discriminate.
  destruct (child entries c) eqn:E; [|discriminate]. intros [= <-]. eauto.
Qed.

Lemma node_at_below w loc c rest n :
  node_at w (loc ++ c :: rest) = Some n ->
  exists n', node_at w (loc ++ [c]) = Some n' /\ node_at n' rest = Some n.
Proof.
  change (c :: rest) with ([c] ++ rest). rewrite app_assoc, node_at_app.
  destruct (node_at w (loc ++ [c])) as [n'|]; [|discriminate]. eauto.
Qed.

Lemma node_at_inner w loc c d rest n :
  node_at w (loc ++ c :: d :: rest) = Some n ->
  exists m entries, node_at w (loc ++ [c]) = Some (Dir m entries).
Proof.
  intros Hn. apply node_at_below in Hn. destruct Hn as (n' & Hn' & Hrest).
  cbn [node_at] in Hrest. destruct n'; try discriminate. eauto.
Qed.

Lemma intermediate_nofollow :
  Fcntl.has intermediateFlags Fcntl.O_NOFOLLOW = true
  /\ Fcntl.has intermediateFlags Fcntl.O_DIRECTORY = true.
Proof. split; reflexivity. Qed.

Section World.
Variable platform : Platform.
Variable world : node.

Let P : Posix := TreeFS.posix platform world.
#[local] Existing Instance P.

(** What a no-follow open of a component gives in a directory that holds it. *)
Lemma openat_entry loc m entries c n flags :
  node_at world loc = Some (Dir m entries) ->
  child entries c = Some n ->
  Fcntl.has flags Fcntl.O_NOFOLLOW = true ->
  os_openat (Some loc) c flags =
    match n with
    | Dir _ _ => inr (Some (loc ++ [c]))
    | Lnk _ _ => inl (nofollow_errno platform flags)
    | _ => if Fcntl.has flags Fcntl.O_DIRECTORY then inl ENOTDIR else inr (Some (loc ++ [c]))
    end.
Proof.
  intros Hloc Hc Hnf. cbn [os_openat P posix]. unfold tree_openat. rewrite Hloc, Hc.
  destruct n; cbn [open_entry]; try reflexivity. rewrite Hnf. reflexivity.
Qed.

Lemma fstatat_entry loc m entries c n :
  node_at world loc = Some (Dir m entries) ->
  child entries c = Some n ->
  os_fstatat (Some loc) c Fcntl.AT_SYMLINK_NOFOLLOW = inr (node_stat n).
Proof.
  intros Hloc Hc. cbn [os_fstatat P posix]. unfold tree_fstatat. rewrite Hloc, Hc.
  destruct n; reflexivity.
Qed.

Lemma is_symlink_node n :
  StatMode.S_ISLNK (st_mode (node_stat n)) = match n with Lnk _ _ => true | _ => false end.
Proof. destruct n as [[]| | |[]]; reflexivity. Qed.

(** The descent through directories [pre] down to an entry [x] that is not
    the last component: it goes on below a directory, throws at a symlink,
    and gives back ENOTDIR at anything else. *)
Lemma descend_through {St} pre : forall loc seen x more name flags n (s : St),
  node_at world (loc ++ pre ++ [x]) = Some n ->
  outcome (descend (Some loc) seen (pre ++ x :: more) name flags s) =
    match n with
    | Dir _ _ =>
        outcome (descend (Some (loc ++ pre ++ [x])) (seen ++ pre ++ [x]) more name flags s)
    | Lnk _ _ => Throw (SymlinkNotAllowed (seen ++ pre ++ [x]) None)
    | _ => Ok (inl ENOTDIR)
    end.
Proof.
  destruct intermediate_nofollow as (Hnf & Hdir).
  induction pre as [|c pre IH]; intros loc seen x more name flags n s Hn.
  - cbn [app] in *. destruct (node_at_snoc _ _ _ _ Hn) as (m & entries & Hloc & Hc).
    rewrite descend_cons.
    rewrite (openat_entry loc m entries x n intermediateFlags Hloc Hc Hnf).
    rewrite (fstatat_entry loc m entries x n Hloc Hc).
    unfold is_symlink_stat. rewrite is_symlink_node, Hdir.
    destruct n; reflexivity.
  - cbn [app] in *.
    assert (Hc : exists m entries, node_at world (loc ++ [c]) = Some (Dir m entries)).
    { destruct pre; cbn [app] in Hn; eapply node_at_inner; exact Hn. }
    destruct Hc as (m' & entries' & Hc).
    destruct (node_at_snoc _ _ _ _ Hc) as (m & entries & Hloc & Hchild).
    rewrite descend_cons.
    rewrite (openat_entry loc m entries c _ intermediateFlags Hloc Hchild Hnf).
    unfold prepend. cbn [outcome].
    specialize (IH (loc ++ [c]) (CanonPath.push seen c) x more name flags n s).
    unfold CanonPath.push in *. rewrite <- !app_assoc in IH. cbn [app] in IH.
    apply IH. exact Hn.
Qed.

(** The descent through directories [pre] whose last component is the entry [x]. *)
Lemma descend_onto {St} pre : forall loc seen x flags n (s : St),
  node_at world (loc ++ pre ++ [x]) = Some n ->
  outcome (descend (Some loc) seen pre x flags s) =
    Ok match n with
       | Dir _ _ => inr (Some (loc ++ pre ++ [x]))
       | Lnk _ _ => inl (nofollow_errno platform (Z.lor flags Fcntl.O_NOFOLLOW))
       | _ =>
           if Fcntl.has (Z.lor flags Fcntl.O_NOFOLLOW) Fcntl.O_DIRECTORY
           then inl ENOTDIR else inr (Some (loc ++ pre ++ [x]))
       end.
Proof.
  destruct intermediate_nofollow as (Hnf & Hdir).
  induction pre as [|c pre IH]; intros loc seen x flags n s Hn.
  - cbn [app] in *. destruct (node_at_snoc _ _ _ _ Hn) as (m & entries & Hloc & Hc).
    rewrite descend_nil. cbn [outcome].
    rewrite (openat_entry loc m entries x n _ Hloc Hc); [reflexivity|].
    apply has_lor_same. discriminate.
  - cbn [app] in *.
    assert (Hc : exists m entries, node_at world (loc ++ [c]) = Some (Dir m entries)).
    { destruct pre; cbn [app] in Hn; eapply node_at_inner; exact Hn. }
    destruct Hc as (m' & entries' & Hc).
    destruct (node_at_snoc _ _ _ _ Hc) as (m & entries & Hloc & Hchild).
    rewrite descend_cons.
    rewrite (openat_entry loc m entries c _ intermediateFlags Hloc Hchild Hnf).
    unfold prepend. cbn [outcome].
    specialize (IH (loc ++ [c]) (CanonPath.push seen c) x flags n s).
    rewrite <- !app_assoc in IH. cbn [app] in IH.
    apply IH. exact Hn.
Qed.

(** The resolution of a path that runs through an entry that is not a directory. *)
Lemma resolve_blocked {St} anchor pre x mid lastc flags n (s : St) :
  node_at world (anchor ++ pre ++ [x]) = Some n ->
  outcome (openFileEnsureBeneathNoSymlinks (Some anchor) ((pre ++ x :: mid) ++ [lastc]) flags s) =
    match n with
    | Dir _ _ =>
        outcome (descend (Some (anchor ++ pre ++ [x])) (pre ++ [x]) mid lastc flags s)
    | Lnk _ _ => Throw (SymlinkNotAllowed (pre ++ [x]) None)
    | _ => Ok (inl ENOTDIR)
    end.
Proof.
  intros Hn. rewrite resolve_snoc.
  exact (descend_through pre anchor CanonPath.root x mid lastc flags n s Hn).
Qed.

Import UnixDirectorySourceAccessor DirFacts.

(** [openParent] of such a path: the symlink is named where one is met, the
    parent where the entry is anything else but a directory. *)
Lemma openParent_blocked (a : t) anchor pre x mid lastc n :
  fd a = Some anchor ->
  node_at world (anchor ++ pre ++ [x]) = Some n ->
  match n with Dir _ _ => False | _ => True end ->
  outcome (openParent ((pre ++ x :: mid) ++ [lastc]) a) =
    Throw (SymlinkNotAllowed
             match n with
             | Lnk _ _ => pre ++ [x]
             | _ => pre ++ x :: mid
             end None).
Proof.
  intros Hfd Hn Hnd.
  assert (Hparent : exists c p, pre ++ x :: mid = c :: p).
  { destruct pre; cbn [app]; eauto. }
  destruct Hparent as (c & p & Hp). rewrite Hp.
  pose proof (openParent_eq c p lastc a) as E. cbv zeta in E. rewrite E. clear E.
  rewrite <- Hp, Hfd.
  destruct mid as [|ml mid' _] using rev_ind.
  - rewrite resolve_snoc.
    rewrite (descend_onto pre anchor CanonPath.root x directoryFlags n a Hn).
    destruct n as [? ? ?|? ?|? ?|? ?]; try contradiction; cbn [outcome];
      try reflexivity.
    unfold nofollow_errno. cbn. destruct platform; reflexivity.
  - replace (pre ++ x :: mid' ++ [ml]) with ((pre ++ x :: mid') ++ [ml])
      by (rewrite <- app_assoc; reflexivity).
    rewrite (resolve_blocked anchor pre x mid' ml directoryFlags n a Hn).
    destruct n; try contradiction; reflexivity.
Qed.

End World.
End TreeFacts.

(** ** Absent paths on a directory tree *)

Module AbsenceFacts.
Import TreeFS TreeFacts.

Lemma node_at_removelast w loc m entries :
  node_at w loc = Some (Dir m entries) ->
  exists m' entries', node_at w (removelast loc) = Some (Dir m' entries').
Proof.
  destruct loc as [|x loc _] using rev_ind; [eauto|].
  rewrite removelast_last. intros Hn. apply node_at_snoc in Hn.
  destruct Hn as (m' & entries' & Hl & _). eauto.
Qed.

Section World.
Variable platform : Platform.
Variable world : node.

Let P : Posix := TreeFS.posix platform world.
#[local] Existing Instance P.

Local Abbreviation is_directory := (TreeFS.is_directory world).

(** A no-follow open for a directory, in a directory: a directory comes back,
    or the name is missing (and any open and the status query say so too), or
    the entry is not a directory. *)
Lemma openat_directory loc m entries c flags :
  node_at world loc = Some (Dir m entries) ->
  Fcntl.has flags Fcntl.O_NOFOLLOW = true ->
  Fcntl.has flags Fcntl.O_DIRECTORY = true ->
  match os_openat (Some loc) c flags with
  | inr fd' => is_directory fd'
  | inl e =>
      (e = ENOENT
       /\ os_fstatat (Some loc) c Fcntl.AT_SYMLINK_NOFOLLOW = inl ENOENT
       /\ forall flags', os_openat (Some loc) c flags' = inl ENOENT)
      \/ e = ENOTDIR \/ e = ELOOP
  end.
Proof.
  intros Hloc Hnf Hdir. unfold TreeFS.is_directory. cbn [os_openat os_fstatat P posix].
  unfold tree_openat, tree_fstatat. rewrite Hloc.
  destruct (child entries c) as [n|] eqn:Hc.
  - destruct n as [x mt data|mt ents|mt target|k mt]; cbn [open_entry]; rewrite ?Hnf, ?Hdir.
    + auto.
    + exists (loc ++ [c]), mt, ents. split; [reflexivity|].
      rewrite node_at_app, Hloc. cbn [node_at]. rewrite Hc. reflexivity.
    + unfold nofollow_errno. rewrite Hdir. destruct platform; auto.
    + auto.
  - destruct (String.eqb c ".") eqn:E1.
    + exists loc, m, entries. auto.
    + destruct (String.eqb c "..") eqn:E2.
      * destruct (node_at_removelast _ _ _ _ Hloc) as (m' & entries' & Hr).
        exists (removelast loc), m', entries'. auto.
      * left. auto.
Qed.

(** A status query by name that fails in a directory: the name is missing,
    and an open of it says so. *)
Lemma fstatat_fails loc m entries name e flags :
  node_at world loc = Some (Dir m entries) ->
  os_fstatat (Some loc) name Fcntl.AT_SYMLINK_NOFOLLOW = inl e ->
  os_openat (Some loc) name flags = inl ENOENT.
Proof.
  intros Hloc. cbn [os_openat os_fstatat P posix]. unfold tree_openat, tree_fstatat.
  rewrite Hloc. destruct (child entries name) as [n|] eqn:Hc.
  - change (Fcntl.has Fcntl.AT_SYMLINK_NOFOLLOW Fcntl.AT_SYMLINK_NOFOLLOW) with true.
    destruct n; discriminate.
  - destruct (String.eqb name "."); [discriminate|].
    destruct (String.eqb name "..").
    + destruct (node_at_removelast _ _ _ _ Hloc) as (m' & entries' & Hr).
      unfold tree_fstat. rewrite Hr. discriminate.
    + reflexivity.
Qed.

(** The resolution of a parent and the resolution of a path below it, side
    by side. *)
Lemma descend_pair {St} components : forall loc seen c name flags (s : St),
  is_directory (Some loc) ->
  let D := descend (Some loc) seen components c UnixDirectorySourceAccessor.directoryFlags s in
  let R := descend (Some loc) seen (components ++ [c]) name flags s in
  match outcome D with
  | Ok (inr fd') =>
      is_directory fd' /\ outcome R = Ok (os_openat fd' name (Z.lor flags Fcntl.O_NOFOLLOW))
  | Ok (inl e) => (e = ENOENT /\ outcome R = Ok (inl ENOENT)) \/ e = ENOTDIR \/ e = ELOOP
  | Throw _ => True
  | OutOfFuel => False
  end.
Proof.
  destruct intermediate_nofollow as (Hnf & Hdir).
  induction components as [|c0 rest IH]; intros loc seen c name flags s Hloc D R; subst D R.
  - destruct Hloc as (loc' & m & entries & [= <-] & Hloc).
    cbn [app]. rewrite descend_nil, descend_cons. cbn [outcome].
    change (Z.lor UnixDirectorySourceAccessor.directoryFlags Fcntl.O_NOFOLLOW)
      with intermediateFlags.
    pose proof (openat_directory loc m entries c intermediateFlags Hloc Hnf Hdir) as Ho.
    match type of Ho with
    | match ?x with _ => _ end => destruct x as [e|fd']
    end.
    + destruct Ho as [(-> & Hs & _) | Ho]; [|auto].
      left. split; [reflexivity|]. rewrite Hs. reflexivity.
    + split; [exact Ho|]. unfold prepend. rewrite descend_nil. reflexivity.
  - destruct Hloc as (loc' & m & entries & [= <-] & Hloc).
    cbn [app]. rewrite !descend_cons.
    pose proof (openat_directory loc m entries c0 intermediateFlags Hloc Hnf Hdir) as Ho.
    match type of Ho with
    | match ?x with _ => _ end => destruct x as [e|fd']
    end.
    + destruct (is_symlink_stat _); cbn [outcome]; [exact I|].
      destruct Ho as [(-> & _) | Ho]; auto.
    + unfold prepend. cbn [outcome].
      destruct Ho as (loc' & m' & entries' & -> & Hloc').
      apply IH. exists loc', m', entries'. auto.
Qed.

Import UnixDirectorySourceAccessor DirFacts.

(** On a tree, a non-root path whose status is absent cannot be read: the
    read fails with FileNotFound. *)
Lemma absent_not_found (a : t) anchor path fuel :
  fd a = Some anchor ->
  is_directory (Some anchor) ->
  path <> [] ->
  outcome (maybeLstat path a) = Ok None ->
  outcome (readFile fuel path a) =
    Throw (FileNotFound ("file '" +:+ showPath a path +:+ "' does not exist")).
Proof.
  intros Hfd Hanchor Hne.
  destruct (CanonPath_snoc_inv path Hne) as (parent & name & ->).
  assert (Hcons : exists c p, parent ++ [name] = c :: p).
  { destruct parent; cbn [app]; eauto. }
  destruct Hcons as (c & p & Hcp).
  pose proof (maybeLstat_child parent name a) as E. cbv zeta in E. rewrite E. clear E.
  assert (Hread : forall r,
            outcome (openFileEnsureBeneathNoSymlinks (fd a) (parent ++ [name]) fileFlags a)
              = Ok (inl ENOENT) ->
            r = readFile fuel (parent ++ [name]) a ->
            outcome r =
              Throw (FileNotFound ("file '" +:+ showPath a (parent ++ [name]) +:+
                                   "' does not exist"))).
  { intros r Hres ->. rewrite Hcp in *.
    pose proof (readFile_child fuel c p a) as E. cbv zeta in E. rewrite E, Hres. reflexivity. }
  destruct parent as [|pc pp].
  - (* the parent is the root *)
    cbn [app] in *. rewrite openParent_root_parent. cbn [outcome trace]. rewrite Hfd.
    cbn [fd_valid P posix].
    destruct Hanchor as (loc & m & entries & [= <-] & Hloc).
    match goal with
    | |- context [@os_fstatat ?Q ?d name ?f] => destruct (@os_fstatat Q d name f) as [e|st] eqn:Hs
    end; [|discriminate].
    intros _. apply (Hread _); [|reflexivity].
    change [name] with ([] ++ [name]).
    rewrite resolve_snoc, descend_nil, Hfd. cbn [outcome].
    rewrite (fstatat_fails anchor m entries name e _ Hloc Hs). reflexivity.
  - destruct (CanonPath_snoc_inv (pc :: pp) ltac:(discriminate)) as (gp & pn & Hgp).
    pose proof (openParent_eq pc pp name a) as E. cbv zeta in E. rewrite E. clear E.
    rewrite Hgp in *. rewrite resolve_snoc, Hfd.
    pose proof (descend_pair gp anchor CanonPath.root pn name fileFlags a Hanchor) as Hpair.
    cbv zeta in Hpair.
    match type of Hpair with
    | match ?x with _ => _ end => destruct x as [[e|parentFd]|e|]
    end; cbn [outcome trace].
    + destruct Hpair as [(-> & HR) | [-> | ->]]; cbn [Errno_eqb orb outcome]; try discriminate.
      cbn [fd_valid P posix INVALID_DESCRIPTOR]. intros _.
      apply (Hread _); [|reflexivity]. rewrite resolve_snoc, Hfd. exact HR.
    + destruct Hpair as ((loc & m & entries & -> & Hloc) & HR).
      cbn [fd_valid P posix].
      match goal with
      | |- context [@os_fstatat ?Q ?d name ?f] => destruct (@os_fstatat Q d name f) as [e|st] eqn:Hs
      end; [|discriminate].
      intros _. apply (Hread _); [|reflexivity]. rewrite resolve_snoc, Hfd, HR.
      rewrite (fstatat_fails loc m entries name e _ Hloc Hs). reflexivity.
    + discriminate.
    + contradiction.
Qed.

End World.
End AbsenceFacts.

(** ** More on the single-file accessor *)

Lemma to_uint64_to_off_t z : to_uint64 (to_off_t z) = to_uint64 z.
Proof.
  unfold to_uint64, to_off_t. cbv zeta.
  pose proof (Z.mod_pos_bound z (2 ^ 64) ltac:(lia)) as Hb.
  destruct (Z.ltb_spec (z mod 2 ^ 64) (2 ^ 63)).
  - apply Z.mod_mod. lia.
  - replace (z mod 2 ^ 64 - 2 ^ 64) with (z mod 2 ^ 64 + (-1) * 2 ^ 64) by lia.
    rewrite Z.mod_add by lia. apply Z.mod_mod. lia.
Qed.

Lemma to_uint64_idem z : to_uint64 (to_uint64 z) = to_uint64 z.
Proof. unfold to_uint64. apply Z.mod_mod. lia. Qed.

Lemma to_uint64_off_t_pos left :
  - 2 ^ 63 <= left < 2 ^ 63 -> left <> 0 -> 0 < to_uint64 left.
Proof.
  intros Hr Hn. unfold to_uint64.
  pose proof (Z.mod_pos_bound left (2 ^ 64) ltac:(lia)) as Hb.
  destruct (Z.eq_dec (left mod 2 ^ 64) 0) as [E|]; [|lia].
  exfalso. destruct (Z.le_gt_cases 0 left).
  - rewrite Z.mod_small in E by lia. lia.
  - replace left with ((left + 2 ^ 64) + (-1) * 2 ^ 64) in E by lia.
    rewrite Z.mod_add in E by lia. rewrite Z.mod_small in E by lia. lia.
Qed.

Module FileReadFacts.
Import UnixFileSourceAccessor FileFacts FileSession.
Section WithPosix.
Context `{Posix}.

(** [readFile] of the root, in terms of the status query it starts with. *)
Lemma readFile_root_run fuel (a : t) :
  let m := maybeLstat [] a in
  readFile fuel [] a =
    match outcome m with
    | Ok (Some s) =>
        match fileSize s with
        | Some size =>
            prepend (trace m ++ [EvSizeCallback (to_uint64 (to_off_t size))])
              (readLoop fuel 0 [] (to_off_t size) 0 (final m))
        | None => mkRun (Throw BadOptionalAccess) (final m) (trace m)
        end
    | Ok None => mkRun (Throw BadOptionalAccess) (final m) (trace m)
    | Throw e => mkRun (Throw e) (final m) (trace m)
    | OutOfFuel => mkRun OutOfFuel (final m) (trace m)
    end.
Proof.
  intros m. subst m. unfold readFile. cbn [CanonPath.isRoot negb].
  rewrite bind_eq. destruct (outcome (maybeLstat [] a)) as [[s|]|e|]; try reflexivity.
  - destruct (fileSize s) as [size|].
    + rewrite bind_eq. unfold emit at 1 2 3. cbn [outcome final trace].
      unfold prepend. cbn [outcome final trace]. rewrite <- app_assoc. reflexivity.
    + unfold prepend, throw. cbn [outcome final trace]. rewrite app_nil_r. reflexivity.
  - unfold prepend, throw. cbn [outcome final trace]. rewrite app_nil_r. reflexivity.
Qed.

(** With the status record cached, no call changes the instance. *)
Lemma perform_cached_final (op : Op) (a : t) st :
  cachedStat a = Some st -> final (perform op a) = a.
Proof.
  intros Hc. destruct op as [path|fuel path|path|path]; cbn [perform].
  - rewrite bind_eq. destruct path as [|c p].
    + rewrite (maybeLstat_cached a st Hc). reflexivity.
    + rewrite maybeLstat_nonroot_eq. reflexivity.
  - destruct path as [|c p].
    + rewrite readFile_root_run. cbv zeta. rewrite (maybeLstat_cached a st Hc).
      cbn [outcome final trace]. destruct (fileSize (posixStatToAccessorStat st)); [|reflexivity].
      unfold prepend. cbn [final]. apply readLoop_final.
    + unfold readFile. cbn [CanonPath.isRoot negb]. rewrite bind_get. reflexivity.
  - unfold readDirectory. rewrite bind_get. reflexivity.
  - rewrite bind_eq. unfold readLink. rewrite bind_get. reflexivity.
Qed.

Lemma history_cached_final (ops : list Op) : forall (a : t) st,
  cachedStat a = Some st -> fst (history ops a) = a.
Proof.
  induction ops as [|op ops IH]; intros a st Hc; [reflexivity|].
  cbn [history fst]. rewrite (perform_cached_final op a st Hc). eapply IH; eauto.
Qed.

(** The loop on a file whose reads give a non-empty run of the bytes at the
    offset asked for: what is left of the file is handed to the sink. *)
Lemma readLoop_content (data : list Byte.byte) fuel : forall n path offset (a : t),
  (forall k, os_interrupted k = false) ->
  (forall k count off,
     0 < count -> 0 <= off < Z.of_nat (length data) ->
     exists chunk rest,
       os_pread k (fd a) count off = inr chunk /\ chunk <> []
       /\ Z.of_nat (length chunk) <= count
       /\ skipn (Z.to_nat off) data = chunk ++ rest) ->
  Z.of_nat (length data) < 2 ^ 63 ->
  0 <= offset <= Z.of_nat (length data) ->
  (Z.to_nat (Z.of_nat (length data) - offset) < fuel)%nat ->
  let r := readLoop fuel n path (Z.of_nat (length data) - offset) offset a in
  outcome r = Ok tt /\ sunk (trace r) = skipn (Z.to_nat offset) data.
Proof.
  induction fuel as [|fuel IH]; intros n path offset a Hint Hrd Hlen Hoff Hfuel r; [lia|].
  subst r. rewrite readLoop_step. cbv zeta.
  destruct (Z.eqb_spec (Z.of_nat (length data) - offset) 0) as [E|E].
  - cbn [outcome trace]. split; [reflexivity|].
    rewrite skipn_all2 by lia. reflexivity.
  - rewrite Hint.
    set (left := Z.of_nat (length data) - offset) in *.
    assert (Hcount : 0 < Z.min (to_uint64 left) bufSize).
    { rewrite to_uint64_nonneg by lia. unfold bufSize. lia. }
    destruct (Hrd n (Z.min (to_uint64 left) bufSize) offset Hcount ltac:(lia))
      as (chunk & rest & -> & Hne & Hshort & Hskip).
    rewrite firstn_all2 by lia.
    assert (Hl : Z.of_nat (length chunk) <= left).
    { assert (Hcut : length (skipn (Z.to_nat offset) data) = length (chunk ++ rest))
        by (rewrite Hskip; reflexivity).
      rewrite length_skipn, length_app in Hcut. lia. }
    destruct (Z.eqb_spec (Z.of_nat (length chunk)) 0) as [E0|E0];
      [destruct chunk; [congruence | cbn in E0; lia]|].
    destruct (Z.leb_spec (Z.of_nat (length chunk)) left); [|lia]. cbn [negb].
    unfold prepend. cbn [outcome trace].
    replace (left - Z.of_nat (length chunk))
      with (Z.of_nat (length data) - (offset + Z.of_nat (length chunk))) by lia.
    destruct (IH (S n) path (offset + Z.of_nat (length chunk)) a Hint Hrd Hlen ltac:(lia)
                ltac:(lia)) as [IHo IHs].
    split; [exact IHo|].
    change ([?x; EvSink chunk] ++ ?t) with (x :: EvSink chunk :: t).
    unfold sunk in *. cbn [map List.concat sunk_of app]. rewrite IHs, Hskip.
    f_equal.
    replace (Z.to_nat (offset + Z.of_nat (length chunk)))
      with (length chunk + Z.to_nat offset)%nat by lia.
    rewrite <- skipn_skipn, Hskip, skipn_app, skipn_all, Nat.sub_diag. reflexivity.
Qed.

(** A regular file whose reads behave is delivered whole. *)
Lemma readFile_delivers (fd_ : Descriptor) (rootPath_ : CanonPath.t)
    (trackLastModified : bool) (st : posix_stat) (data : list Byte.byte) (fuel : nat) :
  os_fstat fd_ = inr st ->
  StatMode.S_ISREG (st_mode st) = true ->
  st_size st = Z.of_nat (length data) ->
  Z.of_nat (length data) < 2 ^ 63 ->
  (forall k, os_interrupted k = false) ->
  (forall k count off,
     0 < count -> 0 <= off < Z.of_nat (length data) ->
     exists chunk rest,
       os_pread k fd_ count off = inr chunk /\ chunk <> []
       /\ Z.of_nat (length chunk) <= count
       /\ skipn (Z.to_nat off) data = chunk ++ rest) ->
  (length data < fuel)%nat ->
  let r := readFile fuel [] (new fd_ rootPath_ trackLastModified None) in
  outcome r = Ok tt /\ sunk (trace r) = data /\ announced (trace r) = [Z.of_nat (length data)].
Proof.
  intros Hstat Hreg Hsize Hlen Hint Hrd Hfuel r. subst r.
  set (a := new fd_ rootPath_ trackLastModified None).
  rewrite readFile_root_run. cbv zeta.
  rewrite (maybeLstat_fresh a st eq_refl Hstat). cbn [outcome final trace].
  assert (Hfs : fileSize (posixStatToAccessorStat st) = Some (Z.of_nat (length data))).
  { unfold posixStatToAccessorStat. cbn [fileSize]. rewrite Hreg, Hsize.
    rewrite (to_uint64_nonneg (Z.of_nat (length data))) by lia. reflexivity. }
  rewrite Hfs.
  assert (Hoff : to_off_t (Z.of_nat (length data)) = Z.of_nat (length data)).
  { unfold to_off_t. cbv zeta. rewrite Z.mod_small by lia.
    destruct (Z.ltb_spec (Z.of_nat (length data)) (2 ^ 63)); lia. }
  rewrite Hoff. rewrite (to_uint64_nonneg (Z.of_nat (length data))) by lia.
  set (a' := set_base _ _).
  pose proof (readLoop_content data fuel 0 [] 0 a' Hint Hrd Hlen
                ltac:(lia) ltac:(lia)) as Hloop.
  cbv zeta in Hloop. rewrite Z.sub_0_r in Hloop. destruct Hloop as [Ho Hs].
  pose proof (readLoop_delivers fuel 0 [] (Z.of_nat (length data)) 0 a') as (Ha & _).
  unfold prepend. cbn [outcome trace].
  split; [exact Ho|]. split.
  - rewrite !sunk_app, Hs. reflexivity.
  - rewrite !announced_app, Ha. reflexivity.
Qed.

(** Reads that return the bytes asked for, up to the end of the file. *)
Lemma slice_read (data : list Byte.byte) (count off : Z) :
  0 < count -> 0 <= off < Z.of_nat (length data) ->
  let chunk := firstn (Z.to_nat count) (skipn (Z.to_nat off) data) in
  chunk <> [] /\ Z.of_nat (length chunk) <= count
  /\ skipn (Z.to_nat off) data = chunk ++ skipn (Z.to_nat count) (skipn (Z.to_nat off) data).
Proof.
  intros Hc Ho chunk. subst chunk. split; [|split].
  - intros E. apply (f_equal (@length _)) in E.
    rewrite length_firstn, length_skipn in E. cbn [length] in E. lia.
  - rewrite length_firstn. lia.
  - symmetry. apply firstn_skipn.
Qed.

(** The reads of the loop lie end to end and never ask for more than the buffer holds. *)
Lemma readLoop_positioned fuel : forall n path left offset (a : t),
  - 2 ^ 63 <= left < 2 ^ 63 ->
  reads_positioned bufSize offset (trace (readLoop fuel n path left offset a)) = true.
Proof.
  induction fuel as [|fuel IH]; intros n path left offset a Hr.
  - simpl. destruct (left =? 0); reflexivity.
  - rewrite readLoop_step. cbv zeta.
    destruct (Z.eqb_spec left 0) as [E|E]; [reflexivity|].
    destruct (os_interrupted n); [reflexivity|].
    assert (Hcount : 0 < Z.min (to_uint64 left) bufSize <= bufSize).
    { pose proof (to_uint64_off_t_pos left Hr E). unfold bufSize. lia. }
    assert (Hhead : forall rest,
      reads_positioned bufSize offset
        (EvPread (fd a) (Z.min (to_uint64 left) bufSize) offset :: rest) =
      reads_positioned bufSize offset rest).
    { intros rest. cbn [reads_positioned]. rewrite Z.eqb_refl.
      destruct (Z.ltb_spec 0 (Z.min (to_uint64 left) bufSize)); [|lia].
      destruct (Z.leb_spec (Z.min (to_uint64 left) bufSize) bufSize); [|lia]. reflexivity. }
    destruct (os_pread n (fd a) _ offset) as [e|data].
    + destruct (Errno_eqb e EINTR).
      * unfold prepend. cbn [trace app]. rewrite Hhead. apply IH. exact Hr.
      * cbn [trace]. rewrite Hhead. reflexivity.
    + set (got := firstn _ data).
      destruct (Z.eqb_spec (Z.of_nat (length got)) 0); [cbn [trace]; rewrite Hhead; reflexivity|].
      destruct (Z.leb_spec (Z.of_nat (length got)) left); cbn [negb];
        [|cbn [trace]; rewrite Hhead; reflexivity].
      unfold prepend. cbn [trace app]. rewrite Hhead. cbn [reads_positioned].
      apply IH. lia.
Qed.

(** The loop on a file whose reads are interrupted only among the first
    [bound] of them and otherwise give a non-empty run of the bytes at the
    offset asked for: what is left of the file is handed to the sink. *)
Lemma readLoop_content_retry (data : list Byte.byte) (bound : nat) fuel :
  forall n path offset (a : t),
  (forall k, os_interrupted k = false) ->
  (forall k count off,
     0 < count -> 0 <= off < Z.of_nat (length data) ->
     (os_pread k (fd a) count off = inl EINTR /\ (k < bound)%nat)
     \/ exists chunk rest,
          os_pread k (fd a) count off = inr chunk /\ chunk <> []
          /\ Z.of_nat (length chunk) <= count
          /\ skipn (Z.to_nat off) data = chunk ++ rest) ->
  Z.of_nat (length data) < 2 ^ 63 ->
  0 <= offset <= Z.of_nat (length data) ->
  (Z.to_nat (Z.of_nat (length data) - offset) + (bound - n) < fuel)%nat ->
  let r := readLoop fuel n path (Z.of_nat (length data) - offset) offset a in
  outcome r = Ok tt /\ sunk (trace r) = skipn (Z.to_nat offset) data.
Proof.
  induction fuel as [|fuel IH]; intros n path offset a Hint Hrd Hlen Hoff Hfuel r; [lia|].
  subst r. rewrite readLoop_step. cbv zeta.
  destruct (Z.eqb_spec (Z.of_nat (length data) - offset) 0) as [E|E].
  - cbn [outcome trace]. split; [reflexivity|].
    rewrite skipn_all2 by lia. reflexivity.
  - rewrite Hint.
    set (left := Z.of_nat (length data) - offset) in *.
    assert (Hcount : 0 < Z.min (to_uint64 left) bufSize).
    { rewrite to_uint64_nonneg by lia. unfold bufSize. lia. }
    destruct (Hrd n (Z.min (to_uint64 left) bufSize) offset Hcount ltac:(lia))
      as [[-> Hn] | (chunk & rest & -> & Hne & Hshort & Hskip)].
    + cbn [Errno_eqb]. unfold prepend. cbn [outcome trace app].
      destruct (IH (S n) path offset a Hint Hrd Hlen Hoff ltac:(fold left; lia)) as [IHo IHs].
      fold left in IHo, IHs. split; [exact IHo|].
      unfold sunk in *. cbn [map List.concat sunk_of app]. exact IHs.
    + rewrite firstn_all2 by lia.
      assert (Hl : Z.of_nat (length chunk) <= left).
      { assert (Hcut : length (skipn (Z.to_nat offset) data) = length (chunk ++ rest))
          by (rewrite Hskip; reflexivity).
        rewrite length_skipn, length_app in Hcut. lia. }
      destruct (Z.eqb_spec (Z.of_nat (length chunk)) 0) as [E0|E0];
        [destruct chunk; [congruence | cbn in E0; lia]|].
      destruct (Z.leb_spec (Z.of_nat (length chunk)) left); [|lia]. cbn [negb].
      unfold prepend. cbn [outcome trace].
      replace (left - Z.of_nat (length chunk))
        with (Z.of_nat (length data) - (offset + Z.of_nat (length chunk))) by lia.
      destruct (IH (S n) path (offset + Z.of_nat (length chunk)) a Hint Hrd Hlen ltac:(lia)
                  ltac:(lia)) as [IHo IHs].
      split; [exact IHo|].
      change ([?x; EvSink chunk] ++ ?t) with (x :: EvSink chunk :: t).
      unfold sunk in *. cbn [map List.concat sunk_of app]. rewrite IHs, Hskip.
      f_equal.
      replace (Z.to_nat (offset + Z.of_nat (length chunk)))
        with (length chunk + Z.to_nat offset)%nat by lia.
      rewrite <- skipn_skipn, Hskip, skipn_app, skipn_all, Nat.sub_diag. reflexivity.
Qed.

(** A regular file is delivered whole however its first reads are interrupted. *)
Lemma readFile_delivers_retry (fd_ : Descriptor) (rootPath_ : CanonPath.t)
    (trackLastModified : bool) (st : posix_stat) (data : list Byte.byte) (fuel bound : nat) :
  os_fstat fd_ = inr st ->
  StatMode.S_ISREG (st_mode st) = true ->
  st_size st = Z.of_nat (length data) ->
  Z.of_nat (length data) < 2 ^ 63 ->
  (forall k, os_interrupted k = false) ->
  (forall k count off,
     0 < count -> 0 <= off < Z.of_nat (length data) ->
     (os_pread k fd_ count off = inl EINTR /\ (k < bound)%nat)
     \/ exists chunk rest,
          os_pread k fd_ count off = inr chunk /\ chunk <> []
          /\ Z.of_nat (length chunk) <= count
          /\ skipn (Z.to_nat off) data = chunk ++ rest) ->
  (length data + bound < fuel)%nat ->
  let r := readFile fuel [] (new fd_ rootPath_ trackLastModified None) in
  outcome r = Ok tt /\ sunk (trace r) = data /\ announced (trace r) = [Z.of_nat (length data)].
Proof.
  intros Hstat Hreg Hsize Hlen Hint Hrd Hfuel r. subst r.
  set (a := new fd_ rootPath_ trackLastModified None).
  rewrite readFile_root_run. cbv zeta.
  rewrite (maybeLstat_fresh a st eq_refl Hstat). cbn [outcome final trace].
  assert (Hfs : fileSize (posixStatToAccessorStat st) = Some (Z.of_nat (length data))).
  { unfold posixStatToAccessorStat. cbn [fileSize]. rewrite Hreg, Hsize.
    rewrite (to_uint64_nonneg (Z.of_nat (length data))) by lia. reflexivity. }
  rewrite Hfs.
  assert (Hoff : to_off_t (Z.of_nat (length data)) = Z.of_nat (length data)).
  { unfold to_off_t. cbv zeta. rewrite Z.mod_small by lia.
    destruct (Z.ltb_spec (Z.of_nat (length data)) (2 ^ 63)); lia. }
  rewrite Hoff. rewrite (to_uint64_nonneg (Z.of_nat (length data))) by lia.
  set (a' := set_base _ _).
  pose proof (readLoop_content_retry data bound fuel 0 [] 0 a' Hint Hrd Hlen
                ltac:(lia) ltac:(lia)) as Hloop.
  cbv zeta in Hloop. rewrite Z.sub_0_r in Hloop. destruct Hloop as [Ho Hs].
  pose proof (readLoop_delivers fuel 0 [] (Z.of_nat (length data)) 0 a') as (Ha & _).
  unfold prepend. cbn [outcome trace].
  split; [exact Ho|]. split.
  - rewrite !sunk_app, Hs. reflexivity.
  - rewrite !announced_app, Ha. reflexivity.
Qed.

(** What one call leaves of an instance that holds no status record yet: the
    instance itself, or the instance with the record the query returned. *)
Lemma perform_fresh_final (op : Op) (a : t) :
  cachedStat a = None ->
  final (perform op a) = a
  \/ exists st, os_fstat (fd a) = inr st
                /\ final (perform op a) =
                     set_base (Base.updateMtime (base a) (st_mtime st)) (set_cachedStat st a).
Proof.
  intros Hc. destruct op as [path|fuel path|path|path]; cbn [perform].
  - rewrite bind_eq. destruct path as [|c p].
    + destruct (maybeLstat_root_cases a)
        as [(st & E & Hs) | [(st & E & _ & Hs) | (e & E & _)]]; rewrite E;
        cbn [outcome final]; [congruence | right; eauto | left; reflexivity].
    + rewrite maybeLstat_nonroot_eq. left. reflexivity.
  - destruct path as [|c p].
    + rewrite readFile_root_run. cbv zeta.
      destruct (maybeLstat_root_cases a)
        as [(st & E & Hs) | [(st & E & _ & Hs) | (e & E & _)]]; rewrite E;
        cbn [outcome final trace]; [congruence | | left; reflexivity].
      right. exists st. split; [exact Hs|].
      destruct (fileSize (posixStatToAccessorStat st)); [|reflexivity].
      unfold prepend. cbn [final]. apply readLoop_final.
    + unfold readFile. cbn [CanonPath.isRoot negb]. rewrite bind_get. left. reflexivity.
  - unfold readDirectory. rewrite bind_get. left. reflexivity.
  - rewrite bind_eq. unfold readLink. rewrite bind_get. left. reflexivity.
Qed.

(** The last-modified time of a single-file accessor is decided by the status
    record it holds, and the record is the prefetched one or the file's. *)
Lemma history_file_mtime (fd_ : Descriptor) (trackLastModified : bool)
    (prefetched : option posix_stat) (ops : list Op) : forall a : t,
  fd a = fd_ ->
  Base.trackLastModified (base a) = trackLastModified ->
  Base.mtime (base a) =
    (if trackLastModified
     then match cachedStat a with Some st => Z.max 0 (st_mtime st) | None => 0 end
     else 0) ->
  match cachedStat a with
  | Some st => prefetched = Some st \/ (prefetched = None /\ os_fstat fd_ = inr st)
  | None => prefetched = None
  end ->
  let a' := fst (history ops a) in
  getLastModified a' =
    (if trackLastModified
     then Some match cachedStat a' with Some st => Z.max 0 (st_mtime st) | None => 0 end
     else None)
  /\ match cachedStat a' with
     | Some st => prefetched = Some st \/ (prefetched = None /\ os_fstat fd_ = inr st)
     | None => prefetched = None
     end.
Proof.
  induction ops as [|op ops IH]; intros a Hfd Ht Hm Hrec a'; subst a'.
  - cbn [history fst]. split; [|exact Hrec].
    unfold getLastModified, Base.getLastModified. rewrite Ht, Hm.
    destruct trackLastModified; reflexivity.
  - cbn [history fst]. destruct (cachedStat a) as [st|] eqn:Hc.
    + rewrite (perform_cached_final op a st Hc). apply IH; rewrite ?Hc; auto.
    + destruct (perform_fresh_final op a Hc) as [-> | (st & Hs & ->)].
      * apply IH; rewrite ?Hc; auto.
      * apply IH; cbn [fd base cachedStat set_base set_cachedStat].
        -- exact Hfd.
        -- unfold Base.updateMtime. rewrite Ht.
           destruct trackLastModified; cbn [Base.trackLastModified]; [reflexivity | exact Ht].
        -- unfold Base.updateMtime. rewrite Ht.
           destruct trackLastModified; cbn [Base.mtime]; rewrite Hm; reflexivity.
        -- right. split; [exact Hrec|]. rewrite <- Hfd. exact Hs.
Qed.

End WithPosix.
End FileReadFacts.

(** ** Which calls an operation makes *)

Section CallFacts.
Context `{Posix}.

Lemma nofollow_call_follows tr :
  forallb nofollow_call tr = true -> forallb follows_no_symlink tr = true.
Proof.
  induction tr as [|ev tr IH]; [reflexivity|]. cbn [forallb].
  intros [Hev Htr]%andb_prop. rewrite (IH Htr), andb_true_r.
  destruct ev; try discriminate; exact Hev.
Qed.

Lemma file_readLoop_by_descriptor fuel : forall n path left offset (a : UnixFileSourceAccessor.t),
  forallb follows_no_symlink
    (trace (UnixFileSourceAccessor.readLoop fuel n path left offset a)) = true.
Proof.
  induction fuel as [|fuel IH]; intros n path left offset a.
  - simpl. destruct (left =? 0); reflexivity.
  - rewrite FileFacts.readLoop_step. cbv zeta.
    destruct (left =? 0); [reflexivity|].
    destruct (os_interrupted n); [reflexivity|].
    destruct (os_pread n (UnixFileSourceAccessor.fd a) _ offset) as [e|data].
    + destruct (Errno_eqb e EINTR); [|reflexivity].
      unfold prepend. cbn [trace app forallb follows_no_symlink]. apply IH.
    + set (got := firstn _ data).
      destruct (Z.of_nat (length got) =? 0); [reflexivity|].
      destruct (negb _); [reflexivity|].
      unfold prepend. cbn [trace app forallb follows_no_symlink]. apply IH.
Qed.

Lemma file_readFile_by_descriptor fuel path (a : UnixFileSourceAccessor.t) :
  forallb follows_no_symlink (trace (UnixFileSourceAccessor.readFile fuel path a)) = true.
Proof.
  destruct path as [|c p].
  - rewrite FileReadFacts.readFile_root_run. cbv zeta.
    assert (Hm : forallb follows_no_symlink
                   (trace (UnixFileSourceAccessor.maybeLstat [] a)) = true).
    { destruct (FileFacts.maybeLstat_root_cases a)
        as [(st & E & _) | [(st & E & _) | (e & E & _)]]; rewrite E; reflexivity. }
    destruct (outcome (UnixFileSourceAccessor.maybeLstat [] a)) as [[s|]|e|]; try exact Hm.
    destruct (fileSize s) as [size|]; [|exact Hm].
    unfold prepend. cbn [trace]. rewrite !forallb_app, Hm. cbn [forallb follows_no_symlink andb].
    apply file_readLoop_by_descriptor.
  - unfold UnixFileSourceAccessor.readFile. cbn [CanonPath.isRoot negb].
    rewrite bind_get. reflexivity.
Qed.

Lemma readEntries_by_descriptor dir dirents : forall n entries (a : UnixDirectorySourceAccessor.t),
  forallb follows_no_symlink
    (trace (UnixDirectorySourceAccessor.readEntries dir n dirents entries a)) = true.
Proof.
  induction dirents as [|d rest IH]; intros n entries a.
  - rewrite ListingFacts.readEntries_nil. reflexivity.
  - rewrite ListingFacts.readEntries_cons.
    destruct (os_interrupted n); [reflexivity|].
    unfold prepend. cbn [trace app forallb follows_no_symlink andb]. apply IH.
Qed.

End CallFacts.

Module DirCallFacts.
Import UnixDirectorySourceAccessor DirFacts ListingFacts.
Section WithPosix.
Context `{Posix}.

Lemma readLink_root (a : t) :
  readLink [] a =
    mkRun (Throw (NotASymlink ("file '" +:+ showPath a [] +:+ "' is not a symlink"))) a [].
Proof.
  unfold readLink. rewrite guarded_eq. rewrite bind_get. cbn [CanonPath.isRoot].
  reflexivity.
Qed.

Lemma maybeLstat_never_follows c p (a : t) :
  forallb follows_no_symlink (trace (maybeLstat (c :: p) a)) = true.
Proof.
  destruct (CanonPath_snoc_inv (c :: p) ltac:(discriminate)) as (parent & name & ->).
  pose proof (maybeLstat_child parent name a) as E. cbv zeta in E. rewrite E. clear E.
  pose proof (nofollow_call_follows _ (openParent_nofollow parent name a)) as Hp.
  destruct (outcome (openParent (parent ++ [name]) a)) as [parentFd|e|]; try exact Hp.
  destruct (fd_valid parentFd); [|exact Hp].
  destruct (os_fstatat parentFd name Fcntl.AT_SYMLINK_NOFOLLOW);
    cbn [trace]; rewrite forallb_app, Hp; reflexivity.
Qed.

Lemma readLink_never_follows c p (a : t) :
  forallb follows_no_symlink (trace (readLink (c :: p) a)) = true.
Proof.
  destruct (CanonPath_snoc_inv (c :: p) ltac:(discriminate)) as (parent & name & ->).
  pose proof (readLink_child parent name a) as E. cbv zeta in E. rewrite E. clear E.
  pose proof (nofollow_call_follows _ (openParent_nofollow parent name a)) as Hp.
  destruct (outcome (openParent (parent ++ [name]) a)) as [parentFd|e|]; try exact Hp.
  destruct (fd_valid parentFd); [|exact Hp].
  destruct (os_readlinkat parentFd name);
    cbn [trace]; rewrite forallb_app, Hp; reflexivity.
Qed.

Lemma readFile_never_follows fuel c p (a : t) :
  forallb follows_no_symlink (trace (readFile fuel (c :: p) a)) = true.
Proof.
  pose proof (readFile_child fuel c p a) as E. cbv zeta in E. rewrite E. clear E.
  pose proof (nofollow_call_follows _ (resolve_nofollow (c :: p) (fd a) fileFlags a)) as Hp.
  destruct (outcome (openFileEnsureBeneathNoSymlinks _ _ _ _)) as [[e|fileFd]|e|];
    try exact Hp.
  pose proof (file_readFile_by_descriptor fuel CanonPath.root
                (UnixFileSourceAccessor.new fileFd (CanonPath.concat (rootPath a) (c :: p))
                   (Base.trackLastModified (base a)) None)) as Hf.
  destruct (outcome (UnixFileSourceAccessor.readFile _ _ _)) as [u|e|];
    cbn [trace]; rewrite forallb_app, Hp; exact Hf.
Qed.

Lemma readDirectory_never_follows c p (a : t) :
  forallb follows_no_symlink (trace (readDirectory (c :: p) a)) = true.
Proof.
  pose proof (readDirectory_eq (c :: p) a) as E. cbv zeta in E. rewrite E. clear E.
  cbn [CanonPath.isRoot].
  pose proof (nofollow_call_follows _ (resolve_nofollow (c :: p) (fd a) directoryFlags a)) as Hp.
  destruct (outcome (openFileEnsureBeneathNoSymlinks _ _ _ _)) as [[e|dirFd]|e|];
    try exact Hp.
  destruct (os_fdopendir dirFd) as [e|dir];
    [cbn [trace]; rewrite forallb_app, Hp; reflexivity|].
  pose proof (readEntries_by_descriptor dir (fst (os_readdir dir)) 0 ∅ a) as Hl.
  destruct (outcome (readEntries _ _ _ _ _)) as [entries|e|];
    [destruct (snd (os_readdir dir))| |];
    cbn [trace]; rewrite forallb_app, Hp; cbn [forallb follows_no_symlink andb]; exact Hl.
Qed.

(** A call that does not deliver leaves the instance as it was. *)
Lemma maybeLstat_final path (a : t) :
  final (maybeLstat path a) = a \/ exists s, outcome (maybeLstat path a) = Ok (Some s).
Proof.
  destruct path as [|c p].
  - rewrite maybeLstat_root. destruct (os_fstat (fd a)); cbn [outcome final]; eauto.
  - destruct (CanonPath_snoc_inv (c :: p) ltac:(discriminate)) as (parent & name & ->).
    pose proof (maybeLstat_child parent name a) as E. cbv zeta in E. rewrite E. clear E.
    destruct (openParent_result parent name a) as [Hf _].
    destruct (outcome (openParent (parent ++ [name]) a)) as [parentFd|e|]; auto.
    destruct (fd_valid parentFd); auto.
    destruct (os_fstatat parentFd name Fcntl.AT_SYMLINK_NOFOLLOW); cbn [outcome final]; eauto.
Qed.

Lemma readFile_final fuel path (a : t) :
  final (readFile fuel path a) = a \/ outcome (readFile fuel path a) = Ok tt.
Proof.
  destruct path as [|c p]; [rewrite readFile_root; auto|].
  pose proof (readFile_child fuel c p a) as E. cbv zeta in E. rewrite E. clear E.
  destruct (outcome (openFileEnsureBeneathNoSymlinks _ _ _ _)) as [[e|fileFd]|e|]; auto.
  destruct (outcome (UnixFileSourceAccessor.readFile _ _ _)) as [[]|e|]; auto.
Qed.

Lemma readDirectory_final path (a : t) : final (readDirectory path a) = a.
Proof.
  pose proof (readDirectory_eq path a) as E. cbv zeta in E. rewrite E. clear E.
  repeat match goal with
         | |- context [match ?x with _ => _ end] => destruct x
         end; reflexivity.
Qed.

Lemma readLink_final path (a : t) : final (readLink path a) = a.
Proof.
  destruct path as [|c p]; [rewrite readLink_root; reflexivity|].
  destruct (CanonPath_snoc_inv (c :: p) ltac:(discriminate)) as (parent & name & ->).
  pose proof (readLink_child parent name a) as E. cbv zeta in E. rewrite E. clear E.
  repeat match goal with
         | |- context [match ?x with _ => _ end] => destruct x
         | |- context [if ?x then _ else _] => destruct x
         end; reflexivity.
Qed.

End WithPosix.
End DirCallFacts.

(** ** Entries that exist, on a directory tree *)

Section QuietCalls.
Context `{Posix}.

(** Calls by name hand nothing to the sink and announce nothing. *)
Lemma nofollow_call_quiet tr :
  forallb nofollow_call tr = true -> sunk tr = [] /\ announced tr = [].
Proof.
  induction tr as [|ev tr IH]; [split; reflexivity|]. cbn [forallb].
  intros [Hev Htr]%andb_prop. destruct (IH Htr) as [Hs Ha].
  unfold sunk, announced in *. cbn [map List.concat].
  rewrite Hs, Ha. destruct ev; try discriminate; split; reflexivity.
Qed.

End QuietCalls.

Module TreeAccessFacts.
Import TreeFS TreeFacts.

(** The entries a directory stream yields, looked up by name. *)
Lemma find_stored entries name :
  List.find (fun d => String.eqb (Dirent.d_name d) name)
    (map (fun e => Dirent.mk (fst e) (node_d_type (snd e))) (stored entries)) =
  option_map (fun x => Dirent.mk name (node_d_type x)) (child entries name).
Proof.
  induction entries as [|[k x] entries IH]; [reflexivity|].
  unfold stored in *. rewrite filter_cons. cbn [child fst snd].
  destruct (is_dot k) eqn:Hdot.
  - destruct (decide _) as [Hd|Hd]; [destruct Hd | exact IH].
  - destruct (decide _) as [Hd|Hd]; [|exfalso; apply Hd; exact I].
    cbn [map List.find Dirent.d_name fst snd].
    destruct (String.eqb_spec k name) as [->|Hne]; [reflexivity | exact IH].
Qed.

Lemma child_not_dot entries name x : child entries name = Some x -> is_dot name = false.
Proof.
  induction entries as [|[k y] entries IH]; [discriminate|]. cbn [child].
  destruct (is_dot k) eqn:Hdot; [exact IH|].
  destruct (String.eqb_spec k name) as [->|Hne]; [intros _; exact Hdot | exact IH].
Qed.

Lemma child_of_dot entries name : is_dot name = true -> child entries name = None.
Proof.
  intros Hdot. destruct (child entries name) as [x|] eqn:E; [|reflexivity].
  apply child_not_dot in E. congruence.
Qed.

Lemma direntType_node x :
  direntType (node_d_type x) =
    Some match x with
         | Reg _ _ _ => tRegular
         | Dir _ _ => tDirectory
         | Lnk _ _ => tSymlink
         | Special CharDevice _ => tChar
         | Special BlockDevice _ => tBlock
         | Special Fifo _ => tFifo
         | Special Socket _ => tSocket
         end.
Proof. destruct x as [| | |[]]; reflexivity. Qed.

Section World.
Variable platform : Platform.
Variable world : node.

Let P : Posix := TreeFS.posix platform world.
#[local] Existing Instance P.

(** The resolution of a path that names an entry of the tree. *)
Lemma resolve_reaches {St} anchor (path : CanonPath.t) flags n (s : St) :
  path <> [] ->
  node_at world (anchor ++ path) = Some n ->
  outcome (openFileEnsureBeneathNoSymlinks (Some anchor) path flags s) =
    Ok match n with
       | Dir _ _ => inr (Some (anchor ++ path))
       | Lnk _ _ => inl (nofollow_errno platform (Z.lor flags Fcntl.O_NOFOLLOW))
       | _ =>
           if Fcntl.has (Z.lor flags Fcntl.O_NOFOLLOW) Fcntl.O_DIRECTORY
           then inl ENOTDIR else inr (Some (anchor ++ path))
       end.
Proof.
  intros Hne Hn. destruct (CanonPath_snoc_inv path Hne) as (parent & name & ->).
  rewrite resolve_snoc.
  exact (descend_onto platform world parent anchor CanonPath.root name flags n s Hn).
Qed.

Import UnixDirectorySourceAccessor DirFacts.

Lemma openParent_reaches (a : t) anchor parent name m entries :
  fd a = Some anchor ->
  node_at world (anchor ++ parent) = Some (Dir m entries) ->
  outcome (openParent (parent ++ [name]) a) = Ok (Some (anchor ++ parent)).
Proof.
  intros Hfd Hn. destruct parent as [|c p].
  - cbn [app]. rewrite openParent_root_parent. cbn [outcome]. rewrite Hfd, app_nil_r.
    reflexivity.
  - pose proof (openParent_eq c p name a) as E. cbv zeta in E. rewrite E. clear E.
    rewrite Hfd.
    rewrite (resolve_reaches anchor (c :: p) directoryFlags _ a ltac:(discriminate) Hn).
    reflexivity.
Qed.

(** The status of an entry of the tree. *)
Lemma maybeLstat_reaches (a : t) anchor path n :
  fd a = Some anchor ->
  node_at world (anchor ++ path) = Some n ->
  maybeLstat path a =
    mkRun (Ok (Some (posixStatToAccessorStat (node_stat n))))
      (set_base (Base.updateMtime (base a) (node_mtime n)) a)
      (trace (maybeLstat path a)).
Proof.
  intros Hfd Hn.
  assert (Hm : st_mtime (node_stat n) = node_mtime n) by (destruct n; reflexivity).
  destruct path as [|c p].
  - rewrite app_nil_r in Hn. rewrite maybeLstat_root, Hfd.
    cbn [os_fstat P posix].
    unfold tree_fstat. rewrite Hn. cbn [trace]. rewrite Hm. reflexivity.
  - destruct (CanonPath_snoc_inv (c :: p) ltac:(discriminate)) as (parent & name & E).
    rewrite E in *. clear E c p. rewrite app_assoc in Hn.
    destruct (node_at_snoc _ _ _ _ Hn) as (m & entries & Hloc & Hc).
    pose proof (maybeLstat_child parent name a) as E. cbv zeta in E. rewrite E. clear E.
    rewrite (openParent_reaches a anchor parent name m entries Hfd Hloc).
    cbn [fd_valid P posix].
    pose proof (fstatat_entry platform world (anchor ++ parent) m entries name n Hloc Hc) as Hs.
    change (TreeFS.posix platform world) with P in Hs. rewrite Hs.
    cbn [trace]. rewrite Hm. reflexivity.
Qed.

(** The link target of an entry of the tree. *)
Lemma readLink_reaches (a : t) anchor parent name n :
  fd a = Some anchor ->
  node_at world (anchor ++ parent ++ [name]) = Some n ->
  outcome (readLink (parent ++ [name]) a) =
    match n with
    | Lnk _ target => Ok target
    | _ => Throw (NotASymlink ("file '" +:+ showPath a (parent ++ [name]) +:+
                               "' is not a symlink"))
    end.
Proof.
  intros Hfd Hn. rewrite app_assoc in Hn.
  destruct (node_at_snoc _ _ _ _ Hn) as (m & entries & Hloc & Hc).
  pose proof (readLink_child parent name a) as E. cbv zeta in E. rewrite E. clear E.
  rewrite (openParent_reaches a anchor parent name m entries Hfd Hloc).
  cbn [fd_valid P posix].
  cbn [os_readlinkat P posix].
  unfold tree_readlinkat. rewrite Hloc, Hc. destruct n; reflexivity.
Qed.

(** Reading a regular file of the tree. *)
Lemma readFile_reaches (a : t) anchor c p executable mtime data fuel :
  fd a = Some anchor ->
  node_at world (anchor ++ c :: p) = Some (Reg executable mtime data) ->
  Z.of_nat (length data) < 2 ^ 63 ->
  (length data < fuel)%nat ->
  let r := readFile fuel (c :: p) a in
  outcome r = Ok tt /\ sunk (trace r) = data /\ announced (trace r) = [Z.of_nat (length data)].
Proof.
  intros Hfd Hn Hlen Hfuel r. subst r.
  pose proof (readFile_child fuel c p a) as E. cbv zeta in E. rewrite E. clear E.
  pose proof (resolve_nofollow (c :: p) (fd a) fileFlags a) as Hq.
  apply nofollow_call_quiet in Hq. destruct Hq as [Hqs Hqa].
  revert Hqs Hqa. rewrite Hfd.
  rewrite (resolve_reaches anchor (c :: p) fileFlags _ a ltac:(discriminate) Hn).
  change (Fcntl.has (Z.lor fileFlags Fcntl.O_NOFOLLOW) Fcntl.O_DIRECTORY) with false.
  cbv iota. intros Hqs Hqa.
  destruct (FileReadFacts.readFile_delivers (Some (anchor ++ c :: p) : @Descriptor P)
              (CanonPath.concat (rootPath a) (c :: p)) (Base.trackLastModified (base a))
              (node_stat (Reg executable mtime data)) data fuel) as (Ho & Hs & Ha).
  - cbn [os_fstat P posix].
    unfold tree_fstat. rewrite Hn. reflexivity.
  - destruct executable; reflexivity.
  - reflexivity.
  - exact Hlen.
  - reflexivity.
  - intros k count off Hc Ho.
    destruct (FileReadFacts.slice_read data count off Hc Ho) as (Hne & Hshort & Hcut).
    eexists _, _. split; [|split; [exact Hne | split; [exact Hshort | exact Hcut]]].
    cbn [os_pread P posix].
    unfold tree_pread. rewrite Hn. reflexivity.
  - exact Hfuel.
  - unfold CanonPath.root. rewrite Ho. cbn [outcome trace].
    rewrite sunk_app, announced_app, Hqs, Hqa, Hs, Ha. repeat split.
Qed.

(** Listing a directory of the tree. *)
Lemma readDirectory_reaches (a : t) anchor path m entries :
  fd a = Some anchor ->
  node_at world (anchor ++ path) = Some (Dir m entries) ->
  exists listing,
    outcome (readDirectory path a) = Ok listing
    /\ forall name,
         listing !! name = option_map (fun x => direntType (node_d_type x)) (child entries name).
Proof.
  intros Hfd Hn.
  pose proof (ListingFacts.readDirectory_eq path a) as E. cbv zeta in E. rewrite E. clear E.
  assert (Hopen :
    outcome ((if CanonPath.isRoot path
              then sys_openat (fd a) "."
                     (Z.lor Fcntl.O_DIRECTORY (Z.lor Fcntl.O_RDONLY Fcntl.O_CLOEXEC))
              else openFileEnsureBeneathNoSymlinks (fd a) path directoryFlags) a) =
    Ok (inr (Some (anchor ++ path)))).
  { rewrite Hfd. destruct path as [|c p]; cbn [CanonPath.isRoot].
    - rewrite app_nil_r in *. unfold sys_openat. cbn [outcome].
      cbn [os_openat P posix].
      unfold tree_openat. rewrite Hn.
      rewrite (child_of_dot entries "." eq_refl). reflexivity.
    - rewrite (resolve_reaches anchor (c :: p) directoryFlags _ a ltac:(discriminate) Hn).
      reflexivity. }
  rewrite Hopen.
  cbn [os_fdopendir P posix].
  unfold tree_fdopendir. rewrite Hn.
  cbn [os_readdir P posix].
  unfold tree_readdir. rewrite Hn. cbn [fst snd].
  set (dirents := Dirent.mk "." Dirent.DT_DIR :: Dirent.mk ".." Dirent.DT_DIR :: _).
  pose proof (ListingFacts.readEntries_result (Some (anchor ++ path)) dirents 0 ∅ a) as Hl.
  cbv zeta in Hl. destruct Hl as (_ & _ & Hl).
  assert (Hni : forall ds n es,
            outcome (readEntries (Some (anchor ++ path)) n ds es a) <> Throw Interrupted).
  { induction ds as [|d ds IH]; intros n es.
    - rewrite ListingFacts.readEntries_nil. discriminate.
    - rewrite ListingFacts.readEntries_cons. cbn [os_interrupted P posix].
      unfold prepend. cbn [outcome]. apply IH. }
  match type of Hl with
  | match ?x with _ => _ end => destruct x as [listing|e|] eqn:Eo
  end.
  - exists listing. split; [reflexivity|]. intros name. rewrite Hl, lookup_empty.
    destruct (String.eqb name "." || String.eqb name "..") eqn:Hdots.
    + rewrite child_of_dot; [reflexivity|].
      apply orb_prop in Hdots. destruct Hdots as [->%String.eqb_eq | ->%String.eqb_eq];
        reflexivity.
    + apply orb_false_elim in Hdots. destruct Hdots as [Hd1 Hd2].
      subst dirents. cbn [List.find Dirent.d_name].
      rewrite (String.eqb_sym "." name), Hd1, (String.eqb_sym ".." name), Hd2.
      rewrite find_stored. destruct (child entries name); reflexivity.
  - subst e. destruct (Hni dirents 0%nat ∅ Eo).
  - destruct Hl.
Qed.

(** Reading a symlink of the tree as a file. *)
Lemma readFile_of_symlink (a : t) anchor c p mtime target fuel :
  fd a = Some anchor ->
  node_at world (anchor ++ c :: p) = Some (Lnk mtime target) ->
  outcome (readFile fuel (c :: p) a) =
    Throw (NotARegularFile ("'" +:+ showPath a (c :: p) +:+
                            "' is a symlink, not a regular file")).
Proof.
  intros Hfd Hn.
  pose proof (readFile_child fuel c p a) as E. cbv zeta in E. rewrite E. clear E.
  rewrite Hfd.
  rewrite (resolve_reaches anchor (c :: p) fileFlags _ a ltac:(discriminate) Hn).
  reflexivity.
Qed.

(** Listing an entry of the tree that is not a directory. *)
Lemma readDirectory_of_other (a : t) anchor c p n :
  fd a = Some anchor ->
  node_at world (anchor ++ c :: p) = Some n ->
  match n with
  | Dir _ _ => True
  | Lnk _ _ =>
      outcome (readDirectory (c :: p) a) =
        Throw match platform with
              | Linux => NotADirectory ("'" +:+ showPath a (c :: p) +:+ "' is not a directory")
              | Darwin =>
                  SysError (Some ELOOP) ("opening directory '" +:+ showPath a (c :: p) +:+ "'")
              end
  | _ =>
      outcome (readDirectory (c :: p) a) =
        Throw (NotADirectory ("'" +:+ showPath a (c :: p) +:+ "' is not a directory"))
  end.
Proof.
  intros Hfd Hn.
  pose proof (ListingFacts.readDirectory_eq (c :: p) a) as E. cbv zeta in E. rewrite E. clear E.
  cbn [CanonPath.isRoot]. rewrite Hfd.
  rewrite (resolve_reaches anchor (c :: p) directoryFlags _ a ltac:(discriminate) Hn).
  destruct n; try exact I; try reflexivity.
  destruct platform; reflexivity.
Qed.

End World.
End TreeAccessFacts.

(** ** The entry point, case by case *)

Section EntryPointFacts.
Context `{Posix}.

Lemma makeFSSourceAccessor_run (process : Process) (parent : CanonPath.t) (name : string)
    (trackLastModified : bool) :
  let flags := Z.lor Fcntl.O_RDONLY (Z.lor Fcntl.O_CLOEXEC Fcntl.O_NOFOLLOW) in
  let parentFlags := Z.lor Fcntl.O_RDONLY (Z.lor Fcntl.O_DIRECTORY Fcntl.O_CLOEXEC) in
  let dummy rootPath :=
    MemoryAccessor (MemorySourceAccessor.setPathDisplay (CanonPath.abs rootPath)
                      MemorySourceAccessor.empty) in
  makeFSSourceAccessor (@Some CanonPath.t (parent ++ [name])) trackLastModified process =
  match os_open (CanonPath.abs (parent ++ [name])) flags with
  | inl e =>
      if Errno_eqb e ELOOP then
        match os_open (CanonPath.abs parent) parentFlags with
        | inl _ =>
            mkRun (Ok (dummy (parent ++ [name]))) process
              [EvOpen (CanonPath.abs (parent ++ [name])) flags;
               EvOpen (CanonPath.abs parent) parentFlags]
        | inr parentFd =>
            match os_fstatat parentFd name Fcntl.AT_SYMLINK_NOFOLLOW with
            | inl _ =>
                mkRun (Ok (dummy (parent ++ [name]))) process
                  [EvOpen (CanonPath.abs (parent ++ [name])) flags;
                   EvOpen (CanonPath.abs parent) parentFlags;
                   EvFstatat parentFd name Fcntl.AT_SYMLINK_NOFOLLOW]
            | inr st =>
                match os_readlinkat parentFd name with
                | inl e' =>
                    mkRun (Throw (SysError (Some e')
                                    ("reading symbolic link '" +:+ name +:+ "'")))
                      process
                      [EvOpen (CanonPath.abs (parent ++ [name])) flags;
                       EvOpen (CanonPath.abs parent) parentFlags;
                       EvFstatat parentFd name Fcntl.AT_SYMLINK_NOFOLLOW;
                       EvReadlinkat parentFd name]
                | inr target =>
                    mkRun (Ok (SymlinkAccessor
                                 (SymlinkSourceAccessor.new target (parent ++ [name])
                                    trackLastModified (st_mtime st))))
                      process
                      [EvOpen (CanonPath.abs (parent ++ [name])) flags;
                       EvOpen (CanonPath.abs parent) parentFlags;
                       EvFstatat parentFd name Fcntl.AT_SYMLINK_NOFOLLOW;
                       EvReadlinkat parentFd name]
                end
            end
        end
      else mkRun (Ok (dummy (parent ++ [name]))) process
             [EvOpen (CanonPath.abs (parent ++ [name])) flags]
  | inr fd =>
      match os_fstat fd with
      | inl e =>
          mkRun (Throw (SysError (Some e)
                          ("statting '" +:+ CanonPath.abs (parent ++ [name]) +:+ "'")))
            process [EvOpen (CanonPath.abs (parent ++ [name])) flags; EvFstat fd]
      | inr st =>
          mkRun (Ok (if StatMode.S_ISDIR (st_mode st)
                     then DirectoryAccessor
                            (UnixDirectorySourceAccessor.new fd (parent ++ [name])
                               trackLastModified)
                     else if StatMode.S_ISREG (st_mode st)
                     then FileAccessor
                            (UnixFileSourceAccessor.new fd (parent ++ [name])
                               trackLastModified (Some st))
                     else makeEmptySourceAccessor))
            process [EvOpen (CanonPath.abs (parent ++ [name])) flags; EvFstat fd]
      end
  end.
Proof.
  intros flags parentFlags dummy.
  unfold makeFSSourceAccessor.
  rewrite CanonPath_isRoot_snoc, CanonPath_parent_snoc, CanonPath_baseName_snoc.
  unfold bind, sys_open, sys_fstat, sys_fstatat, readLinkAt, sys_readlinkat, ret, throw.
  cbn [outcome final trace]. fold flags.
  destruct (os_open (CanonPath.abs (parent ++ [name])) flags) as [e|fd];
    cbn [outcome final trace].
  - destruct (Errno_eqb e ELOOP); cbn [outcome final trace]; [|reflexivity].
    fold parentFlags.
    destruct (os_open (CanonPath.abs parent) parentFlags) as [e'|parentFd];
      cbn [outcome final trace]; [reflexivity|].
    destruct (os_fstatat parentFd name Fcntl.AT_SYMLINK_NOFOLLOW) as [e'|st];
      cbn [outcome final trace]; [reflexivity|].
    change (CanonPath.rel [name]) with name.
    destruct (os_readlinkat parentFd name); reflexivity.
  - destruct (os_fstat fd) as [e|st]; cbn [outcome final trace]; [reflexivity|].
    destruct (StatMode.S_ISDIR (st_mode st)); [reflexivity|].
    destruct (StatMode.S_ISREG (st_mode st)); reflexivity.
Qed.

Lemma mode_regular_not_directory m : StatMode.S_ISREG m = true -> StatMode.S_ISDIR m = false.
Proof.
  unfold StatMode.S_ISREG, StatMode.S_ISDIR. intros E%Z.eqb_eq. rewrite E. reflexivity.
Qed.

End EntryPointFacts.

(** * The claims *)



(** C6 (as amended).  Once the single-file accessor holds a status record
    (prefetched at construction, or stored by the first query that succeeds)
    no call ever issues a status query again and [maybeLstat] of the root
    returns that record without a system call; a [maybeLstat] that succeeds
    has stored what it returns; when the query succeeds it is issued at most
    once over any sequence of calls; a query that fails throws and stores
    nothing. *)
Theorem C6_status_query_cached `{Posix} (a : UnixFileSourceAccessor.t) (ops : list FileSession.Op) :
  (forall st,
     UnixFileSourceAccessor.cachedStat a = Some st ->
     status_queries (snd (FileSession.history ops a)) = 0%nat
     /\ UnixFileSourceAccessor.maybeLstat [] (fst (FileSession.history ops a)) =
          mkRun (Ok (Some (posixStatToAccessorStat st))) (fst (FileSession.history ops a)) [])
  /\ (forall fd rootPath track st,
        UnixFileSourceAccessor.cachedStat (UnixFileSourceAccessor.new fd rootPath track (Some st))
          = Some st)
  /\ (forall r,
        outcome (UnixFileSourceAccessor.maybeLstat [] a) = Ok (Some r) ->
        exists st,
          UnixFileSourceAccessor.cachedStat (final (UnixFileSourceAccessor.maybeLstat [] a)) = Some st
          /\ r = posixStatToAccessorStat st)
  /\ (forall st,
        os_fstat (UnixFileSourceAccessor.fd a) = inr st ->
        (status_queries (snd (FileSession.history ops a)) <= 1)%nat)
  /\ (forall e,
        UnixFileSourceAccessor.cachedStat a = None ->
        os_fstat (UnixFileSourceAccessor.fd a) = inl e ->
        UnixFileSourceAccessor.maybeLstat [] a =
          mkRun (Throw (SysError (Some e)
                          ("statting file '" +:+ UnixFileSourceAccessor.displayPrefix a +:+ "'")))
            a [EvFstat (UnixFileSourceAccessor.fd a)]).
Proof.
  split; [|split; [|split; [|split]]].
  - intros st Hc. destruct (FileSessionFacts.history_cached ops a st Hc) as (Hc' & Hq).
    split; [exact Hq|]. now apply FileFacts.maybeLstat_cached.
  - intros fd rootPath track st. reflexivity.
  - intros r Hr.
    destruct (FileFacts.maybeLstat_root_cases a)
      as [(st & E & Hc) | [(st & E & Hc & Hs) | (e & E & Hc & Hs)]];
      rewrite E in Hr |- *; cbn [outcome final] in *.
    + exists st. split; [exact Hc | congruence].
    + exists st. split; [reflexivity | congruence].
    + discriminate.
  - intros st Hs. now apply (FileSessionFacts.history_query_once ops a st).
  - intros e Hc Hs. now apply FileFacts.maybeLstat_failed.
Qed.

(** In the scenario, a file accessor on [/a/b] asked for its status three
    times and read once queries the system once. *)
Lemma C6_status_query_cached_witness :
  let a := Scenario.fileAccessor Scenario.linux (Some ["a"; "b"]) true in
  let ops := [FileSession.MaybeLstat []; FileSession.ReadFile 8 []; FileSession.MaybeLstat [];
              FileSession.MaybeLstat []] in
  (status_queries (snd (@FileSession.history Scenario.linux ops a)) <= 1)%nat
  /\ status_queries (snd (@FileSession.history Scenario.linux ops a)) = 1%nat.
Proof.
  intros a ops. split.
  - apply (proj1 (proj2 (proj2 (proj2 (@C6_status_query_cached Scenario.linux a ops))))
             {| st_mode := 33188; st_size := 4; st_mtime := 7 |}).
    reflexivity.
  - vm_compute. reflexivity.
Defined.

(** C6 as stated fails: when [fstat] fails, nothing is cached and every
    [statusOf(root)] queries the system again. *)
Lemma C6_counterexample :
  let a := Scenario.fileAccessor Scenario.failing_fstat (Some ["a"; "b"]) false in
  status_queries
    (snd (@FileSession.history Scenario.failing_fstat
            [FileSession.MaybeLstat []; FileSession.MaybeLstat []] a)) = 2%nat
  /\ outcome (@UnixFileSourceAccessor.maybeLstat Scenario.failing_fstat [] a) =
       Throw (SysError (Some EIO) "statting file '/a/b'").
Proof. vm_compute. auto. Qed.

(** C2 (as amended).  When a public operation of the directory accessor fails
    with SymlinkNotAllowed, the exception was rethrown at the operation's
    boundary: it carries the offending sub-path, a non-empty proper prefix of
    the requested path, and its message names that sub-path as rendered by
    [showPath]. *)
Theorem C2_symlink_error_names_the_prefix `{Posix} (a : UnixDirectorySourceAccessor.t)
    (fuel : nat) (path q : CanonPath.t) (msg : option string) :
  outcome (UnixDirectorySourceAccessor.maybeLstat path a) = Throw (SymlinkNotAllowed q msg)
  \/ outcome (UnixDirectorySourceAccessor.readFile fuel path a) = Throw (SymlinkNotAllowed q msg)
  \/ outcome (UnixDirectorySourceAccessor.readDirectory path a) = Throw (SymlinkNotAllowed q msg)
  \/ outcome (UnixDirectorySourceAccessor.readLink path a) = Throw (SymlinkNotAllowed q msg) ->
  msg = Some ("path '" +:+ UnixDirectorySourceAccessor.showPath a q +:+ "' is a symlink")
  /\ q <> [] /\ exists rest, rest <> [] /\ path = q ++ rest.
Proof.
  intros [Hop | [Hop | [Hop | Hop]]].
  - eapply RethrowFacts.maybeLstat_symlink_error; exact Hop.
  - eapply RethrowFacts.readFile_symlink_error; exact Hop.
  - eapply RethrowFacts.readDirectory_symlink_error; exact Hop.
  - eapply RethrowFacts.readLink_symlink_error; exact Hop.
Qed.

(** In the scenario, reading [/c/passwd] under [/a]. *)
Lemma C2_symlink_error_names_the_prefix_witness :
  Some "path '/a/c' is a symlink" =
    Some ("path '" +:+
          @UnixDirectorySourceAccessor.showPath Scenario.linux
            (Scenario.dirAccessor Scenario.linux (Some ["a"]) false) ["c"] +:+ "' is a symlink")
  /\ ["c"] <> [] /\ exists rest, rest <> [] /\ ["c"; "passwd"] = ["c"] ++ rest.
Proof.
  apply (@C2_symlink_error_names_the_prefix Scenario.linux
           (Scenario.dirAccessor Scenario.linux (Some ["a"]) false) 8 ["c"; "passwd"] ["c"]
           (Some "path '/a/c' is a symlink")).
  right. left. vm_compute. reflexivity.
Defined.

(** C2 as stated fails: the rethrown exception carries the sub-path [/c] and a
    message about [/a/c], not the path [/c/passwd] that was requested. *)
Lemma C2_counterexample :
  outcome (@UnixDirectorySourceAccessor.maybeLstat Scenario.linux ["c"; "passwd"]
             (Scenario.dirAccessor Scenario.linux (Some ["a"]) false)) =
    Throw (SymlinkNotAllowed ["c"] (Some "path '/a/c' is a symlink"))
  /\ outcome (@UnixDirectorySourceAccessor.readFile Scenario.linux 8 ["c"; "passwd"]
                (Scenario.dirAccessor Scenario.linux (Some ["a"]) false)) =
       Throw (SymlinkNotAllowed ["c"] (Some "path '/a/c' is a symlink")).
Proof. vm_compute. auto. Qed.

(** C9.  A listing that returns holds no entry named "." or ".."; every entry
    it holds has the kind of the first record of that name the directory
    handle yielded, present for the seven classified [d_type] values and
    absent for any other; and the call made no status query. *)
Theorem C9_listing `{Posix} (a : UnixDirectorySourceAccessor.t) (path : CanonPath.t)
    (entries : gmap string (option Type_)) :
  outcome (UnixDirectorySourceAccessor.readDirectory path a) = Ok entries ->
  entries !! "." = None /\ entries !! ".." = None
  /\ (exists dir,
        snd (os_readdir dir) = None
        /\ forall name,
             entries !! name =
               if String.eqb name "." || String.eqb name ".." then None
               else option_map (fun d => direntType (Dirent.d_type d))
                      (List.find (fun d => String.eqb (Dirent.d_name d) name) (fst (os_readdir dir))))
  /\ status_queries (trace (UnixDirectorySourceAccessor.readDirectory path a)) = 0%nat
  /\ direntType Dirent.DT_REG = Some tRegular /\ direntType Dirent.DT_DIR = Some tDirectory
  /\ direntType Dirent.DT_LNK = Some tSymlink /\ direntType Dirent.DT_CHR = Some tChar
  /\ direntType Dirent.DT_BLK = Some tBlock /\ direntType Dirent.DT_FIFO = Some tFifo
  /\ direntType Dirent.DT_SOCK = Some tSocket
  /\ forall t, ~ In t [Dirent.DT_REG; Dirent.DT_DIR; Dirent.DT_LNK; Dirent.DT_CHR;
                       Dirent.DT_BLK; Dirent.DT_FIFO; Dirent.DT_SOCK] ->
               direntType t = None.
Proof.
  intros Hok.
  assert (Hmain : exists dir,
            snd (os_readdir dir) = None
            /\ (forall name,
                  entries !! name =
                    if String.eqb name "." || String.eqb name ".." then None
                    else option_map (fun d => direntType (Dirent.d_type d))
                           (List.find (fun d => String.eqb (Dirent.d_name d) name)
                              (fst (os_readdir dir))))
            /\ status_queries (trace (UnixDirectorySourceAccessor.readDirectory path a)) = 0%nat).
  { pose proof (ListingFacts.readDirectory_eq path a) as E. cbv zeta in E.
    rewrite E in Hok |- *. clear E. revert Hok.
    pose proof (ListingFacts.opened_effect path a) as (_ & Ho).
    match type of Ho with
    | match outcome ?o with _ => _ end =>
        destruct (outcome o) as [[e|dirFd]|e|]; try discriminate
    end.
    destruct (os_fdopendir dirFd) as [e|dir]; [discriminate|].
    pose proof (ListingFacts.readEntries_result dir (fst (os_readdir dir)) 0 ∅ a)
      as (_ & L2 & L3). cbv zeta in L3 |- *.
    destruct (outcome (UnixDirectorySourceAccessor.readEntries dir 0 _ ∅ a)) as [result|e|];
      try discriminate.
    destruct (snd (os_readdir dir)) eqn:Eerr; [discriminate|].
    cbn [outcome trace]. intros [= <-].
    exists dir. split; [exact Eerr|]. split.
    - intros name. rewrite L3, lookup_empty. reflexivity.
    - rewrite status_queries_app, Ho. unfold status_queries.
      cbn [List.filter is_status_query]. rewrite L2. reflexivity. }
  destruct Hmain as (dir & Herr & Hlook & Hq).
  split; [rewrite Hlook; reflexivity|]. split; [rewrite Hlook; reflexivity|].
  split; [exists dir; auto|]. split; [exact Hq|].
  repeat (split; [reflexivity|]).
  intros t Hnot. unfold direntType.
  repeat match goal with
         | |- context [?x =? ?y] =>
             destruct (Z.eqb_spec x y) as [->|?]; [exfalso; apply Hnot; cbn; tauto|]
         end.
  reflexivity.
Qed.

(** In the scenario, the listing of [/a]. *)
Lemma C9_listing_witness :
  let a := Scenario.dirAccessor Scenario.linux (Some ["a"]) false in
  let entries : gmap string (option Type_) :=
    <["b" := Some tRegular]> (<["c" := Some tSymlink]> (<["d" := Some tDirectory]> ∅)) in
  outcome (@UnixDirectorySourceAccessor.readDirectory Scenario.linux [] a) = Ok entries
  /\ entries !! "." = None /\ entries !! ".." = None
  /\ status_queries (trace (@UnixDirectorySourceAccessor.readDirectory Scenario.linux [] a)) = 0%nat.
Proof.
  intros a entries.
  assert (Hok : outcome (@UnixDirectorySourceAccessor.readDirectory Scenario.linux [] a) = Ok entries)
    by (vm_compute; reflexivity).
  split; [exact Hok|].
  pose proof (@C9_listing Scenario.linux a [] entries Hok) as (H1 & H2 & _ & H4 & _).
  auto.
Defined.



(** C3 (as amended).  The entry point throws in exactly two cases, each a
    [SysError] at construction: the status query on the descriptor it has
    just opened fails, or the link target of a symlink root (whose parent
    opened and whose status was queried) cannot be read.  In each of the two
    it does throw, and in every other case it returns an accessor.  Whenever
    the root cannot be opened for any reason but being a symlink, whenever
    the parent of a symlink root cannot be opened, and whenever the status of
    a symlink root cannot be queried, the accessor returned is the empty
    in-memory one. *)
Theorem C3_construction `{Posix} (process : Process) (root : option CanonPath.t)
    (trackLastModified : bool) :
  let r := makeFSSourceAccessor root trackLastModified process in
  let flags := Z.lor Fcntl.O_RDONLY (Z.lor Fcntl.O_CLOEXEC Fcntl.O_NOFOLLOW) in
  let parentFlags := Z.lor Fcntl.O_RDONLY (Z.lor Fcntl.O_DIRECTORY Fcntl.O_CLOEXEC) in
  let dummy rootPath :=
    MemoryAccessor (MemorySourceAccessor.setPathDisplay (CanonPath.abs rootPath)
                      MemorySourceAccessor.empty) in
  ((exists acc, outcome r = Ok acc)
   \/ (exists rootPath fd e,
         root = Some rootPath /\ os_open (CanonPath.abs rootPath) flags = inr fd
         /\ os_fstat fd = inl e
         /\ outcome r = Throw (SysError (Some e) ("statting '" +:+ CanonPath.abs rootPath +:+ "'")))
   \/ (exists parent name parentFd st e,
         root = Some (parent ++ [name])
         /\ os_open (CanonPath.abs (parent ++ [name])) flags = inl ELOOP
         /\ os_open (CanonPath.abs parent) parentFlags = inr parentFd
         /\ os_fstatat parentFd name Fcntl.AT_SYMLINK_NOFOLLOW = inr st
         /\ os_readlinkat parentFd name = inl e
         /\ outcome r = Throw (SysError (Some e) ("reading symbolic link '" +:+ name +:+ "'"))))
  /\ (forall parent name fd e,
        root = Some (parent ++ [name]) ->
        os_open (CanonPath.abs (parent ++ [name])) flags = inr fd ->
        os_fstat fd = inl e ->
        outcome r =
          Throw (SysError (Some e) ("statting '" +:+ CanonPath.abs (parent ++ [name]) +:+ "'")))
  /\ (forall parent name parentFd st e,
        root = Some (parent ++ [name]) ->
        os_open (CanonPath.abs (parent ++ [name])) flags = inl ELOOP ->
        os_open (CanonPath.abs parent) parentFlags = inr parentFd ->
        os_fstatat parentFd name Fcntl.AT_SYMLINK_NOFOLLOW = inr st ->
        os_readlinkat parentFd name = inl e ->
        outcome r = Throw (SysError (Some e) ("reading symbolic link '" +:+ name +:+ "'")))
  /\ (forall parent name e,
        root = Some (parent ++ [name]) ->
        os_open (CanonPath.abs (parent ++ [name])) flags = inl e ->
        Errno_eqb e ELOOP = false
        \/ (exists e', os_open (CanonPath.abs parent) parentFlags = inl e')
        \/ (exists parentFd e', os_open (CanonPath.abs parent) parentFlags = inr parentFd
                                /\ os_fstatat parentFd name Fcntl.AT_SYMLINK_NOFOLLOW = inl e') ->
        outcome r = Ok (dummy (parent ++ [name]))).
Proof.
  intros r flags parentFlags dummy. subst r.
  destruct root as [rootPath|]; [destruct rootPath as [|c p]|].
  - (* the root path *)
    split; [|split; [|split]];
      try (intros parent name; intros; match goal with
                                       | Heq : Some [] = Some (_ ++ [_]) |- _ =>
                                           injection Heq as Heq; destruct parent; discriminate
                                       end).
    left. cbn [makeFSSourceAccessor CanonPath.isRoot]. unfold getFSSourceAccessor.
    rewrite bind_get. destruct process; cbn; eauto.
  - destruct (CanonPath_snoc_inv (c :: p) ltac:(discriminate)) as (parent & name & E).
    rewrite E. clear E c p.
    assert (Hrun : makeFSSourceAccessor (@Some CanonPath.t (parent ++ [name])) trackLastModified process =
      match os_open (CanonPath.abs (parent ++ [name])) flags with
      | inl e =>
          if Errno_eqb e ELOOP then
            match os_open (CanonPath.abs parent) parentFlags with
            | inl _ =>
                mkRun (Ok (dummy (parent ++ [name]))) process
                  [EvOpen (CanonPath.abs (parent ++ [name])) flags;
                   EvOpen (CanonPath.abs parent) parentFlags]
            | inr parentFd =>
                match os_fstatat parentFd name Fcntl.AT_SYMLINK_NOFOLLOW with
                | inl _ =>
                    mkRun (Ok (dummy (parent ++ [name]))) process
                      [EvOpen (CanonPath.abs (parent ++ [name])) flags;
                       EvOpen (CanonPath.abs parent) parentFlags;
                       EvFstatat parentFd name Fcntl.AT_SYMLINK_NOFOLLOW]
                | inr st =>
                    match os_readlinkat parentFd name with
                    | inl e' =>
                        mkRun (Throw (SysError (Some e')
                                        ("reading symbolic link '" +:+ name +:+ "'")))
                          process
                          [EvOpen (CanonPath.abs (parent ++ [name])) flags;
                           EvOpen (CanonPath.abs parent) parentFlags;
                           EvFstatat parentFd name Fcntl.AT_SYMLINK_NOFOLLOW;
                           EvReadlinkat parentFd name]
                    | inr target =>
                        mkRun (Ok (SymlinkAccessor
                                     (SymlinkSourceAccessor.new target (parent ++ [name])
                                        trackLastModified (st_mtime st))))
                          process
                          [EvOpen (CanonPath.abs (parent ++ [name])) flags;
                           EvOpen (CanonPath.abs parent) parentFlags;
                           EvFstatat parentFd name Fcntl.AT_SYMLINK_NOFOLLOW;
                           EvReadlinkat parentFd name]
                    end
                end
            end
          else mkRun (Ok (dummy (parent ++ [name]))) process
                 [EvOpen (CanonPath.abs (parent ++ [name])) flags]
      | inr fd =>
          match os_fstat fd with
          | inl e =>
              mkRun (Throw (SysError (Some e)
                              ("statting '" +:+ CanonPath.abs (parent ++ [name]) +:+ "'")))
                process [EvOpen (CanonPath.abs (parent ++ [name])) flags; EvFstat fd]
          | inr st =>
              mkRun (Ok (if StatMode.S_ISDIR (st_mode st)
                         then DirectoryAccessor
                                (UnixDirectorySourceAccessor.new fd (parent ++ [name])
                                   trackLastModified)
                         else if StatMode.S_ISREG (st_mode st)
                         then FileAccessor
                                (UnixFileSourceAccessor.new fd (parent ++ [name])
                                   trackLastModified (Some st))
                         else makeEmptySourceAccessor))
                process [EvOpen (CanonPath.abs (parent ++ [name])) flags; EvFstat fd]
          end
      end).
    { unfold makeFSSourceAccessor.
      rewrite CanonPath_isRoot_snoc, CanonPath_parent_snoc, CanonPath_baseName_snoc.
      unfold bind, sys_open, sys_fstat, sys_fstatat, readLinkAt, sys_readlinkat, ret, throw.
      cbn [outcome final trace]. fold flags.
      destruct (os_open (CanonPath.abs (parent ++ [name])) flags) as [e|fd];
        cbn [outcome final trace].
      - destruct (Errno_eqb e ELOOP); cbn [outcome final trace]; [|reflexivity].
        fold parentFlags.
        destruct (os_open (CanonPath.abs parent) parentFlags) as [e'|parentFd];
          cbn [outcome final trace]; [reflexivity|].
        destruct (os_fstatat parentFd name Fcntl.AT_SYMLINK_NOFOLLOW) as [e'|st];
          cbn [outcome final trace]; [reflexivity|].
        change (CanonPath.rel [name]) with name.
        destruct (os_readlinkat parentFd name); reflexivity.
      - destruct (os_fstat fd) as [e|st]; cbn [outcome final trace]; [reflexivity|].
        destruct (StatMode.S_ISDIR (st_mode st)); [reflexivity|].
        destruct (StatMode.S_ISREG (st_mode st)); reflexivity. }
    rewrite Hrun. clear Hrun. split; [|split; [|split]].
    + destruct (os_open (CanonPath.abs (parent ++ [name])) flags) as [e|fd] eqn:Hopen.
      * destruct (Errno_eqb e ELOOP) eqn:He; [|left; cbn; eauto].
        assert (e = ELOOP) as -> by (destruct e; cbn in He; congruence).
        destruct (os_open (CanonPath.abs parent) parentFlags) as [e'|parentFd] eqn:Hp;
          [left; cbn; eauto|].
        destruct (os_fstatat parentFd name Fcntl.AT_SYMLINK_NOFOLLOW) as [e'|st] eqn:Hst;
          [left; cbn; eauto|].
        destruct (os_readlinkat parentFd name) as [e'|target] eqn:Hl; [|left; cbn; eauto].
        right; right. exists parent, name, parentFd, st, e'. repeat split; auto.
      * destruct (os_fstat fd) as [e|st] eqn:Hs; [|left; cbn; eauto].
        right; left. exists (parent ++ [name]), fd, e. auto.
    + intros parent' name' fd e [= Heq] Hopen Hs.
      apply app_inj_tail in Heq. destruct Heq as [<- <-]. rewrite Hopen, Hs. reflexivity.
    + intros parent' name' parentFd st e [= Heq] Hopen Hp Hs Hl.
      apply app_inj_tail in Heq. destruct Heq as [<- <-].
      rewrite Hopen. cbn [Errno_eqb]. rewrite Hp, Hs, Hl. reflexivity.
    + intros parent' name' e [= Heq] Hopen Hcase.
      apply app_inj_tail in Heq. destruct Heq as [<- <-]. rewrite Hopen.
      destruct Hcase as [He | [(e' & Hp) | (parentFd & e' & Hp & Hs)]].
      * rewrite He. reflexivity.
      * destruct (Errno_eqb e ELOOP); [|reflexivity]. rewrite Hp. reflexivity.
      * destruct (Errno_eqb e ELOOP); [|reflexivity]. rewrite Hp, Hs. reflexivity.
  - (* the empty path *)
    split; [|split; [|split]]; try (intros; discriminate).
    left. cbn [makeFSSourceAccessor]. unfold getFSSourceAccessor.
    rewrite bind_get. destruct process; cbn; eauto.
Qed.

(** C3 as stated fails: in the scenario with a failing [fstat], constructing
    the accessor for the directory [/a] throws. *)
Lemma C3_counterexample :
  outcome (@makeFSSourceAccessor Scenario.failing_fstat (Some ["a"]) false None) =
    Throw (SysError (Some EIO) "statting '/a'").
Proof. reflexivity. Qed.

(** C7 (as amended).  With tracking disabled [getLastModified] is absent,
    on the directory, the single-file and the symlink stand-in accessor
    alike.  With tracking enabled: after any sequence of calls on
    a directory accessor it is the maximum of 0 (the value the instance
    starts with) and the modification times of the entries accessed by the
    calls that delivered a status or a file's content; after any sequence of
    calls on a single-file accessor it is the larger of 0 and the mtime of
    the status record the instance holds, and 0 while it holds none, the
    record being the one prefetched at construction or else the one the
    first successful status query of the descriptor returned (whether or not
    the call that made the query then delivered); on the symlink stand-in it
    is the mtime it was constructed with, as it is.  No call on a directory
    accessor or on a single-file accessor lowers the tracked time or changes
    whether the instance tracks, and [updateMtime] never lowers it. *)
Theorem C7_last_modified `{Posix} (fd_ : Descriptor) (rootPath_ : CanonPath.t)
    (trackLastModified : bool) (ops : list DirSession.Op) :
  let h := DirSession.history ops
             (UnixDirectorySourceAccessor.new fd_ rootPath_ trackLastModified) in
  UnixDirectorySourceAccessor.getLastModified (fst h) =
    (if trackLastModified then Some (fold_left Z.max (snd h) 0) else None)
  /\ (forall (a : UnixDirectorySourceAccessor.t) op,
        let a' := final (DirSession.perform op a) in
        Base.trackLastModified (UnixDirectorySourceAccessor.base a') =
          Base.trackLastModified (UnixDirectorySourceAccessor.base a)
        /\ Base.mtime (UnixDirectorySourceAccessor.base a) <=
             Base.mtime (UnixDirectorySourceAccessor.base a'))
  /\ (forall (a : UnixFileSourceAccessor.t) op,
        let a' := final (FileSession.perform op a) in
        Base.trackLastModified (UnixFileSourceAccessor.base a') =
          Base.trackLastModified (UnixFileSourceAccessor.base a)
        /\ Base.mtime (UnixFileSourceAccessor.base a) <=
             Base.mtime (UnixFileSourceAccessor.base a'))
  /\ (forall (b : Base.t) newMtime,
        Base.trackLastModified (Base.updateMtime b newMtime) = Base.trackLastModified b
        /\ Base.mtime b <= Base.mtime (Base.updateMtime b newMtime)
        /\ (Base.trackLastModified b = false -> Base.getLastModified b = None))
  /\ (forall (prefetched : option posix_stat) (fileOps : list FileSession.Op),
        let a := fst (FileSession.history fileOps
                        (UnixFileSourceAccessor.new fd_ rootPath_ trackLastModified prefetched)) in
        UnixFileSourceAccessor.getLastModified a =
          (if trackLastModified
           then Some match UnixFileSourceAccessor.cachedStat a with
                     | Some st => Z.max 0 (st_mtime st)
                     | None => 0
                     end
           else None)
        /\ match UnixFileSourceAccessor.cachedStat a with
           | Some st => prefetched = Some st \/ (prefetched = None /\ os_fstat fd_ = inr st)
           | None => prefetched = None
           end)
  /\ (forall (target : string) (mtime : Z),
        SymlinkSourceAccessor.getLastModified
          (SymlinkSourceAccessor.new target rootPath_ trackLastModified mtime) =
          (if trackLastModified then Some mtime else None)).
Proof.
  intros h. subst h. split; [|split; [|split; [|split; [|split]]]].
  - set (a0 := UnixDirectorySourceAccessor.new fd_ rootPath_ trackLastModified).
    pose proof (DirSessionFacts.history_mtime ops a0) as (Ht & Hm).
    unfold UnixDirectorySourceAccessor.getLastModified, Base.getLastModified.
    rewrite Ht. change (Base.trackLastModified (UnixDirectorySourceAccessor.base a0))
      with trackLastModified in *.
    destruct trackLastModified; [|reflexivity].
    rewrite Hm; [reflexivity | reflexivity | cbn; lia].
  - intros a op a'. subst a'.
    pose proof (DirSessionFacts.perform_mtime op a) as (Ht & _ & _ & Hle & _). auto.
  - intros a op a'. subst a'. apply FileMtimeFacts.file_perform_mtime.
  - intros b newMtime. unfold Base.updateMtime, Base.getLastModified.
    destruct (Base.trackLastModified b) eqn:Ht; cbn [Base.trackLastModified Base.mtime];
      repeat split; auto; try lia; discriminate.
  - intros prefetched fileOps.
    apply (FileReadFacts.history_file_mtime fd_ trackLastModified prefetched fileOps).
    + destruct prefetched; reflexivity.
    + destruct prefetched, trackLastModified; reflexivity.
    + destruct prefetched, trackLastModified; reflexivity.
    + destruct prefetched; cbn; auto.
  - intros target mtime. reflexivity.
Qed.

(** In the scenario: the status of [/b], a read of [/b], the status of the
    symlink [/c], and a read through it that is refused. *)
Lemma C7_last_modified_witness :
  let ops := [DirSession.MaybeLstat ["b"]; DirSession.ReadFile 8 ["b"];
              DirSession.MaybeLstat ["c"]; DirSession.ReadFile 8 ["c"; "passwd"]] in
  let h := @DirSession.history Scenario.linux ops
             (@UnixDirectorySourceAccessor.new Scenario.linux (Some ["a"]) ["a"] true) in
  snd h = [7; 7; 9]
  /\ @UnixDirectorySourceAccessor.getLastModified Scenario.linux (fst h) = Some 9.
Proof.
  intros ops h. split; [vm_compute; reflexivity|].
  etransitivity;
    [exact (proj1 (@C7_last_modified Scenario.linux (Some ["a"]) ["a"] true ops))|].
  vm_compute. reflexivity.
Defined.

(** C7 as stated fails: the only entry accessed was last modified a day before
    the epoch, and [getLastModified] is 0, not that time. *)
Lemma C7_counterexample :
  let h := @DirSession.history Scenario.linux [DirSession.MaybeLstat ["d"; "old"]]
             (@UnixDirectorySourceAccessor.new Scenario.linux (Some ["a"]) ["a"] true) in
  snd h = [-86400]
  /\ @UnixDirectorySourceAccessor.getLastModified Scenario.linux (fst h) = Some 0.
Proof. vm_compute. auto. Qed.

(** C1.  In any directory tree, on either platform, let the directory
    accessor be anchored at [anchor] and let a path run through a component
    [s] that is a symlink and is not the path's last component.  Then
    [maybeLstat], [readFile], [readDirectory] and [readLink] of the path all
    fail with SymlinkNotAllowed, naming the symlink, whatever its target; and
    every system call they make is an [openat] with O_NOFOLLOW or an
    [fstatat] with AT_SYMLINK_NOFOLLOW, so that none follows the link. *)
Theorem C1_intermediate_symlink (platform : TreeFS.Platform) (world : TreeFS.node)
    (a : @UnixDirectorySourceAccessor.t (TreeFS.posix platform world))
    (anchor pre : list string) (s : string) (post : list string)
    (mtime : Z) (target : string) (fuel : nat) :
  UnixDirectorySourceAccessor.fd a = Some anchor ->
  TreeFS.node_at world (anchor ++ pre ++ [s]) = Some (TreeFS.Lnk mtime target) ->
  post <> [] ->
  let path := pre ++ s :: post in
  let denied :=
    SymlinkNotAllowed (pre ++ [s])
      (Some ("path '" +:+ UnixDirectorySourceAccessor.showPath a (pre ++ [s]) +:+ "' is a symlink")) in
  let stat := UnixDirectorySourceAccessor.maybeLstat path a in
  let read := UnixDirectorySourceAccessor.readFile fuel path a in
  let list := UnixDirectorySourceAccessor.readDirectory path a in
  let link := UnixDirectorySourceAccessor.readLink path a in
  (outcome stat = Throw denied /\ outcome read = Throw denied
   /\ outcome list = Throw denied /\ outcome link = Throw denied)
  /\ forallb nofollow_call (trace stat) = true /\ forallb nofollow_call (trace read) = true
  /\ forallb nofollow_call (trace list) = true /\ forallb nofollow_call (trace link) = true.
Proof.
  intros Hfd Hn Hpost path denied stat read list link.
  destruct post as [|lastc mid _] using rev_ind; [contradiction|]. clear Hpost.
  assert (Hpath : path = (pre ++ s :: mid) ++ [lastc])
    by (unfold path; rewrite <- app_assoc; reflexivity).
  assert (Hcons : exists c p, path = c :: p).
  { unfold path. destruct pre; cbn [app]; eauto. }
  destruct Hcons as (c & p & Hcp).
  pose proof (TreeFacts.openParent_blocked platform world a anchor pre s mid lastc _ Hfd Hn I)
    as Hparent. cbv iota in Hparent.
  assert (Hresolve : forall flags,
    outcome (openFileEnsureBeneathNoSymlinks (UnixDirectorySourceAccessor.fd a) path flags a) =
      Throw (SymlinkNotAllowed (pre ++ [s]) None)).
  { intros flags. rewrite Hfd, Hpath.
    exact (TreeFacts.resolve_blocked platform world anchor pre s mid lastc flags _ a Hn). }
  assert (Hstat : stat = mkRun (Throw denied) a (trace (UnixDirectorySourceAccessor.openParent path a))).
  { unfold stat. rewrite Hpath.
    pose proof (DirFacts.maybeLstat_child (pre ++ s :: mid) lastc a) as E. cbv zeta in E.
    rewrite E, Hparent. reflexivity. }
  assert (Hlink : link = mkRun (Throw denied) a (trace (UnixDirectorySourceAccessor.openParent path a))).
  { unfold link. rewrite Hpath.
    pose proof (DirFacts.readLink_child (pre ++ s :: mid) lastc a) as E. cbv zeta in E.
    rewrite E, Hparent. reflexivity. }
  assert (Hread : read = mkRun (Throw denied) a
            (trace (openFileEnsureBeneathNoSymlinks (UnixDirectorySourceAccessor.fd a) path
                      UnixDirectorySourceAccessor.fileFlags a))).
  { unfold read. specialize (Hresolve UnixDirectorySourceAccessor.fileFlags).
    rewrite Hcp in *.
    pose proof (DirFacts.readFile_child fuel c p a) as E. cbv zeta in E.
    rewrite E, Hresolve. reflexivity. }
  assert (Hlist : list = mkRun (Throw denied) a
            (trace (openFileEnsureBeneathNoSymlinks (UnixDirectorySourceAccessor.fd a) path
                      UnixDirectorySourceAccessor.directoryFlags a))).
  { unfold list. specialize (Hresolve UnixDirectorySourceAccessor.directoryFlags).
    rewrite Hcp in *.
    pose proof (ListingFacts.readDirectory_eq (c :: p) a) as E. cbv zeta in E.
    cbn [CanonPath.isRoot] in E. rewrite E, Hresolve. reflexivity. }
  rewrite Hstat, Hlink, Hread, Hlist. cbn [outcome trace].
  split; [auto|].
  rewrite Hpath at 1 4. rewrite !DirFacts.openParent_nofollow, !resolve_nofollow. auto.
Qed.

(** In the scenario, [/c/passwd] under [/a], where [c -> /etc] and
    [/etc/passwd] exists. *)
Lemma C1_intermediate_symlink_witness :
  let a := Scenario.dirAccessor Scenario.linux (Some ["a"]) false in
  let denied := SymlinkNotAllowed ["c"] (Some "path '/a/c' is a symlink") in
  (outcome (@UnixDirectorySourceAccessor.maybeLstat Scenario.linux ["c"; "passwd"] a) = Throw denied
   /\ outcome (@UnixDirectorySourceAccessor.readFile Scenario.linux 8 ["c"; "passwd"] a) = Throw denied
   /\ outcome (@UnixDirectorySourceAccessor.readDirectory Scenario.linux ["c"; "passwd"] a) = Throw denied
   /\ outcome (@UnixDirectorySourceAccessor.readLink Scenario.linux ["c"; "passwd"] a) = Throw denied)
  /\ TreeFS.node_at Scenario.world ["etc"; "passwd"] = Some (TreeFS.Reg false 4 [Byte.x72]).
Proof.
  intros a denied. split; [|reflexivity].
  exact (proj1 (C1_intermediate_symlink TreeFS.Linux Scenario.world a ["a"] [] "c" ["passwd"]
                  9 "/etc" 8 eq_refl eq_refl ltac:(discriminate))).
Defined.

(** C10.  In any directory tree, on either platform, let a path run through a
    component [f] that is a regular file and is not the path's last
    component.  Then [maybeLstat] and [readLink] of the path fail with
    SymlinkNotAllowed, naming the path's parent as a symlink although the tree
    holds none there, and [readFile] of the same path fails with
    FileNotFound. *)
Theorem C10_intermediate_regular_file (platform : TreeFS.Platform) (world : TreeFS.node)
    (a : @UnixDirectorySourceAccessor.t (TreeFS.posix platform world))
    (anchor pre : list string) (f : string) (mid : list string) (lastc : string)
    (executable : bool) (mtime : Z) (data : list Byte.byte) (fuel : nat) :
  UnixDirectorySourceAccessor.fd a = Some anchor ->
  TreeFS.node_at world (anchor ++ pre ++ [f]) = Some (TreeFS.Reg executable mtime data) ->
  let parent := pre ++ f :: mid in
  let path := parent ++ [lastc] in
  let denied :=
    SymlinkNotAllowed parent
      (Some ("path '" +:+ UnixDirectorySourceAccessor.showPath a parent +:+ "' is a symlink")) in
  outcome (UnixDirectorySourceAccessor.maybeLstat path a) = Throw denied
  /\ outcome (UnixDirectorySourceAccessor.readLink path a) = Throw denied
  /\ outcome (UnixDirectorySourceAccessor.readFile fuel path a) =
       Throw (FileNotFound ("file '" +:+ UnixDirectorySourceAccessor.showPath a path +:+
                            "' does not exist")).
Proof.
  intros Hfd Hn parent path denied.
  pose proof (TreeFacts.openParent_blocked platform world a anchor pre f mid lastc _ Hfd Hn I)
    as Hparent. cbv iota in Hparent. fold parent in Hparent. fold path in Hparent.
  split; [|split].
  - pose proof (DirFacts.maybeLstat_child parent lastc a) as E. cbv zeta in E.
    fold path in E. rewrite E, Hparent. reflexivity.
  - pose proof (DirFacts.readLink_child parent lastc a) as E. cbv zeta in E.
    fold path in E. rewrite E, Hparent. reflexivity.
  - assert (Hcons : exists c p, path = c :: p).
    { unfold path, parent. destruct pre; cbn [app]; eauto. }
    destruct Hcons as (c & p & Hcp).
    pose proof (TreeFacts.resolve_blocked platform world anchor pre f mid lastc
                  UnixDirectorySourceAccessor.fileFlags _ a Hn) as Hresolve.
    cbv iota in Hresolve. fold parent in Hresolve. fold path in Hresolve.
    rewrite <- Hfd, Hcp in Hresolve. rewrite Hcp.
    pose proof (DirFacts.readFile_child fuel c p a) as E. cbv zeta in E.
    rewrite E, Hresolve. reflexivity.
Qed.

(** In the scenario, [/b/x/y] under [/a], where [b] is a regular file. *)
Lemma C10_intermediate_regular_file_witness :
  let a := Scenario.dirAccessor Scenario.linux (Some ["a"]) false in
  outcome (@UnixDirectorySourceAccessor.maybeLstat Scenario.linux ["b"; "x"; "y"] a) =
    Throw (SymlinkNotAllowed ["b"; "x"] (Some "path '/a/b/x' is a symlink"))
  /\ outcome (@UnixDirectorySourceAccessor.readLink Scenario.linux ["b"; "x"; "y"] a) =
       Throw (SymlinkNotAllowed ["b"; "x"] (Some "path '/a/b/x' is a symlink"))
  /\ outcome (@UnixDirectorySourceAccessor.readFile Scenario.linux 8 ["b"; "x"; "y"] a) =
       Throw (FileNotFound "file '/a/b/x/y' does not exist").
Proof.
  intros a.
  exact (C10_intermediate_regular_file TreeFS.Linux Scenario.world a ["a"] [] "b" ["x"] "y"
           false 7 Scenario.data 8 eq_refl eq_refl).
Defined.

(** C4 (as amended).  On any system, [maybeLstat] of a non-root path on the
    directory accessor never throws a [SysError]: it returns absent whenever
    the status query on the final component fails, whatever the errno, and
    whenever the resolution of the parent fails with an errno other than ELOOP
    and ENOTDIR.  On a directory tree, with the accessor anchored at a
    directory, reading a non-root path whose status is absent fails with
    FileNotFound. *)
Theorem C4_status_absent :
  (forall (P : Posix) (a : UnixDirectorySourceAccessor.t) (parent : CanonPath.t) (name : string),
     (forall errNo msg,
        outcome (UnixDirectorySourceAccessor.maybeLstat (parent ++ [name]) a)
          <> Throw (SysError errNo msg))
     /\ (forall parentFd e,
           outcome (UnixDirectorySourceAccessor.openParent (parent ++ [name]) a) = Ok parentFd ->
           os_fstatat parentFd name Fcntl.AT_SYMLINK_NOFOLLOW = inl e ->
           outcome (UnixDirectorySourceAccessor.maybeLstat (parent ++ [name]) a) = Ok None)
     /\ (forall e,
           parent <> [] ->
           outcome (openFileEnsureBeneathNoSymlinks (UnixDirectorySourceAccessor.fd a) parent
                      UnixDirectorySourceAccessor.directoryFlags a) = Ok (inl e) ->
           Errno_eqb e ELOOP || Errno_eqb e ENOTDIR = false ->
           outcome (UnixDirectorySourceAccessor.maybeLstat (parent ++ [name]) a) = Ok None))
  /\ (forall (platform : TreeFS.Platform) (world : TreeFS.node)
             (a : @UnixDirectorySourceAccessor.t (TreeFS.posix platform world))
             (anchor : list string) (path : CanonPath.t) (fuel : nat),
        UnixDirectorySourceAccessor.fd a = Some anchor ->
        TreeFS.is_directory world (Some anchor) ->
        path <> [] ->
        outcome (UnixDirectorySourceAccessor.maybeLstat path a) = Ok None ->
        outcome (UnixDirectorySourceAccessor.readFile fuel path a) =
          Throw (FileNotFound ("file '" +:+ UnixDirectorySourceAccessor.showPath a path +:+
                               "' does not exist"))).
Proof.
  split.
  - intros P a parent name.
    pose proof (DirFacts.maybeLstat_child parent name a) as E. cbv zeta in E.
    pose proof (DirFacts.openParent_result parent name a) as (_ & Hp). cbv zeta in Hp.
    split; [|split].
    + intros errNo msg. rewrite E.
      destruct (outcome (UnixDirectorySourceAccessor.openParent (parent ++ [name]) a))
        as [parentFd|e|]; [| |contradiction].
      * destruct (fd_valid parentFd); [|discriminate].
        destruct (os_fstatat parentFd name Fcntl.AT_SYMLINK_NOFOLLOW); discriminate.
      * destruct Hp as (q & rest & _ & _ & _ & ->). discriminate.
    + intros parentFd e Hopen Hs. rewrite E, Hopen.
      destruct (fd_valid parentFd); [|reflexivity]. rewrite Hs. reflexivity.
    + intros e Hne Hres He. rewrite E. destruct parent as [|c p]; [contradiction|].
      pose proof (DirFacts.openParent_eq c p name a) as Ep. cbv zeta in Ep.
      rewrite Ep, Hres, He. cbn [outcome]. rewrite invalid_descriptor. reflexivity.
  - intros platform world a anchor path fuel.
    apply AbsenceFacts.absent_not_found.
Qed.

(** In the scenario, [/zz] under [/a] does not exist. *)
Lemma C4_status_absent_witness :
  let a := Scenario.dirAccessor Scenario.linux (Some ["a"]) false in
  outcome (@UnixDirectorySourceAccessor.maybeLstat Scenario.linux ["zz"] a) = Ok None
  /\ outcome (@UnixDirectorySourceAccessor.readFile Scenario.linux 8 ["zz"] a) =
       Throw (FileNotFound "file '/a/zz' does not exist").
Proof.
  intros a.
  assert (Habsent : outcome (@UnixDirectorySourceAccessor.maybeLstat Scenario.linux ["zz"] a)
                      = Ok None) by reflexivity.
  split; [exact Habsent|].
  refine (proj2 C4_status_absent TreeFS.Linux Scenario.world a ["a"] ["zz"] 8%nat eq_refl _ _ Habsent).
  - exists ["a"]. eexists. eexists. split; reflexivity.
  - discriminate.
Defined.

(** C4 as stated fails: where the caller may not search the directory, the
    status query of the existing [/a/b] is refused with EACCES and
    [maybeLstat] returns absent instead of failing. *)
Lemma C4_counterexample :
  let a := Scenario.dirAccessor Scenario.unsearchable (Some ["a"]) false in
  @os_fstatat Scenario.unsearchable (Some ["a"]) "b" Fcntl.AT_SYMLINK_NOFOLLOW = inl EACCES
  /\ TreeFS.node_at Scenario.world ["a"; "b"] = Some (TreeFS.Reg false 7 Scenario.data)
  /\ outcome (@UnixDirectorySourceAccessor.maybeLstat Scenario.unsearchable ["b"] a) = Ok None.
Proof. vm_compute. auto. Qed.

(** * Further properties of the single-file accessor *)

(** X1.  The single-file accessor never reaches the operating system for a
    path other than its root: there the status is absent, the path does not
    exist and has no physical path, and reading fails with FileNotFound; and
    for every path, the root included, listing fails with NotADirectory and
    reading a link with NotASymlink.  None of these calls makes a system call
    or changes the instance. *)
Theorem X1_file_accessor_is_one_file `{Posix} (a : UnixFileSourceAccessor.t)
    (c : string) (p : CanonPath.t) (fuel : nat) :
  UnixFileSourceAccessor.maybeLstat (c :: p) a = mkRun (Ok None) a []
  /\ UnixFileSourceAccessor.pathExists (c :: p) = false
  /\ UnixFileSourceAccessor.getPhysicalPath a (c :: p) = None
  /\ UnixFileSourceAccessor.readFile fuel (c :: p) a =
       mkRun (Throw (FileNotFound
                       ("path '" +:+ UnixFileSourceAccessor.showPath a (c :: p) +:+
                        "' does not exist"))) a []
  /\ (forall path : CanonPath.t,
        (exists msg,
           @UnixFileSourceAccessor.readDirectory _ (gmap string (option Type_)) path a =
             mkRun (Throw (NotADirectory msg)) a [])
        /\ (exists msg,
              UnixFileSourceAccessor.readLink path a = mkRun (Throw (NotASymlink msg)) a []))
  /\ UnixFileSourceAccessor.pathExists [] = true
  /\ UnixFileSourceAccessor.getPhysicalPath a [] =
       Some (CanonPath.abs (UnixFileSourceAccessor.rootPath a)).
Proof.
  split; [apply FileFacts.maybeLstat_nonroot_eq|].
  split; [reflexivity|]. split; [reflexivity|]. split; [|split; [|split; reflexivity]].
  - unfold UnixFileSourceAccessor.readFile. cbn [CanonPath.isRoot negb].
    rewrite bind_get. reflexivity.
  - intros path. split.
    + unfold UnixFileSourceAccessor.readDirectory. rewrite bind_get. eexists. reflexivity.
    + unfold UnixFileSourceAccessor.readLink. rewrite bind_get. eexists. reflexivity.
Qed.

(** X2.  A single-file accessor constructed with a prefetched status record
    (as the entry point constructs it) reports as its last-modified time the
    larger of 0 and the record's mtime when tracking, and nothing otherwise;
    and no sequence of calls ever changes the instance: the record, and with
    it the last-modified time, stay as constructed. *)
Theorem X2_file_prefetched_record_is_final `{Posix} (fd_ : Descriptor) (rootPath_ : CanonPath.t)
    (trackLastModified : bool) (st : posix_stat) (ops : list FileSession.Op) :
  let a := UnixFileSourceAccessor.new fd_ rootPath_ trackLastModified (Some st) in
  UnixFileSourceAccessor.getLastModified a =
    (if trackLastModified then Some (Z.max 0 (st_mtime st)) else None)
  /\ fst (FileSession.history ops a) = a.
Proof.
  intros a. split.
  - subst a. destruct trackLastModified; reflexivity.
  - apply (FileReadFacts.history_cached_final ops a st). reflexivity.
Qed.

(** X3.  Reading announces the very size the status query reports: when the
    status of the root has a file size, the size callback of [readFile] is
    called exactly once, with that size (the passage through the signed
    [off_t] loses nothing). *)
Theorem X3_file_read_announces_status_size `{Posix} (a : UnixFileSourceAccessor.t)
    (fuel : nat) (s : Stat) (size : Z) :
  outcome (UnixFileSourceAccessor.maybeLstat [] a) = Ok (Some s) ->
  fileSize s = Some size ->
  announced (trace (UnixFileSourceAccessor.readFile fuel [] a)) = [size].
Proof.
  intros Hs Hsize. rewrite FileReadFacts.readFile_root_run. cbv zeta.
  assert (Hann : announced (trace (UnixFileSourceAccessor.maybeLstat [] a)) = []
                 /\ exists st, s = posixStatToAccessorStat st).
  { destruct (FileFacts.maybeLstat_root_cases a)
      as [(st & E & _) | [(st & E & _) | (e & E & _)]];
      rewrite E in Hs |- *; cbn [outcome trace] in *; try discriminate;
      (split; [reflexivity | exists st; congruence]). }
  destruct Hann as [Hann (st & ->)]. rewrite Hs, Hsize.
  unfold prepend. cbn [trace].
  rewrite !announced_app, Hann.
  destruct (FileFacts.readLoop_delivers fuel 0 [] (to_off_t size) 0
              (final (UnixFileSourceAccessor.maybeLstat [] a))) as (-> & _).
  cbn. f_equal. rewrite to_uint64_to_off_t.
  unfold posixStatToAccessorStat in Hsize. cbn [fileSize] in Hsize.
  destruct (StatMode.S_ISREG (st_mode st)); [|discriminate].
  injection Hsize as <-. apply to_uint64_idem.
Qed.

(** In the scenario, [/a/b] reports and announces four bytes. *)
Lemma X3_file_read_announces_status_size_witness :
  let a := Scenario.fileAccessor Scenario.linux (Some ["a"; "b"]) false in
  outcome (@UnixFileSourceAccessor.maybeLstat Scenario.linux [] a) =
    Ok (Some {| type := tRegular; fileSize := Some 4; isExecutable := false |})
  /\ announced (trace (@UnixFileSourceAccessor.readFile Scenario.linux 8 [] a)) = [4].
Proof.
  intros a.
  assert (Hs : outcome (@UnixFileSourceAccessor.maybeLstat Scenario.linux [] a) =
               Ok (Some {| type := tRegular; fileSize := Some 4; isExecutable := false |}))
    by reflexivity.
  split; [exact Hs|].
  exact (@X3_file_read_announces_status_size Scenario.linux a 8%nat _ 4 Hs eq_refl).
Defined.

(** X4.  A regular file is delivered whole and in order.  When the
    descriptor's status gives a regular file of [length data] bytes, no
    interrupt is pending, and every positioned read inside the file returns
    some non-empty run of at most [count] of the bytes found at its offset
    (short reads included), then [readFile] returns, the bytes handed to the
    sink are exactly [data], and the size announced is [length data]. *)
Theorem X4_file_read_delivers_content `{Posix} (fd_ : Descriptor) (rootPath_ : CanonPath.t)
    (trackLastModified : bool) (st : posix_stat) (data : list Byte.byte) (fuel : nat) :
  os_fstat fd_ = inr st ->
  StatMode.S_ISREG (st_mode st) = true ->
  st_size st = Z.of_nat (length data) ->
  Z.of_nat (length data) < 2 ^ 63 ->
  (forall k, os_interrupted k = false) ->
  (forall k count off,
     0 < count -> 0 <= off < Z.of_nat (length data) ->
     exists chunk rest,
       os_pread k fd_ count off = inr chunk /\ chunk <> []
       /\ Z.of_nat (length chunk) <= count
       /\ skipn (Z.to_nat off) data = chunk ++ rest) ->
  (length data < fuel)%nat ->
  let r := UnixFileSourceAccessor.readFile fuel []
             (UnixFileSourceAccessor.new fd_ rootPath_ trackLastModified None) in
  outcome r = Ok tt /\ sunk (trace r) = data /\ announced (trace r) = [Z.of_nat (length data)].
Proof.
  intros Hstat Hreg Hsize Hlen Hint Hrd Hfuel.
  exact (FileReadFacts.readFile_delivers fd_ rootPath_ trackLastModified st data fuel
           Hstat Hreg Hsize Hlen Hint Hrd Hfuel).
Qed.

(** In the scenario, reading [/a/b] hands its four bytes to the sink. *)
Lemma X4_file_read_delivers_content_witness :
  let r := @UnixFileSourceAccessor.readFile Scenario.linux 5 []
             (@UnixFileSourceAccessor.new Scenario.linux (Some ["a"; "b"]) ["a"; "b"] true None) in
  outcome r = Ok tt /\ sunk (trace r) = Scenario.data
  /\ announced (trace r) = [Z.of_nat (length Scenario.data)].
Proof.
  apply (@X4_file_read_delivers_content Scenario.linux (Some ["a"; "b"]) ["a"; "b"] true
           {| st_mode := 33188; st_size := 4; st_mtime := 7 |} Scenario.data 5%nat).
  - reflexivity.
  - reflexivity.
  - reflexivity.
  - reflexivity.
  - reflexivity.
  - intros k count off Hc Ho.
    destruct (FileReadFacts.slice_read Scenario.data count off Hc Ho) as (Hne & Hshort & Hcut).
    eexists _, _. split; [reflexivity|]. split; [exact Hne|]. split; [exact Hshort | exact Hcut].
  - cbn. lia.
Defined.

(** X5.  The positioned reads of one [readFile] call lie end to end: each
    asks for at least one byte and at most the 64 KiB the buffer holds, at
    the offset that the bytes already handed to the sink have reached,
    starting from 0; the file position of the descriptor is never relied on. *)
Theorem X5_file_reads_are_positioned `{Posix} (a : UnixFileSourceAccessor.t) (fuel : nat)
    (path : CanonPath.t) :
  reads_positioned (64 * 1024) 0 (trace (UnixFileSourceAccessor.readFile fuel path a)) = true.
Proof.
  destruct path as [|c p].
  - rewrite FileReadFacts.readFile_root_run. cbv zeta.
    assert (Hm : forall tr,
      reads_positioned (64 * 1024) 0 (trace (UnixFileSourceAccessor.maybeLstat [] a) ++ tr) =
      reads_positioned (64 * 1024) 0 tr).
    { intros tr.
      destruct (FileFacts.maybeLstat_root_cases a)
        as [(st & E & _) | [(st & E & _) | (e & E & _)]]; rewrite E; reflexivity. }
    destruct (outcome (UnixFileSourceAccessor.maybeLstat [] a)) as [[s|]|e|];
      try (cbn [trace]; rewrite <- (app_nil_r (trace _)), Hm; reflexivity).
    destruct (fileSize s) as [size|];
      [|cbn [trace]; rewrite <- (app_nil_r (trace _)), Hm; reflexivity].
    unfold prepend. cbn [trace]. rewrite <- app_assoc, Hm. cbn [app reads_positioned].
    apply (FileReadFacts.readLoop_positioned fuel 0 [] (to_off_t size) 0).
    apply to_off_t_range.
  - unfold UnixFileSourceAccessor.readFile. cbn [CanonPath.isRoot negb].
    rewrite bind_get. reflexivity.
Qed.

(** X6.  An interrupted read is retried at the same place, and the
    interruptions leave no mark on what is delivered.  When the descriptor's
    status gives a regular file of [length data] bytes, no interrupt of the
    process is pending, and every positioned read inside the file either
    fails with EINTR (which only the reads numbered below [bound] may do) or
    returns some non-empty run of at most [count] of the bytes found at its
    offset, then [readFile] returns, the bytes handed to the sink are exactly
    [data], in order, and the size announced is [length data]. *)
Theorem X6_file_read_retries_EINTR `{Posix} (fd_ : Descriptor) (rootPath_ : CanonPath.t)
    (trackLastModified : bool) (st : posix_stat) (data : list Byte.byte) (fuel bound : nat) :
  os_fstat fd_ = inr st ->
  StatMode.S_ISREG (st_mode st) = true ->
  st_size st = Z.of_nat (length data) ->
  Z.of_nat (length data) < 2 ^ 63 ->
  (forall k, os_interrupted k = false) ->
  (forall k count off,
     0 < count -> 0 <= off < Z.of_nat (length data) ->
     (os_pread k fd_ count off = inl EINTR /\ (k < bound)%nat)
     \/ exists chunk rest,
          os_pread k fd_ count off = inr chunk /\ chunk <> []
          /\ Z.of_nat (length chunk) <= count
          /\ skipn (Z.to_nat off) data = chunk ++ rest) ->
  (length data + bound < fuel)%nat ->
  let r := UnixFileSourceAccessor.readFile fuel []
             (UnixFileSourceAccessor.new fd_ rootPath_ trackLastModified None) in
  outcome r = Ok tt /\ sunk (trace r) = data /\ announced (trace r) = [Z.of_nat (length data)].
Proof.
  intros Hstat Hreg Hsize Hlen Hint Hrd Hfuel.
  exact (FileReadFacts.readFile_delivers_retry fd_ rootPath_ trackLastModified st data fuel
           bound Hstat Hreg Hsize Hlen Hint Hrd Hfuel).
Qed.

(** In the scenario whose first two reads are interrupted, reading [/a/b]
    still hands its four bytes to the sink, after three reads at offset 0. *)
Lemma X6_file_read_retries_EINTR_witness :
  let r := @UnixFileSourceAccessor.readFile Scenario.interrupted 7 []
             (@UnixFileSourceAccessor.new Scenario.interrupted (Some ["a"; "b"]) ["a"; "b"]
                true None) in
  (outcome r = Ok tt /\ sunk (trace r) = Scenario.data
   /\ announced (trace r) = [Z.of_nat (length Scenario.data)])
  /\ @os_pread Scenario.interrupted 0 (Some ["a"; "b"]) 4 0 = inl EINTR
  /\ trace r =
       [@EvFstat Scenario.interrupted (Some ["a"; "b"]);
        @EvSizeCallback Scenario.interrupted 4;
        @EvPread Scenario.interrupted (Some ["a"; "b"]) 4 0;
        @EvPread Scenario.interrupted (Some ["a"; "b"]) 4 0;
        @EvPread Scenario.interrupted (Some ["a"; "b"]) 4 0;
        @EvSink Scenario.interrupted Scenario.data].
Proof.
  intros r. split; [|split; reflexivity].
  apply (@X6_file_read_retries_EINTR Scenario.interrupted (Some ["a"; "b"]) ["a"; "b"] true
           {| st_mode := 33188; st_size := 4; st_mtime := 7 |} Scenario.data 7%nat 2%nat).
  - reflexivity.
  - reflexivity.
  - reflexivity.
  - reflexivity.
  - reflexivity.
  - intros k count off Hc Ho.
    destruct (Nat.ltb_spec k 2) as [Hk|Hk].
    + left. split; [|exact Hk].
      destruct k as [|[|k]]; [reflexivity | reflexivity | lia].
    + right.
      destruct (FileReadFacts.slice_read Scenario.data count off Hc Ho)
        as (Hne & Hshort & Hcut).
      eexists _, _. split; [|split; [exact Hne | split; [exact Hshort | exact Hcut]]].
      destruct k as [|[|k]]; [lia | lia | reflexivity].
  - cbn. lia.
Defined.

(** X25.  A size that does not fit the signed [off_t] is never read.  When
    the status of the root reports a file size of 2^63 or more, the count of
    bytes left is negative after the conversion: [readFile] does not return
    normally, and not one byte reaches the sink (a read that returns bytes
    trips the assertion [rd <= left]). *)
Theorem X25_file_read_of_an_oversized_file `{Posix} (a : UnixFileSourceAccessor.t)
    (fuel : nat) (s : Stat) (size : Z) :
  outcome (UnixFileSourceAccessor.maybeLstat [] a) = Ok (Some s) ->
  fileSize s = Some size ->
  2 ^ 63 <= size ->
  outcome (UnixFileSourceAccessor.readFile fuel [] a) <> Ok tt
  /\ sunk (trace (UnixFileSourceAccessor.readFile fuel [] a)) = [].
Proof.
  intros Hs Hsize Hbig. rewrite FileReadFacts.readFile_root_run. cbv zeta.
  assert (Hq : sunk (trace (UnixFileSourceAccessor.maybeLstat [] a)) = []
               /\ exists st, s = posixStatToAccessorStat st).
  { destruct (FileFacts.maybeLstat_root_cases a)
      as [(st & E & _) | [(st & E & _) | (e & E & _)]];
      rewrite E in Hs |- *; cbn [outcome trace] in *; try discriminate;
      (split; [reflexivity | exists st; congruence]). }
  destruct Hq as [Hq (st & ->)]. rewrite Hs, Hsize.
  assert (Hneg : to_off_t size < 0).
  { unfold posixStatToAccessorStat in Hsize. cbn [fileSize] in Hsize.
    destruct (StatMode.S_ISREG (st_mode st)); [|discriminate].
    injection Hsize as <-. unfold to_off_t, to_uint64 in *. cbv zeta.
    pose proof (Z.mod_pos_bound (st_size st) (2 ^ 64) ltac:(lia)) as Hb.
    rewrite Z.mod_mod by lia.
    destruct (Z.ltb_spec (st_size st mod 2 ^ 64) (2 ^ 63)); lia. }
  destruct (FileFacts.readLoop_delivers fuel 0 [] (to_off_t size) 0
              (final (UnixFileSourceAccessor.maybeLstat [] a))) as (_ & Hle & Hok).
  unfold prepend. cbn [outcome trace]. split.
  - intros Ho. specialize (Hok Ho). lia.
  - rewrite !sunk_app, Hq. cbn [app].
    destruct (sunk (trace (UnixFileSourceAccessor.readLoop _ _ _ _ _ _))) as [|b l];
      [reflexivity|]. cbn [length] in Hle. lia.
Qed.

(** A file accessor whose prefetched record gives the size -1: after the
    conversion to the unsigned file size it is 2^64 - 1. *)
Lemma X25_file_read_of_an_oversized_file_witness :
  let a := @UnixFileSourceAccessor.new Scenario.linux (Some ["a"; "b"]) ["a"; "b"] false
             (Some {| st_mode := 33188; st_size := -1; st_mtime := 0 |}) in
  outcome (@UnixFileSourceAccessor.readFile Scenario.linux 8 [] a) <> Ok tt
  /\ sunk (trace (@UnixFileSourceAccessor.readFile Scenario.linux 8 [] a)) = [].
Proof.
  intros a.
  apply (@X25_file_read_of_an_oversized_file Scenario.linux a 8%nat
           {| type := tRegular; fileSize := Some (2 ^ 64 - 1); isExecutable := false |}
           (2 ^ 64 - 1)).
  - reflexivity.
  - reflexivity.
  - lia.
Defined.

(** * Further properties of the directory accessor *)

(** X7.  The root of a directory accessor is the directory itself.  Reading
    it as a file fails with NotARegularFile and reading it as a link with
    NotASymlink, both without a system call; its status is one [fstat] of the
    accessor's own descriptor and never throws; and listing it reads a
    directory stream only from the descriptor that a fresh [openat] of "."
    has returned, never from the accessor's own. *)
Theorem X7_dir_root_is_the_directory `{Posix} (a : UnixDirectorySourceAccessor.t) (fuel : nat) :
  UnixDirectorySourceAccessor.readFile fuel [] a =
    mkRun (Throw (NotARegularFile
                    ("'" +:+ UnixDirectorySourceAccessor.showPath a [] +:+
                     "' is not a regular file"))) a []
  /\ UnixDirectorySourceAccessor.readLink [] a =
       mkRun (Throw (NotASymlink
                       ("file '" +:+ UnixDirectorySourceAccessor.showPath a [] +:+
                        "' is not a symlink"))) a []
  /\ trace (UnixDirectorySourceAccessor.maybeLstat [] a) =
       [EvFstat (UnixDirectorySourceAccessor.fd a)]
  /\ (forall e, outcome (UnixDirectorySourceAccessor.maybeLstat [] a) <> Throw e)
  /\ (forall d,
        In (EvFdopendir d) (trace (UnixDirectorySourceAccessor.readDirectory [] a)) ->
        os_openat (UnixDirectorySourceAccessor.fd a) "."
          (Z.lor Fcntl.O_DIRECTORY (Z.lor Fcntl.O_RDONLY Fcntl.O_CLOEXEC)) = inr d).
Proof.
  split; [apply DirFacts.readFile_root|]. split; [apply DirCallFacts.readLink_root|].
  split; [|split].
  - rewrite DirFacts.maybeLstat_root.
    destruct (os_fstat (UnixDirectorySourceAccessor.fd a)); reflexivity.
  - intros e. rewrite DirFacts.maybeLstat_root.
    destruct (os_fstat (UnixDirectorySourceAccessor.fd a)); discriminate.
  - intros d. pose proof (ListingFacts.readDirectory_eq [] a) as E. cbv zeta in E.
    rewrite E. clear E. cbn [CanonPath.isRoot]. unfold sys_openat. cbn [outcome trace].
    destruct (os_openat (UnixDirectorySourceAccessor.fd a) "." _) as [e|dirFd].
    + cbn [trace In]. intros [Hin|[]]. discriminate.
    + assert (Hl : forall dir n dirents entries,
                ~ In (EvFdopendir d)
                    (trace (UnixDirectorySourceAccessor.readEntries dir n dirents entries a))).
      { intros dir n dirents. revert n.
        induction dirents as [|x rest IH]; intros n entries.
        - rewrite ListingFacts.readEntries_nil. cbn. intros [Hin|[]]. discriminate.
        - rewrite ListingFacts.readEntries_cons. destruct (os_interrupted n).
          + cbn. intros [Hin|[]]. discriminate.
          + unfold prepend. cbn [trace app In]. intros [Hin|Hin]; [discriminate|].
            exact (IH _ _ Hin). }
      destruct (os_fdopendir dirFd) as [e|dir].
      * cbn [trace app In]. intros [Hin|[Hin|[]]]; [discriminate|congruence].
      * assert (Hcase : forall tr : list Event,
                  tr = trace (UnixDirectorySourceAccessor.readEntries dir 0
                                (fst (os_readdir dir)) ∅ a) ->
                  In (EvFdopendir d) ([EvOpenat (UnixDirectorySourceAccessor.fd a) "."
                                         (Z.lor Fcntl.O_DIRECTORY
                                            (Z.lor Fcntl.O_RDONLY Fcntl.O_CLOEXEC))] ++
                                      EvFdopendir dirFd :: tr) ->
                  @inr Errno Descriptor dirFd = inr d).
        { intros tr -> [Hin|[Hin|Hin]]; [discriminate|congruence|].
          exfalso. exact (Hl _ _ _ _ Hin). }
        destruct (outcome (UnixDirectorySourceAccessor.readEntries dir 0 _ ∅ a));
          [destruct (snd (os_readdir dir))| |]; cbn [trace]; apply Hcase; reflexivity.
Qed.

(** X8.  An entry directly under the anchor costs one system call and no
    open: with a valid descriptor, the status of a single-component path is
    one [fstatat] by name on the accessor's own descriptor, not following a
    symlink, and reading it as a link is one [readlinkat] on that descriptor. *)
Theorem X8_dir_direct_child_one_call `{Posix} (a : UnixDirectorySourceAccessor.t)
    (name : string) :
  fd_valid (UnixDirectorySourceAccessor.fd a) = true ->
  trace (UnixDirectorySourceAccessor.maybeLstat [name] a) =
    [EvFstatat (UnixDirectorySourceAccessor.fd a) name Fcntl.AT_SYMLINK_NOFOLLOW]
  /\ outcome (UnixDirectorySourceAccessor.maybeLstat [name] a) =
       Ok match os_fstatat (UnixDirectorySourceAccessor.fd a) name Fcntl.AT_SYMLINK_NOFOLLOW with
          | inr st => Some (posixStatToAccessorStat st)
          | inl _ => None
          end
  /\ trace (UnixDirectorySourceAccessor.readLink [name] a) =
       [EvReadlinkat (UnixDirectorySourceAccessor.fd a) name]
  /\ (forall target,
        os_readlinkat (UnixDirectorySourceAccessor.fd a) name = inr target ->
        outcome (UnixDirectorySourceAccessor.readLink [name] a) = Ok target).
Proof.
  intros Hvalid.
  pose proof (DirFacts.maybeLstat_child [] name a) as Es.
  pose proof (DirFacts.readLink_child [] name a) as El.
  cbv zeta in Es, El. cbn [app] in Es, El.
  rewrite DirFacts.openParent_root_parent in Es, El. cbn [outcome trace app] in Es, El.
  rewrite Hvalid in Es, El. rewrite Es, El. clear Es El.
  split; [|split; [|split]].
  - destruct (os_fstatat _ name _); reflexivity.
  - destruct (os_fstatat _ name _); reflexivity.
  - destruct (os_readlinkat _ name); reflexivity.
  - intros target ->. reflexivity.
Qed.

(** In the scenario, the status of [b] under [/a]. *)
Lemma X8_dir_direct_child_one_call_witness :
  let a := Scenario.dirAccessor Scenario.linux (Some ["a"]) false in
  trace (@UnixDirectorySourceAccessor.maybeLstat Scenario.linux ["b"] a) =
    [@EvFstatat Scenario.linux (Some ["a"]) "b" Fcntl.AT_SYMLINK_NOFOLLOW]
  /\ trace (@UnixDirectorySourceAccessor.readLink Scenario.linux ["c"] a) =
       [@EvReadlinkat Scenario.linux (Some ["a"]) "c"].
Proof.
  intros a.
  destruct (@X8_dir_direct_child_one_call Scenario.linux a "b" eq_refl) as (Hs & _).
  destruct (@X8_dir_direct_child_one_call Scenario.linux a "c" eq_refl) as (_ & _ & Hl & _).
  split; [exact Hs | exact Hl].
Defined.

(** X9.  No operation on a path below the anchor makes a call that could
    follow a symlink: every [openat] in its trace carries O_NOFOLLOW, every
    [fstatat] carries AT_SYMLINK_NOFOLLOW, no path name is ever handed to
    [open], and every other call works on a descriptor. *)
Theorem X9_dir_never_follows_a_symlink `{Posix} (a : UnixDirectorySourceAccessor.t)
    (c : string) (p : CanonPath.t) (fuel : nat) :
  forallb follows_no_symlink (trace (UnixDirectorySourceAccessor.maybeLstat (c :: p) a)) = true
  /\ forallb follows_no_symlink
       (trace (UnixDirectorySourceAccessor.readFile fuel (c :: p) a)) = true
  /\ forallb follows_no_symlink
       (trace (UnixDirectorySourceAccessor.readDirectory (c :: p) a)) = true
  /\ forallb follows_no_symlink (trace (UnixDirectorySourceAccessor.readLink (c :: p) a)) = true.
Proof.
  split; [apply DirCallFacts.maybeLstat_never_follows|].
  split; [apply DirCallFacts.readFile_never_follows|].
  split; [apply DirCallFacts.readDirectory_never_follows|].
  apply DirCallFacts.readLink_never_follows.
Qed.

(** X10.  A call that does not deliver leaves the instance untouched.
    Listing a directory and reading a link never change the instance; a
    status query changes it only when it returns a status, and a file read
    only when it returns: a read that fails half-way does not advance the
    last-modified time. *)
Theorem X10_dir_failed_call_changes_nothing `{Posix} (a : UnixDirectorySourceAccessor.t)
    (path : CanonPath.t) (fuel : nat) :
  final (UnixDirectorySourceAccessor.readDirectory path a) = a
  /\ final (UnixDirectorySourceAccessor.readLink path a) = a
  /\ (final (UnixDirectorySourceAccessor.maybeLstat path a) = a
      \/ exists s, outcome (UnixDirectorySourceAccessor.maybeLstat path a) = Ok (Some s))
  /\ (final (UnixDirectorySourceAccessor.readFile fuel path a) = a
      \/ outcome (UnixDirectorySourceAccessor.readFile fuel path a) = Ok tt).
Proof.
  split; [apply DirCallFacts.readDirectory_final|].
  split; [apply DirCallFacts.readLink_final|].
  split; [apply DirCallFacts.maybeLstat_final | apply DirCallFacts.readFile_final].
Qed.



(** X12.  What listing a directory can throw: NotADirectory, a system error
    carrying an error number, an interrupt, or SymlinkNotAllowed with its
    message.  In particular a directory that does not exist is reported as a
    system error, not as FileNotFound. *)
Theorem X12_dir_listing_errors `{Posix} (a : UnixDirectorySourceAccessor.t)
    (path : CanonPath.t) (e : Error) :
  outcome (UnixDirectorySourceAccessor.readDirectory path a) = Throw e ->
  (exists msg, e = NotADirectory msg)
  \/ (exists errNo msg, e = SysError (Some errNo) msg)
  \/ e = Interrupted
  \/ (exists q msg, e = SymlinkNotAllowed q (Some msg)).
Proof.
  pose proof (ListingFacts.readDirectory_eq path a) as E. cbv zeta in E. rewrite E. clear E.
  pose proof (ListingFacts.opened_effect path a) as [_ Ho].
  match type of Ho with
  | match outcome ?o with _ => _ end => destruct (outcome o) as [[err|dirFd]|err|]
  end.
  - cbn [outcome]. intros [= <-]. destruct (Errno_eqb err ENOTDIR); eauto.
  - destruct (os_fdopendir dirFd) as [err|dir]; [cbn [outcome]; intros [= <-]; eauto|].
    pose proof (ListingFacts.readEntries_result dir (fst (os_readdir dir)) 0 ∅ a) as Hl.
    cbv zeta in Hl. destruct Hl as (_ & _ & Hl).
    destruct (outcome (UnixDirectorySourceAccessor.readEntries dir 0 _ ∅ a)) as [entries|err|].
    + destruct (snd (os_readdir dir)); cbn [outcome]; [intros [= <-]; eauto | discriminate].
    + cbn [outcome]. intros [= <-]. subst err. auto.
    + discriminate.
  - cbn [outcome]. intros [= <-]. destruct Ho as (q & rest & _ & _ & _ & ->).
    cbn [UnixDirectorySourceAccessor.rethrown]. right; right; right. eauto.
  - destruct Ho.
Qed.

(** In the scenario, listing the missing [/a/zz]. *)
Lemma X12_dir_listing_errors_witness :
  (exists msg, SysError (Some ENOENT) "opening directory '/a/zz'" = NotADirectory msg)
  \/ (exists errNo msg,
        SysError (Some ENOENT) "opening directory '/a/zz'" = SysError (Some errNo) msg)
  \/ SysError (Some ENOENT) "opening directory '/a/zz'" = Interrupted
  \/ (exists q msg,
        SysError (Some ENOENT) "opening directory '/a/zz'" = SymlinkNotAllowed q (Some msg)).
Proof.
  exact (@X12_dir_listing_errors Scenario.linux
           (Scenario.dirAccessor Scenario.linux (Some ["a"]) false) ["zz"] _ eq_refl).
Defined.

(** X13.  Errors met while the content of an opened file is read name the
    file by the accessor's root path joined with the path, whatever the
    display prefix is: when the file was opened and its status query fails,
    [readFile] throws the system error "statting file" with that name, and
    the instance is unchanged. *)
Theorem X13_dir_read_errors_name_the_physical_path `{Posix}
    (a : UnixDirectorySourceAccessor.t) (c : string) (p : CanonPath.t) (fuel : nat)
    (fileFd : Descriptor) (e : Errno) :
  outcome (openFileEnsureBeneathNoSymlinks (UnixDirectorySourceAccessor.fd a) (c :: p)
             UnixDirectorySourceAccessor.fileFlags a) = Ok (inr fileFd) ->
  os_fstat fileFd = inl e ->
  outcome (UnixDirectorySourceAccessor.readFile fuel (c :: p) a) =
    Throw (SysError (Some e)
             ("statting file '" +:+
              CanonPath.abs (UnixDirectorySourceAccessor.rootPath a ++ c :: p) +:+ "'"))
  /\ final (UnixDirectorySourceAccessor.readFile fuel (c :: p) a) = a.
Proof.
  intros Hopen Hstat.
  pose proof (DirFacts.readFile_child fuel c p a) as E. cbv zeta in E. rewrite E. clear E.
  rewrite Hopen. cbv zeta.
  set (f := UnixFileSourceAccessor.new fileFd _ _ None).
  unfold CanonPath.root. rewrite (FileReadFacts.readFile_root_run fuel f). cbv zeta.
  rewrite (FileFacts.maybeLstat_failed f e eq_refl Hstat). cbn [outcome final trace].
  split; reflexivity.
Qed.

(** In the scenario with a failing [fstat], reading [/a/b]. *)
Lemma X13_dir_read_errors_name_the_physical_path_witness :
  let a := Scenario.dirAccessor Scenario.failing_fstat (Some ["a"]) true in
  outcome (@UnixDirectorySourceAccessor.readFile Scenario.failing_fstat 8 ("b" :: []) a) =
    Throw (SysError (Some EIO)
             ("statting file '" +:+
              CanonPath.abs (@UnixDirectorySourceAccessor.rootPath Scenario.failing_fstat a
                               ++ "b" :: []) +:+ "'"))
  /\ final (@UnixDirectorySourceAccessor.readFile Scenario.failing_fstat 8 ("b" :: []) a) = a.
Proof.
  intros a.
  exact (@X13_dir_read_errors_name_the_physical_path Scenario.failing_fstat a "b" [] 8%nat
           (Some ["a"; "b"]) EIO eq_refl eq_refl).
Defined.

(** X14.  A link target that is returned was read by name in the directory
    that [openParent] reached: [openParent] of the path returned a valid
    descriptor, the calls made are those of [openParent] followed by the one
    link read, by the path's last component, on that very descriptor, and its
    answer is the target returned.  The call makes no status query and leaves
    the instance, and so the last-modified time, as it was. *)
Theorem X14_dir_link_target_is_read_by_name `{Posix} (a : UnixDirectorySourceAccessor.t)
    (parent : CanonPath.t) (name target : string) :
  outcome (UnixDirectorySourceAccessor.readLink (parent ++ [name]) a) = Ok target ->
  (exists parentFd,
     outcome (UnixDirectorySourceAccessor.openParent (parent ++ [name]) a) = Ok parentFd
     /\ fd_valid parentFd = true
     /\ os_readlinkat parentFd name = inr target
     /\ trace (UnixDirectorySourceAccessor.readLink (parent ++ [name]) a) =
          trace (UnixDirectorySourceAccessor.openParent (parent ++ [name]) a) ++
          [EvReadlinkat parentFd name])
  /\ status_queries (trace (UnixDirectorySourceAccessor.readLink (parent ++ [name]) a)) = 0%nat
  /\ final (UnixDirectorySourceAccessor.readLink (parent ++ [name]) a) = a.
Proof.
  intros Hok. split; [|split; [|apply DirCallFacts.readLink_final]]; revert Hok;
    pose proof (DirFacts.readLink_child parent name a) as E; cbv zeta in E; rewrite E; clear E;
    pose proof (DirSessionFacts.openParent_valid parent name a) as Hv;
    (destruct (outcome (UnixDirectorySourceAccessor.openParent (parent ++ [name]) a))
      as [parentFd|e|]; try discriminate);
    (destruct (fd_valid parentFd) eqn:Hvalid; [|discriminate]);
    (destruct (os_readlinkat parentFd name) as [e|t] eqn:Hl; [discriminate|]);
    cbn [outcome trace]; intros [= <-].
  - exists parentFd. split; [reflexivity|]. split; [exact Hvalid|].
    split; [exact Hl | reflexivity].
  - rewrite status_queries_app, (Hv parentFd eq_refl Hvalid). reflexivity.
Qed.

(** In the scenario, the target of [/a/c], read in [/a]. *)
Lemma X14_dir_link_target_is_read_by_name_witness :
  let a := Scenario.dirAccessor Scenario.linux (Some ["a"]) true in
  (exists parentFd,
     outcome (@UnixDirectorySourceAccessor.openParent Scenario.linux ([] ++ ["c"]) a) =
       Ok parentFd
     /\ @fd_valid Scenario.linux parentFd = true
     /\ @os_readlinkat Scenario.linux parentFd "c" = inr "/etc"
     /\ trace (@UnixDirectorySourceAccessor.readLink Scenario.linux ([] ++ ["c"]) a) =
          trace (@UnixDirectorySourceAccessor.openParent Scenario.linux ([] ++ ["c"]) a) ++
          [@EvReadlinkat Scenario.linux parentFd "c"])
  /\ status_queries
       (trace (@UnixDirectorySourceAccessor.readLink Scenario.linux ([] ++ ["c"]) a)) = 0%nat
  /\ final (@UnixDirectorySourceAccessor.readLink Scenario.linux ([] ++ ["c"]) a) = a.
Proof.
  intros a.
  exact (@X14_dir_link_target_is_read_by_name Scenario.linux a [] "c" "/etc" eq_refl).
Defined.

(** X26.  Reading a path that opens but is not a regular file (a directory,
    a device) fails, though not with NotARegularFile: the status of the
    opened descriptor has no file size, and taking its value throws
    bad_optional_access.  Nothing is announced, nothing reaches the sink, and
    the instance is unchanged. *)
Theorem X26_dir_read_of_a_non_regular_file `{Posix} (a : UnixDirectorySourceAccessor.t)
    (c : string) (p : CanonPath.t) (fuel : nat) (fileFd : Descriptor) (st : posix_stat) :
  outcome (openFileEnsureBeneathNoSymlinks (UnixDirectorySourceAccessor.fd a) (c :: p)
             UnixDirectorySourceAccessor.fileFlags a) = Ok (inr fileFd) ->
  os_fstat fileFd = inr st ->
  StatMode.S_ISREG (st_mode st) = false ->
  let r := UnixDirectorySourceAccessor.readFile fuel (c :: p) a in
  outcome r = Throw BadOptionalAccess
  /\ announced (trace r) = [] /\ sunk (trace r) = [] /\ final r = a.
Proof.
  intros Hopen Hstat Hreg r. subst r.
  pose proof (DirFacts.readFile_child fuel c p a) as E. cbv zeta in E. rewrite E. clear E.
  pose proof (resolve_nofollow (c :: p) (UnixDirectorySourceAccessor.fd a)
                UnixDirectorySourceAccessor.fileFlags a) as Hq.
  apply nofollow_call_quiet in Hq. destruct Hq as [Hqs Hqa].
  rewrite Hopen. cbv zeta.
  set (f := UnixFileSourceAccessor.new fileFd _ _ None).
  unfold CanonPath.root. rewrite (FileReadFacts.readFile_root_run fuel f). cbv zeta.
  rewrite (FileFacts.maybeLstat_fresh f st eq_refl Hstat). cbn [outcome final trace].
  assert (Hfs : fileSize (posixStatToAccessorStat st) = None).
  { unfold posixStatToAccessorStat. cbn [fileSize]. rewrite Hreg. reflexivity. }
  rewrite Hfs. cbn [outcome final trace].
  rewrite sunk_app, announced_app, Hqs, Hqa. repeat split.
Qed.

(** In the scenario, reading the directory [/a/d] as a file. *)
Lemma X26_dir_read_of_a_non_regular_file_witness :
  let a := Scenario.dirAccessor Scenario.linux (Some ["a"]) true in
  let r := @UnixDirectorySourceAccessor.readFile Scenario.linux 8 ("d" :: []) a in
  outcome r = Throw BadOptionalAccess
  /\ announced (trace r) = [] /\ sunk (trace r) = [] /\ final r = a.
Proof.
  intros a.
  exact (@X26_dir_read_of_a_non_regular_file Scenario.linux a "d" [] 8%nat (Some ["a"; "d"])
           {| st_mode := 16877; st_size := 4096; st_mtime := 3 |} eq_refl eq_refl eq_refl).
Defined.

(** * The directory accessor on a directory tree: entries that exist *)

(** X15.  On a directory tree, the status of a path that names an entry is
    the status of that very entry, whatever its kind (a symlink is reported
    as a symlink, not as its target), and the entry's mtime is passed to
    [updateMtime]; the root path gives the anchor directory's own status. *)
Theorem X15_tree_status_of_an_entry (platform : TreeFS.Platform) (world : TreeFS.node)
    (a : @UnixDirectorySourceAccessor.t (TreeFS.posix platform world))
    (anchor : list string) (path : CanonPath.t) (n : TreeFS.node) :
  UnixDirectorySourceAccessor.fd a = Some anchor ->
  TreeFS.node_at world (anchor ++ path) = Some n ->
  outcome (UnixDirectorySourceAccessor.maybeLstat path a) =
    Ok (Some (posixStatToAccessorStat (TreeFS.node_stat n)))
  /\ final (UnixDirectorySourceAccessor.maybeLstat path a) =
       UnixDirectorySourceAccessor.set_base
         (Base.updateMtime (UnixDirectorySourceAccessor.base a) (TreeFS.node_mtime n)) a.
Proof.
  intros Hfd Hn.
  rewrite (TreeAccessFacts.maybeLstat_reaches platform world a anchor path n Hfd Hn).
  split; reflexivity.
Qed.

(** In the scenario, the status of the symlink [/a/c]. *)
Lemma X15_tree_status_of_an_entry_witness :
  let a := Scenario.dirAccessor Scenario.linux (Some ["a"]) true in
  outcome (@UnixDirectorySourceAccessor.maybeLstat Scenario.linux ["c"] a) =
    Ok (Some (posixStatToAccessorStat (TreeFS.node_stat (TreeFS.Lnk 9 "/etc"))))
  /\ final (@UnixDirectorySourceAccessor.maybeLstat Scenario.linux ["c"] a) =
       UnixDirectorySourceAccessor.set_base
         (Base.updateMtime (@UnixDirectorySourceAccessor.base Scenario.linux a)
            (TreeFS.node_mtime (TreeFS.Lnk 9 "/etc"))) a.
Proof.
  intros a.
  exact (X15_tree_status_of_an_entry TreeFS.Linux Scenario.world a ["a"] ["c"]
           (TreeFS.Lnk 9 "/etc") eq_refl eq_refl).
Defined.

(** X16.  On a directory tree, reading the link at a path that names an
    entry returns the target stored in the entry when it is a symlink (the
    target is returned as stored, not resolved), and fails with NotASymlink
    for an entry of any other kind. *)
Theorem X16_tree_link_of_an_entry (platform : TreeFS.Platform) (world : TreeFS.node)
    (a : @UnixDirectorySourceAccessor.t (TreeFS.posix platform world))
    (anchor : list string) (parent : CanonPath.t) (name : string) (n : TreeFS.node) :
  UnixDirectorySourceAccessor.fd a = Some anchor ->
  TreeFS.node_at world (anchor ++ parent ++ [name]) = Some n ->
  outcome (UnixDirectorySourceAccessor.readLink (parent ++ [name]) a) =
    match n with
    | TreeFS.Lnk _ target => Ok target
    | _ => Throw (NotASymlink
                    ("file '" +:+ UnixDirectorySourceAccessor.showPath a (parent ++ [name]) +:+
                     "' is not a symlink"))
    end.
Proof.
  intros Hfd Hn.
  exact (TreeAccessFacts.readLink_reaches platform world a anchor parent name n Hfd Hn).
Qed.

(** In the scenario, the link [/a/c] and the file [/a/d/e]. *)
Lemma X16_tree_link_of_an_entry_witness :
  let a := Scenario.dirAccessor Scenario.linux (Some ["a"]) false in
  outcome (@UnixDirectorySourceAccessor.readLink Scenario.linux ([] ++ ["c"]) a) = Ok "/etc"
  /\ outcome (@UnixDirectorySourceAccessor.readLink Scenario.linux (["d"] ++ ["e"]) a) =
       Throw (NotASymlink
                ("file '" +:+
                 @UnixDirectorySourceAccessor.showPath Scenario.linux a (["d"] ++ ["e"]) +:+
                 "' is not a symlink")).
Proof.
  intros a. split.
  - exact (X16_tree_link_of_an_entry TreeFS.Linux Scenario.world a ["a"] [] "c"
             (TreeFS.Lnk 9 "/etc") eq_refl eq_refl).
  - exact (X16_tree_link_of_an_entry TreeFS.Linux Scenario.world a ["a"] ["d"] "e"
             (TreeFS.Reg true 11 []) eq_refl eq_refl).
Defined.

(** X17.  On a directory tree, reading a path that names a regular file
    returns, hands exactly the file's bytes to the sink, in order, and
    announces the file's length, however deep the path lies and however the
    64 KiB buffer cuts the file. *)
Theorem X17_tree_read_of_a_regular_file (platform : TreeFS.Platform) (world : TreeFS.node)
    (a : @UnixDirectorySourceAccessor.t (TreeFS.posix platform world))
    (anchor : list string) (c : string) (p : CanonPath.t)
    (executable : bool) (mtime : Z) (data : list Byte.byte) (fuel : nat) :
  UnixDirectorySourceAccessor.fd a = Some anchor ->
  TreeFS.node_at world (anchor ++ c :: p) = Some (TreeFS.Reg executable mtime data) ->
  Z.of_nat (length data) < 2 ^ 63 ->
  (length data < fuel)%nat ->
  let r := UnixDirectorySourceAccessor.readFile fuel (c :: p) a in
  outcome r = Ok tt /\ sunk (trace r) = data /\ announced (trace r) = [Z.of_nat (length data)].
Proof.
  intros Hfd Hn Hlen Hfuel.
  exact (TreeAccessFacts.readFile_reaches platform world a anchor c p executable mtime data
           fuel Hfd Hn Hlen Hfuel).
Qed.

(** In the scenario, the content of [/a/b]. *)
Lemma X17_tree_read_of_a_regular_file_witness :
  let a := Scenario.dirAccessor Scenario.linux (Some ["a"]) false in
  let r := @UnixDirectorySourceAccessor.readFile Scenario.linux 5 ("b" :: []) a in
  outcome r = Ok tt /\ sunk (trace r) = Scenario.data
  /\ announced (trace r) = [Z.of_nat (length Scenario.data)].
Proof.
  intros a.
  apply (X17_tree_read_of_a_regular_file TreeFS.Linux Scenario.world a ["a"] "b" []
           false 7 Scenario.data 5%nat eq_refl eq_refl).
  - reflexivity.
  - cbn. lia.
Defined.

(** X18.  On a directory tree, on either platform, reading a path whose last
    component is a symlink is refused with NotARegularFile ("is a symlink,
    not a regular file"): the link is not followed, whatever it points to. *)
Theorem X18_tree_read_of_a_symlink (platform : TreeFS.Platform) (world : TreeFS.node)
    (a : @UnixDirectorySourceAccessor.t (TreeFS.posix platform world))
    (anchor : list string) (c : string) (p : CanonPath.t)
    (mtime : Z) (target : string) (fuel : nat) :
  UnixDirectorySourceAccessor.fd a = Some anchor ->
  TreeFS.node_at world (anchor ++ c :: p) = Some (TreeFS.Lnk mtime target) ->
  outcome (UnixDirectorySourceAccessor.readFile fuel (c :: p) a) =
    Throw (NotARegularFile
             ("'" +:+ UnixDirectorySourceAccessor.showPath a (c :: p) +:+
              "' is a symlink, not a regular file")).
Proof.
  intros Hfd Hn.
  exact (TreeAccessFacts.readFile_of_symlink platform world a anchor c p mtime target fuel
           Hfd Hn).
Qed.

(** In the scenario, reading [/a/c]. *)
Lemma X18_tree_read_of_a_symlink_witness :
  outcome (@UnixDirectorySourceAccessor.readFile Scenario.linux 8 ("c" :: [])
             (Scenario.dirAccessor Scenario.linux (Some ["a"]) false)) =
    Throw (NotARegularFile
             ("'" +:+
              @UnixDirectorySourceAccessor.showPath Scenario.linux
                (Scenario.dirAccessor Scenario.linux (Some ["a"]) false) ("c" :: []) +:+
              "' is a symlink, not a regular file")).
Proof.
  exact (X18_tree_read_of_a_symlink TreeFS.Linux Scenario.world
           (Scenario.dirAccessor Scenario.linux (Some ["a"]) false) ["a"] "c" [] 9 "/etc" 8%nat
           eq_refl eq_refl).
Defined.

(** X19.  On a directory tree, listing a path that names a directory (the
    root path included) returns exactly the directory's entries, each with
    the kind of the entry itself: a name is in the listing exactly when the
    directory holds an entry of that name, and a symlink is listed as a
    symlink. *)
Theorem X19_tree_listing_of_a_directory (platform : TreeFS.Platform) (world : TreeFS.node)
    (a : @UnixDirectorySourceAccessor.t (TreeFS.posix platform world))
    (anchor : list string) (path : CanonPath.t) (m : Z) (entries : list (string * TreeFS.node)) :
  UnixDirectorySourceAccessor.fd a = Some anchor ->
  TreeFS.node_at world (anchor ++ path) = Some (TreeFS.Dir m entries) ->
  exists listing,
    outcome (UnixDirectorySourceAccessor.readDirectory path a) = Ok listing
    /\ forall name,
         listing !! name =
           option_map
             (fun x => Some match x with
                            | TreeFS.Reg _ _ _ => tRegular
                            | TreeFS.Dir _ _ => tDirectory
                            | TreeFS.Lnk _ _ => tSymlink
                            | TreeFS.Special TreeFS.CharDevice _ => tChar
                            | TreeFS.Special TreeFS.BlockDevice _ => tBlock
                            | TreeFS.Special TreeFS.Fifo _ => tFifo
                            | TreeFS.Special TreeFS.Socket _ => tSocket
                            end)
             (TreeFS.child entries name).
Proof.
  intros Hfd Hn.
  destruct (TreeAccessFacts.readDirectory_reaches platform world a anchor path m entries Hfd Hn)
    as (listing & Ho & Hl).
  exists listing. split; [exact Ho|]. intros name. rewrite Hl.
  destruct (TreeFS.child entries name) as [x|]; [|reflexivity].
  cbn [option_map]. rewrite TreeAccessFacts.direntType_node. reflexivity.
Qed.

(** In the scenario, the listing of [/a/d]. *)
Lemma X19_tree_listing_of_a_directory_witness :
  exists listing,
    outcome (@UnixDirectorySourceAccessor.readDirectory Scenario.linux ["d"]
               (Scenario.dirAccessor Scenario.linux (Some ["a"]) false)) = Ok listing
    /\ forall name,
         listing !! name =
           option_map
             (fun x => Some match x with
                            | TreeFS.Reg _ _ _ => tRegular
                            | TreeFS.Dir _ _ => tDirectory
                            | TreeFS.Lnk _ _ => tSymlink
                            | TreeFS.Special TreeFS.CharDevice _ => tChar
                            | TreeFS.Special TreeFS.BlockDevice _ => tBlock
                            | TreeFS.Special TreeFS.Fifo _ => tFifo
                            | TreeFS.Special TreeFS.Socket _ => tSocket
                            end)
             (TreeFS.child [("e", TreeFS.Reg true 11 []); ("old", TreeFS.Reg false (-86400) [])]
                name).
Proof.
  exact (X19_tree_listing_of_a_directory TreeFS.Linux Scenario.world
           (Scenario.dirAccessor Scenario.linux (Some ["a"]) false) ["a"] ["d"] 3
           [("e", TreeFS.Reg true 11 []); ("old", TreeFS.Reg false (-86400) [])]
           eq_refl eq_refl).
Defined.

(** X20.  On a directory tree, listing a path below the anchor whose last
    component is a regular file or a special file fails with NotADirectory. *)
Theorem X20_tree_listing_of_a_file (platform : TreeFS.Platform) (world : TreeFS.node)
    (a : @UnixDirectorySourceAccessor.t (TreeFS.posix platform world))
    (anchor : list string) (c : string) (p : CanonPath.t) (n : TreeFS.node) :
  UnixDirectorySourceAccessor.fd a = Some anchor ->
  TreeFS.node_at world (anchor ++ c :: p) = Some n ->
  match n with TreeFS.Reg _ _ _ | TreeFS.Special _ _ => true | _ => false end = true ->
  outcome (UnixDirectorySourceAccessor.readDirectory (c :: p) a) =
    Throw (NotADirectory
             ("'" +:+ UnixDirectorySourceAccessor.showPath a (c :: p) +:+
              "' is not a directory")).
Proof.
  intros Hfd Hn Hkind.
  pose proof (TreeAccessFacts.readDirectory_of_other platform world a anchor c p n Hfd Hn) as Ho.
  destruct n; try discriminate; exact Ho.
Qed.

(** In the scenario, listing the file [/a/b]. *)
Lemma X20_tree_listing_of_a_file_witness :
  outcome (@UnixDirectorySourceAccessor.readDirectory Scenario.linux ("b" :: [])
             (Scenario.dirAccessor Scenario.linux (Some ["a"]) false)) =
    Throw (NotADirectory
             ("'" +:+
              @UnixDirectorySourceAccessor.showPath Scenario.linux
                (Scenario.dirAccessor Scenario.linux (Some ["a"]) false) ("b" :: []) +:+
              "' is not a directory")).
Proof.
  exact (X20_tree_listing_of_a_file TreeFS.Linux Scenario.world
           (Scenario.dirAccessor Scenario.linux (Some ["a"]) false) ["a"] "b" []
           (TreeFS.Reg false 7 Scenario.data) eq_refl eq_refl eq_refl).
Defined.

(** * Further properties of the entry point *)

(** X21.  A regular-file root is queried once, at construction.  When the
    no-follow open of the path succeeds and the status of the descriptor is a
    regular file's, the entry point returns the single-file accessor on that
    descriptor after exactly those two calls; the accessor already holds the
    status, so its status is answered without a system call, no sequence of
    calls on it ever makes a status query, and its last-modified time is the
    larger of 0 and the file's mtime when tracking. *)
Theorem X21_entry_point_regular_file `{Posix} (process : Process) (parent : CanonPath.t)
    (name : string) (trackLastModified : bool) (fd : Descriptor) (st : posix_stat)
    (ops : list FileSession.Op) :
  let rootPath := parent ++ [name] in
  let flags := Z.lor Fcntl.O_RDONLY (Z.lor Fcntl.O_CLOEXEC Fcntl.O_NOFOLLOW) in
  os_open (CanonPath.abs rootPath) flags = inr fd ->
  os_fstat fd = inr st ->
  StatMode.S_ISREG (st_mode st) = true ->
  exists acc,
    makeFSSourceAccessor (Some rootPath) trackLastModified process =
      mkRun (Ok (FileAccessor acc)) process [EvOpen (CanonPath.abs rootPath) flags; EvFstat fd]
    /\ UnixFileSourceAccessor.fd acc = fd
    /\ UnixFileSourceAccessor.maybeLstat [] acc =
         mkRun (Ok (Some (posixStatToAccessorStat st))) acc []
    /\ status_queries (snd (FileSession.history ops acc)) = 0%nat
    /\ UnixFileSourceAccessor.getLastModified (fst (FileSession.history ops acc)) =
         (if trackLastModified then Some (Z.max 0 (st_mtime st)) else None)
    /\ UnixFileSourceAccessor.showPath acc [] = CanonPath.abs rootPath.
Proof.
  intros rootPath flags Hopen Hstat Hreg.
  exists (UnixFileSourceAccessor.new fd rootPath trackLastModified (Some st)).
  set (acc := UnixFileSourceAccessor.new fd rootPath trackLastModified (Some st)).
  assert (Hc : UnixFileSourceAccessor.cachedStat acc = Some st) by reflexivity.
  split; [|split; [reflexivity|split; [|split; [|split; [|reflexivity]]]]].
  - pose proof (makeFSSourceAccessor_run process parent name trackLastModified) as E.
    cbv zeta in E. unfold CanonPath.t in *. subst rootPath flags. rewrite E, Hopen, Hstat.
    rewrite (mode_regular_not_directory _ Hreg), Hreg. reflexivity.
  - exact (FileFacts.maybeLstat_cached acc st Hc).
  - exact (proj2 (FileSessionFacts.history_cached ops acc st Hc)).
  - rewrite (FileReadFacts.history_cached_final ops acc st Hc).
    subst acc. destruct trackLastModified; reflexivity.
Qed.

(** In the scenario, the accessor made for the file [/a/b]. *)
Lemma X21_entry_point_regular_file_witness :
  exists acc,
    @makeFSSourceAccessor Scenario.linux (Some (["a"] ++ ["b"])) true None =
      @mkRun Scenario.linux _ _ (Ok (@FileAccessor Scenario.linux acc)) None
        [@EvOpen Scenario.linux (CanonPath.abs (["a"] ++ ["b"]))
           (Z.lor Fcntl.O_RDONLY (Z.lor Fcntl.O_CLOEXEC Fcntl.O_NOFOLLOW));
         @EvFstat Scenario.linux (Some ["a"; "b"])]
    /\ @UnixFileSourceAccessor.fd Scenario.linux acc = Some ["a"; "b"]
    /\ @UnixFileSourceAccessor.maybeLstat Scenario.linux [] acc =
         @mkRun Scenario.linux _ _
           (Ok (Some (posixStatToAccessorStat {| st_mode := 33188; st_size := 4; st_mtime := 7 |})))
           acc []
    /\ status_queries
         (snd (@FileSession.history Scenario.linux
                 [FileSession.MaybeLstat []; FileSession.ReadFile 8 []] acc)) = 0%nat
    /\ @UnixFileSourceAccessor.getLastModified Scenario.linux
         (fst (@FileSession.history Scenario.linux
                 [FileSession.MaybeLstat []; FileSession.ReadFile 8 []] acc)) =
         (if true then Some (Z.max 0 (st_mtime {| st_mode := 33188; st_size := 4; st_mtime := 7 |}))
          else None)
    /\ @UnixFileSourceAccessor.showPath Scenario.linux acc [] = CanonPath.abs (["a"] ++ ["b"]).
Proof.
  assert (H1 : @os_open Scenario.linux (CanonPath.abs (["a"] ++ ["b"]))
                 (Z.lor Fcntl.O_RDONLY (Z.lor Fcntl.O_CLOEXEC Fcntl.O_NOFOLLOW)) =
               inr (Some ["a"; "b"])) by (vm_compute; reflexivity).
  assert (H2 : @os_fstat Scenario.linux (Some ["a"; "b"]) =
               inr {| st_mode := 33188; st_size := 4; st_mtime := 7 |})
    by (vm_compute; reflexivity).
  exact (@X21_entry_point_regular_file Scenario.linux None ["a"] "b" true (Some ["a"; "b"])
           {| st_mode := 33188; st_size := 4; st_mtime := 7 |}
           [FileSession.MaybeLstat []; FileSession.ReadFile 8 []] H1 H2 eq_refl).
Defined.

(** X22.  A directory root starts with no modification time seen.  When the
    no-follow open of the path succeeds and the status of the descriptor is a
    directory's, the entry point returns the directory accessor on that
    descriptor, anchored at the path and displayed under it; the status
    queried at construction is not kept: right after construction the
    last-modified time is 0 when tracking (and absent otherwise), whatever
    the directory's own mtime is. *)
Theorem X22_entry_point_directory `{Posix} (process : Process) (parent : CanonPath.t)
    (name : string) (trackLastModified : bool) (fd : Descriptor) (st : posix_stat) :
  let rootPath := parent ++ [name] in
  let flags := Z.lor Fcntl.O_RDONLY (Z.lor Fcntl.O_CLOEXEC Fcntl.O_NOFOLLOW) in
  os_open (CanonPath.abs rootPath) flags = inr fd ->
  os_fstat fd = inr st ->
  StatMode.S_ISDIR (st_mode st) = true ->
  exists acc,
    makeFSSourceAccessor (Some rootPath) trackLastModified process =
      mkRun (Ok (DirectoryAccessor acc)) process
        [EvOpen (CanonPath.abs rootPath) flags; EvFstat fd]
    /\ UnixDirectorySourceAccessor.fd acc = fd
    /\ UnixDirectorySourceAccessor.rootPath acc = rootPath
    /\ UnixDirectorySourceAccessor.displayPrefix acc = CanonPath.abs rootPath
    /\ UnixDirectorySourceAccessor.getLastModified acc =
         (if trackLastModified then Some 0 else None).
Proof.
  intros rootPath flags Hopen Hstat Hdir.
  exists (UnixDirectorySourceAccessor.new fd rootPath trackLastModified).
  split; [|split; [reflexivity|split; [reflexivity|split; [reflexivity|]]]].
  - pose proof (makeFSSourceAccessor_run process parent name trackLastModified) as E.
    cbv zeta in E. unfold CanonPath.t in *. subst rootPath flags. rewrite E, Hopen, Hstat, Hdir. reflexivity.
  - destruct trackLastModified; reflexivity.
Qed.

(** In the scenario, the accessor made for the directory [/a], whose mtime is 5. *)
Lemma X22_entry_point_directory_witness :
  exists acc,
    @makeFSSourceAccessor Scenario.linux (Some ([] ++ ["a"])) true None =
      @mkRun Scenario.linux _ _ (Ok (@DirectoryAccessor Scenario.linux acc)) None
        [@EvOpen Scenario.linux (CanonPath.abs ([] ++ ["a"]))
           (Z.lor Fcntl.O_RDONLY (Z.lor Fcntl.O_CLOEXEC Fcntl.O_NOFOLLOW));
         @EvFstat Scenario.linux (Some ["a"])]
    /\ @UnixDirectorySourceAccessor.fd Scenario.linux acc = Some ["a"]
    /\ @UnixDirectorySourceAccessor.rootPath Scenario.linux acc = [] ++ ["a"]
    /\ @UnixDirectorySourceAccessor.displayPrefix Scenario.linux acc = CanonPath.abs ([] ++ ["a"])
    /\ @UnixDirectorySourceAccessor.getLastModified Scenario.linux acc =
         (if true then Some 0 else None).
Proof.
  assert (H1 : @os_open Scenario.linux (CanonPath.abs ([] ++ ["a"]))
                 (Z.lor Fcntl.O_RDONLY (Z.lor Fcntl.O_CLOEXEC Fcntl.O_NOFOLLOW)) =
               inr (Some ["a"])) by (vm_compute; reflexivity).
  assert (H2 : @os_fstat Scenario.linux (Some ["a"]) =
               inr {| st_mode := 16877; st_size := 4096; st_mtime := 5 |})
    by (vm_compute; reflexivity).
  exact (@X22_entry_point_directory Scenario.linux None [] "a" true (Some ["a"])
           {| st_mode := 16877; st_size := 4096; st_mtime := 5 |} H1 H2 eq_refl).
Defined.

(** X23.  The root is one shared accessor.  The empty path and the path "/"
    both give the process-wide root accessor, whatever tracking is asked
    for: a second request makes no system call and returns the very
    accessor of the first; the accessor returned has an empty display
    prefix, and, when it is created by the request, it is anchored at the
    root and does not track modification times even if tracking was asked
    for. *)
Theorem X23_entry_point_root_is_shared `{Posix} (track1 track2 : bool) (process : Process) :
  let r1 := makeFSSourceAccessor None track1 process in
  let r2 := makeFSSourceAccessor (Some CanonPath.root) track2 (final r1) in
  trace r2 = [] /\ outcome r2 = outcome r1 /\ final r2 = final r1
  /\ exists a,
       outcome r1 = Ok (DirectoryAccessor a) /\ final r1 = Some a
       /\ UnixDirectorySourceAccessor.displayPrefix a = ""
       /\ (process = None ->
           UnixDirectorySourceAccessor.rootPath a = CanonPath.root
           /\ UnixDirectorySourceAccessor.getLastModified a = None
           /\ length (trace r1) = 1%nat).
Proof.
  intros r1 r2. subst r1 r2.
  cbn [makeFSSourceAccessor CanonPath.isRoot CanonPath.root].
  unfold getFSSourceAccessor. rewrite !bind_get.
  destruct process as [a0|]; cbn [modify ret bind sys_open outcome final trace app].
  - split; [reflexivity|]. split; [reflexivity|]. split; [reflexivity|].
    eexists. split; [reflexivity|]. split; [reflexivity|]. split; [reflexivity|].
    discriminate.
  - split; [reflexivity|]. split; [reflexivity|]. split; [reflexivity|].
    eexists. split; [reflexivity|]. split; [reflexivity|]. split; [reflexivity|].
    intros _. split; [reflexivity|]. split; reflexivity.
Qed.

(** X24.  For a path other than the root, the entry point leaves the shared
    root accessor alone, and its first system call is the open of the path
    itself with O_NOFOLLOW: the root is never opened through a symlink at
    its last component.  The only other path ever opened is the parent
    directory. *)
Theorem X24_entry_point_non_root `{Posix} (process : Process) (parent : CanonPath.t)
    (name : string) (trackLastModified : bool) :
  let r := makeFSSourceAccessor (Some (parent ++ [name])) trackLastModified process in
  let flags := Z.lor Fcntl.O_RDONLY (Z.lor Fcntl.O_CLOEXEC Fcntl.O_NOFOLLOW) in
  final r = process
  /\ Fcntl.has flags Fcntl.O_NOFOLLOW = true
  /\ exists rest,
       trace r = EvOpen (CanonPath.abs (parent ++ [name])) flags :: rest
       /\ forall path flags', In (EvOpen path flags') rest -> path = CanonPath.abs parent.
Proof.
  intros r flags. subst r.
  pose proof (makeFSSourceAccessor_run process parent name trackLastModified) as E.
  cbv zeta in E. unfold CanonPath.t in *. subst flags. rewrite E. clear E.
  set (flags := Z.lor Fcntl.O_RDONLY (Z.lor Fcntl.O_CLOEXEC Fcntl.O_NOFOLLOW)).
  assert (Hrest : forall (rest : list Event) path flags',
            (rest = [] \/ exists tail,
               rest = EvOpen (CanonPath.abs parent)
                        (Z.lor Fcntl.O_RDONLY (Z.lor Fcntl.O_DIRECTORY Fcntl.O_CLOEXEC)) :: tail
               /\ forall ev, In ev tail -> match ev with EvOpen _ _ => False | _ => True end) ->
            In (EvOpen path flags') rest -> path = CanonPath.abs parent).
  { intros rest path flags' [->|(tail & -> & Htail)]; [intros []|].
    intros [[= <- _]|Hin]; [reflexivity|]. destruct (Htail _ Hin). }
  destruct (os_open (CanonPath.abs (parent ++ [name])) flags) as [e|fd].
  - destruct (Errno_eqb e ELOOP).
    + destruct (os_open (CanonPath.abs parent) _) as [e'|parentFd].
      * cbn [final outcome trace].
        split; [reflexivity|]. split; [reflexivity|].
        eexists. split; [reflexivity|]. intros path flags'. apply Hrest.
        right. eexists. split; [reflexivity|]. intros ev [].
      * destruct (os_fstatat parentFd name Fcntl.AT_SYMLINK_NOFOLLOW) as [e'|st].
        -- cbn [final outcome trace].
           split; [reflexivity|]. split; [reflexivity|].
           eexists. split; [reflexivity|]. intros path flags'. apply Hrest.
           right. eexists. split; [reflexivity|]. intros ev [<-|[]]. exact I.
        -- destruct (os_readlinkat parentFd name) as [e'|target];
             cbn [final outcome trace];
             (split; [reflexivity|]); (split; [reflexivity|]);
             eexists; (split; [reflexivity|]); intros path flags'; apply Hrest;
             right; eexists; (split; [reflexivity|]);
             intros ev [<-|[<-|[]]]; exact I.
    + cbn [final outcome trace].
      split; [reflexivity|]. split; [reflexivity|].
      eexists. split; [reflexivity|]. intros path flags'. apply Hrest. left. reflexivity.
  - assert (Hfst : forall ev, In ev [EvFstat fd] -> match ev with EvOpen _ _ => False | _ => True end)
      by (intros ev [<-|[]]; exact I).
    destruct (os_fstat fd) as [e|st]; cbn [final outcome trace];
      (split; [reflexivity|]); (split; [reflexivity|]);
      eexists; (split; [reflexivity|]); intros path flags' [[=]|[]].
Qed.
